(** * Function prologue emission (lib/SILGen/SILGenProlog.cpp)

    A shallow embedding of the entry-block argument lowering and
    capture-binding code of SILGen, and the properties of it that the
    specification states.

    The generator state that the prologue mutates is modelled explicitly:
    the arguments of the entry block [F.begin()], the instruction stream
    written through the builder [B], the cleanup stack [Cleanups] and the
    variable-location table [VarLocs].  Every emission routine is a
    function in a state-and-abort monad over that state; an [assert] that
    fails, an [llvm_unreachable] and [front()] on an empty [ArrayRef] are
    aborts.

    All arguments are created in the entry block, so the [parent] block that
    the source passes around is not represented.  A [SILLocation] is
    represented by the declaration it wraps (the only part of it that
    reaches the emitted code, through [getAsASTNode<ValueDecl>]). *)

From stdpp Require Import base option list gmap strings.

Set Default Proof Using "Type".
Set Warnings "-register-all".

(** ** The AST types the prologue inspects *)

Inductive FunctionTypeRepresentation :=
| Swift
| Block
| Thin
| CFunctionPointer.

(** Every type that is not inspected structurally by the prologue (structs,
    classes, enums, archetypes, builtins) is a [NominalType], told apart by
    an identifier; a function type keeps its representation. *)
Inductive CanType :=
| NominalType (id : nat)
| BuiltinUnsafeValueBufferType
| OptionalType (object : CanType)
| FunctionType (representation : FunctionTypeRepresentation) (id : nat)
| MetatypeType (instanceType : CanType)
| DynamicSelfType (selfType : CanType)
| InOutType (objectType : CanType)
| TupleType (elementTypes : list CanType).

Section CanType_induction.
Variable P : CanType -> Prop.
Hypothesis HNominal : forall id, P (NominalType id).
Hypothesis HBuffer : P BuiltinUnsafeValueBufferType.
Hypothesis HOptional : forall t, P t -> P (OptionalType t).
Hypothesis HFunction : forall r id, P (FunctionType r id).
Hypothesis HMetatype : forall t, P t -> P (MetatypeType t).
Hypothesis HDynamicSelf : forall t, P t -> P (DynamicSelfType t).
Hypothesis HInOut : forall t, P t -> P (InOutType t).
Hypothesis HTuple : forall elts, Forall P elts -> P (TupleType elts).

Fixpoint CanType_nested_ind (t : CanType) : P t :=
  match t with
  | NominalType id => HNominal id
  | BuiltinUnsafeValueBufferType => HBuffer
  | OptionalType o => HOptional o (CanType_nested_ind o)
  | FunctionType r id => HFunction r id
  | MetatypeType i => HMetatype i (CanType_nested_ind i)
  | DynamicSelfType s => HDynamicSelf s (CanType_nested_ind s)
  | InOutType o => HInOut o (CanType_nested_ind o)
  | TupleType elts =>
      HTuple elts
        ((fix all (l : list CanType) : Forall P l :=
            match l with
            | [] => List.Forall_nil P
            | x :: l' => List.Forall_cons P x l' (CanType_nested_ind x) (all l')
            end) elts)
  end.
End CanType_induction.

Definition FunctionTypeRepresentation_eqb (a b : FunctionTypeRepresentation) : bool :=
  match a, b with
  | Swift, Swift | Block, Block | Thin, Thin
  | CFunctionPointer, CFunctionPointer => true
  | _, _ => false
  end.

Fixpoint CanType_eqb (a b : CanType) {struct a} : bool :=
  match a, b with
  | NominalType i, NominalType j => Nat.eqb i j
  | BuiltinUnsafeValueBufferType, BuiltinUnsafeValueBufferType => true
  | OptionalType x, OptionalType y => CanType_eqb x y
  | FunctionType r i, FunctionType r' j =>
      FunctionTypeRepresentation_eqb r r' && Nat.eqb i j
  | MetatypeType x, MetatypeType y => CanType_eqb x y
  | DynamicSelfType x, DynamicSelfType y => CanType_eqb x y
  | InOutType x, InOutType y => CanType_eqb x y
  | TupleType xs, TupleType ys =>
      (fix eqs (l : list CanType) (r : list CanType) {struct l} : bool :=
         match l, r with
         | [], [] => true
         | x :: l', y :: r' => CanType_eqb x y && eqs l' r'
         | _, _ => false
         end) xs ys
  | _, _ => false
  end.

(** [getAnyOptionalObjectType()] *)
Definition getAnyOptionalObjectType (t : CanType) : option CanType :=
  match t with
  | OptionalType o => Some o
  | _ => None
  end.

(** [isa<FunctionType>(t) && cast<FunctionType>(t)->getRepresentation() == Block] *)
Definition isBlockFunctionType (t : CanType) : bool :=
  match t with
  | FunctionType Block _ => true
  | _ => false
  end.

(** [getInOutObjectType()]: the object type of an inout type, any other
    type unchanged. *)
Definition getInOutObjectType (t : CanType) : CanType :=
  match t with
  | InOutType o => o
  | _ => t
  end.

(** The scalar leaves of a type, tuples expanded depth first, left to right. *)
Fixpoint leaves (t : CanType) : list CanType :=
  match t with
  | TupleType elts => flat_map leaves elts
  | _ => [t]
  end.

(** ** SIL types, values and instructions *)

Inductive SILValueCategory :=
| Object
| Address.

Record SILType := mkSILType {
  getSwiftRValueType : CanType;
  getCategory : SILValueCategory
}.

Definition SILValueCategory_eqb (a b : SILValueCategory) : bool :=
  match a, b with
  | Object, Object | Address, Address => true
  | _, _ => false
  end.

Definition SILType_eqb (a b : SILType) : bool :=
  CanType_eqb (getSwiftRValueType a) (getSwiftRValueType b)
  && SILValueCategory_eqb (getCategory a) (getCategory b).

Definition isAddress (ty : SILType) : bool :=
  match getCategory ty with
  | Address => true
  | Object => false
  end.

Definition getAddressType (ty : SILType) : SILType :=
  mkSILType (getSwiftRValueType ty) Address.

Definition getPrimitiveObjectType (t : CanType) : SILType :=
  mkSILType t Object.

Module TypeLowering.
Record t := mk {
  getLoweredType : SILType;
  isLoadable : bool;
  isTrivial : bool
}.
End TypeLowering.

Inductive ParameterConvention :=
| Indirect_In
| Indirect_In_Constant
| Indirect_In_Guaranteed
| Indirect_Inout
| Indirect_InoutAliasable
| Direct_Owned
| Direct_Unowned
| Direct_Guaranteed.

Record SILParameterInfo := mkSILParameterInfo {
  getParameterType : CanType;
  getConvention : ParameterConvention
}.

(** A [VarDecl] (a [ParamDecl] is one).  [declID] stands for the identity of
    the declaration, the key of [VarLocs]. *)
Record VarDecl := mkVarDecl {
  declID : nat;
  hasName : bool;
  isLet : bool;
  isInOut : bool;
  isShared : bool;
  hasType : bool;
  getType : CanType;
  getInterfaceType : CanType;
  isSettable : bool
}.

(** The declaration an entry-block argument is created for: a declaration of
    the source program, or the [$return_value] inout [ParamDecl] that
    [emitIndirectResultParameters] allocates for an indirect result. *)
Inductive ValueDecl :=
| SourceDecl (vd : VarDecl)
| ReturnValueDecl (interfaceType : CanType).

Definition SILLocation := option ValueDecl.

Record SILArgument := mkSILArgument {
  getArgumentType : SILType;
  getDecl : option ValueDecl
}.

Inductive ValueDef :=
| FunctionArgument (index : nat)
| InstructionResult (index : nat)
| Undef.

Record SILValue := mkSILValue {
  getDef : ValueDef;
  getValueType : SILType
}.

Record SILDebugVariable := mkSILDebugVariable {
  Name : string;
  Constant : bool;
  ArgNo : nat
}.

Inductive SILInstruction :=
| DebugValueInst (v : SILValue) (var : SILDebugVariable)
| DebugValueAddrInst (v : SILValue) (var : SILDebugVariable)
| CopyValueInst (v : SILValue)
| DestroyValueInst (v : SILValue)
| CopyBlockInst (v : SILValue)
| TupleInst (ty : SILType) (elements : list SILValue)
| TupleElementAddrInst (buffer : SILValue) (index : nat) (ty : SILType)
| AllocStackInst (ty : SILType) (argNo : nat)
| StoreInst (src dest : SILValue)
| CopyAddrInst (src dest : SILValue) (isTake isInitialization : bool)
| ProjectBoxInst (box : SILValue) (index : nat)
| UncheckedBitCastInst (v : SILValue) (ty : SILType).

(** ** Cleanups, managed values, variable locations *)

(** Modelled from the spec: the class [Cleanup] is not in this file; a
    cleanup is "a deferred release action bound to ... a resource
    reference" that "has state {active, popped}".  A cleanup that is popped
    leaves the stack, so the states recorded in the stack are [Active] and
    [Dead], the state of a cleanup that was forwarded. *)
Inductive CleanupState :=
| Active
| Dead.

(** The cleanups this file registers: the destroy cleanup of
    [enterDestroyCleanup] and the [StrongReleaseCleanup] of a captured box. *)
Inductive CleanupKind :=
| DestroyValueCleanup (v : SILValue)
| StrongReleaseCleanup (box : SILValue).

Record Cleanup := mkCleanup {
  getKind : CleanupKind;
  getState : CleanupState
}.

(** The handle of a cleanup is its depth in the cleanup stack. *)
Abbreviation CleanupHandle := nat.

(** Modelled from the spec: [ManagedValue] is not in this file; it is "a
    value plus an optional cleanup handle", and an lvalue is an address with
    no handle. *)
Record ManagedValue := mkManagedValue {
  getValue : SILValue;
  isLValue : bool;
  getCleanup : option CleanupHandle
}.

Definition forUnmanaged (v : SILValue) : ManagedValue := mkManagedValue v false None.
Definition forLValue (v : SILValue) : ManagedValue := mkManagedValue v true None.

Definition hasCleanup (mv : ManagedValue) : bool :=
  match getCleanup mv with
  | Some _ => true
  | None => false
  end.

Definition getUnmanagedValue (mv : ManagedValue) : SILValue := getValue mv.

(** The two fields of a [VarLoc] that this file writes: [value], and [box]
    for a captured box (line 434). *)
Record VarLoc := mkVarLoc {
  value : SILValue;
  box : option SILValue
}.

(** ** The generator state

    The parts of [SILGenFunction] that the prologue reads and writes:
    the parameter infos of the lowered function type
    ([F.getLoweredFunctionType()->getParameters()]), the arguments of the
    entry block, the instructions written through [B] (the stream is only
    ever appended to), the cleanup stack and [VarLocs]. *)

Record SILGenFunction := mkSGF {
  F_parameters : list SILParameterInfo;
  F_arguments : list SILArgument;
  B : list SILInstruction;
  Cleanups : list Cleanup;
  VarLocs : gmap nat VarLoc
}.

Definition with_arguments (args : list SILArgument) (s : SILGenFunction) :=
  mkSGF (F_parameters s) args (B s) (Cleanups s) (VarLocs s).
Definition with_B (insts : list SILInstruction) (s : SILGenFunction) :=
  mkSGF (F_parameters s) (F_arguments s) insts (Cleanups s) (VarLocs s).
Definition with_Cleanups (cs : list Cleanup) (s : SILGenFunction) :=
  mkSGF (F_parameters s) (F_arguments s) (B s) cs (VarLocs s).
Definition with_VarLocs (vl : gmap nat VarLoc) (s : SILGenFunction) :=
  mkSGF (F_parameters s) (F_arguments s) (B s) (Cleanups s) vl.

(** ** The emission monad *)

Inductive Fatal :=
| BadParameterConvention
| NoParameterInfo
| ArgumentTypeMismatch
| ExpectedInOutAddress
| ExpectedImmutableParameter.

Inductive Result (A : Type) :=
| Ok (a : A)
| Abort (e : Fatal).
Arguments Ok {A} a.
Arguments Abort {A} e.

Definition M (A : Type) : Type := SILGenFunction -> Result (A * SILGenFunction).

Definition ret {A} (a : A) : M A := fun s => Ok (a, s).

Definition bind {A C} (m : M A) (k : A -> M C) : M C :=
  fun s =>
    match m s with
    | Ok (a, s') => k a s'
    | Abort e => Abort e
    end.

Definition abort {A} (e : Fatal) : M A := fun _ => Abort e.

Definition assert (c : bool) (e : Fatal) : M unit :=
  if c then ret tt else abort e.

Declare Scope sgf_scope.
Delimit Scope sgf_scope with sgf.
Notation "'do' x <- m ; k" := (bind m (fun x => k))
  (at level 10, x name, m at level 100, k at level 200) : sgf_scope.
Notation "'do' ' p <- m ; k" := (bind m (fun x => match x with p => k end))
  (at level 10, p pattern, m at level 100, k at level 200) : sgf_scope.
Notation "'run' m ; k" := (bind m (fun _ => k))
  (at level 10, m at level 100, k at level 200) : sgf_scope.
Open Scope sgf_scope.

(** ** Capture records *)

Module CaptureKind.
Inductive t :=
| None
| Constant
| Box
| StorageAddress.
End CaptureKind.

Record CapturedValue := mkCapturedValue {
  getCapturedDecl : VarDecl;
  isDynamicSelfMetadata : bool
}.

Record CaptureInfo := mkCaptureInfo {
  getCaptures : list CapturedValue;
  getDynamicSelfType : CanType
}.

(** The function or closure whose prologue is emitted, by identity. *)
Abbreviation AnyFunctionRef := nat.

(** ** The collaborators of the prologue

    The type converter [SGM.Types], the options and conventions of the SIL
    module [SGM.M] and the queries on AST types are not part of this file.
    They are taken as parameters: every definition and theorem below is
    stated for an arbitrary [SILGenModule].  One function is emitted in one
    generic environment, so [F.mapTypeIntoContext], [DC->mapTypeIntoContext]
    and [GenericEnvironment::mapTypeIntoContext] of the closure's
    environment are the same map. *)
Record SILGenModule := mkSGM {
  getTypeLowering : CanType -> TypeLowering.t;
  getDeclCaptureKind : CapturedValue -> CaptureKind.t;
  getContextBoxTypeForCapture : VarDecl -> CanType -> CanType;
  getLoweredLocalCaptures : AnyFunctionRef -> CaptureInfo;
  EnableGuaranteedClosureContexts : bool;
  useLoweredAddresses : bool;
  isReturnedIndirectlyInSIL : SILType -> bool;
  getExceptionType : SILType;
  getSILType : SILParameterInfo -> SILType;
  isMaterializable : CanType -> bool;
  eraseDynamicSelfType : CanType -> CanType;
  getCanonicalType : CanType -> CanType;
  getCanonicalTypeInSignature : CanType -> CanType;
  mapTypeIntoContext : CanType -> CanType
}.

(** [SGF.getLoweredType(t)] *)
Definition getLoweredType (SGM : SILGenModule) (t : CanType) : SILType :=
  TypeLowering.getLoweredType (getTypeLowering SGM t).

(** [SILFunction::mapTypeIntoContext(SILType)] *)
Definition mapSILTypeIntoContext (SGM : SILGenModule) (ty : SILType) : SILType :=
  mkSILType (mapTypeIntoContext SGM (getSwiftRValueType ty)) (getCategory ty).

(** ** The builder, the entry block and the cleanup stack

    [SILBuilder], [SILBasicBlock] and [CleanupManager] are not in this file.
    The source uses them as follows: an argument is appended to the entry
    block and is a value; an instruction is appended to the stream, and
    its result, if it has one, is a value; a cleanup is pushed on the
    stack in state active and is known by its handle. *)

(** [F.begin()->createFunctionArgument(ty, decl)] *)
Definition createFunctionArgument (ty : SILType) (decl : option ValueDecl) : M SILValue :=
  fun s =>
    Ok (mkSILValue (FunctionArgument (length (F_arguments s))) ty,
        with_arguments (F_arguments s ++ [mkSILArgument ty decl]) s).

(** An instruction that defines a value of type [ty]. *)
Definition createValue (i : SILInstruction) (ty : SILType) : M SILValue :=
  fun s =>
    Ok (mkSILValue (InstructionResult (length (B s))) ty, with_B (B s ++ [i]) s).

(** An instruction that defines no value. *)
Definition createInst (i : SILInstruction) : M unit :=
  fun s => Ok (tt, with_B (B s ++ [i]) s).

Definition createDebugValue (v : SILValue) (var : SILDebugVariable) : M unit :=
  createInst (DebugValueInst v var).
Definition createDebugValueAddr (v : SILValue) (var : SILDebugVariable) : M unit :=
  createInst (DebugValueAddrInst v var).
Definition createCopyValue (v : SILValue) : M SILValue :=
  createValue (CopyValueInst v) (getValueType v).
Definition createCopyBlock (v : SILValue) : M SILValue :=
  createValue (CopyBlockInst v) (getValueType v).
Definition createTuple (ty : SILType) (elements : list SILValue) : M SILValue :=
  createValue (TupleInst ty elements) ty.
Definition createTupleElementAddr (buffer : SILValue) (i : nat) (ty : SILType) : M SILValue :=
  createValue (TupleElementAddrInst buffer i ty) ty.
Definition createProjectBox (b : SILValue) (i : nat) (ty : SILType) : M SILValue :=
  createValue (ProjectBoxInst b i) ty.
Definition createUncheckedBitCast (v : SILValue) (ty : SILType) : M SILValue :=
  createValue (UncheckedBitCastInst v ty) ty.
Definition emitDestroyValueOperation (v : SILValue) : M unit :=
  createInst (DestroyValueInst v).

(** [Cleanups.pushCleanup<...>(...)]: the handle of a cleanup is its depth
    in the stack. *)
Definition pushCleanup (k : CleanupKind) : M CleanupHandle :=
  fun s => Ok (length (Cleanups s), with_Cleanups (Cleanups s ++ [mkCleanup k Active]) s).

(** Modelled from the spec: [enterDestroyCleanup] is not in this file; it
    registers "a deferred release action bound to ... a resource reference",
    in state active. *)
Definition enterDestroyCleanup (v : SILValue) : M CleanupHandle :=
  pushCleanup (DestroyValueCleanup v).

(** Modelled from the spec: [emitManagedRValueWithCleanup] is not in this
    file; for an owned value the resolver must "attach a release cleanup
    directly (no extra retain)". *)
Definition emitManagedRValueWithCleanup (v : SILValue) : M ManagedValue :=
  do h <- enterDestroyCleanup v;
  ret (mkManagedValue v false (Some h)).

(** Modelled from the spec: [emitManagedRetain] is not in this file; for an
    unowned value "the resolver must immediately retain it and attach a
    release cleanup".  The retain is a [copy_value], whose result is the
    value that is managed. *)
Definition emitManagedRetain (loc : SILLocation) (v : SILValue) : M ManagedValue :=
  do copy <- createCopyValue v;
  emitManagedRValueWithCleanup copy.

(** [VarLocs[vd] = loc] *)
Definition setVarLoc (vd : VarDecl) (l : VarLoc) : M unit :=
  fun s => Ok (tt, with_VarLocs (<[declID vd := l]> (VarLocs s)) s).

(** A cleanup that leaves the active state without firing. *)
Definition kill (c : Cleanup) : Cleanup := mkCleanup (getKind c) Dead.

(** Modelled from the spec: [ManagedValue::forward] and the
    [forwardCleanup] under it are not in this file; "forwarding clears the
    cleanup handle": the cleanup is killed, and the bare value is handed
    on. *)
Definition forwardCleanup (h : CleanupHandle) : M unit :=
  fun s => Ok (tt, with_Cleanups (alter kill h (Cleanups s)) s).

Definition forward (mv : ManagedValue) : M SILValue :=
  match getCleanup mv with
  | Some h => run forwardCleanup h; ret (getValue mv)
  | None => ret (getValue mv)
  end.

(** Modelled from the spec: [ManagedValue::copyUnmanaged] is not in this
    file; a borrowed element is "defensively copied", and the copy is an
    owned value with its own release cleanup. *)
Definition copyUnmanaged (mv : ManagedValue) : M ManagedValue :=
  do copy <- createCopyValue (getValue mv);
  emitManagedRValueWithCleanup copy.

(** Modelled from the spec: [ManagedValue::forwardInto] is not in this file;
    the element is "forwarded-into" its slot of the buffer. *)
Definition forwardInto (mv : ManagedValue) (address : SILValue) : M unit :=
  do v <- forward mv;
  if isAddress (getValueType v)
  then createInst (CopyAddrInst v address true true)
  else createInst (StoreInst v address).

(** Modelled from the spec: [ManagedValue::copyInto] is not in this file;
    the element is "copied-into" its slot of the buffer, and the original
    stays where it is. *)
Definition copyInto (mv : ManagedValue) (address : SILValue) : M unit :=
  if isAddress (getValueType (getValue mv))
  then createInst (CopyAddrInst (getValue mv) address false true)
  else
    do copy <- createCopyValue (getValue mv);
    createInst (StoreInst copy address).

(** Modelled from the spec: [emitTemporaryAllocation] is not in this file; it
    gives "a freshly allocated stack buffer", an [alloc_stack] whose result
    is the address of the buffer. *)
Definition emitTemporaryAllocation (ty : SILType) : M SILValue :=
  createValue (AllocStackInst (mkSILType (getSwiftRValueType ty) Object) 0)
              (getAddressType ty).

(** [Cleanup::emit] of the two kinds of cleanup: [StrongReleaseCleanup::emit]
    is lines 63-65; the destroy cleanup is not in this file, it releases
    the value it was entered for.  A dead cleanup emits nothing. *)
Definition emitCleanup (c : Cleanup) : M unit :=
  match getState c with
  | Dead => ret tt
  | Active =>
      match getKind c with
      | DestroyValueCleanup v => emitDestroyValueOperation v
      | StrongReleaseCleanup b => emitDestroyValueOperation b
      end
  end.

Fixpoint emitCleanups (cs : list Cleanup) : M unit :=
  match cs with
  | [] => ret tt
  | c :: rest => run emitCleanup c; emitCleanups rest
  end.

(** Modelled from the spec: [Scope] is not in this file.  Opening a scope
    records the depth of the cleanup stack; "closing a scope pops and fires
    all cleanups registered since the matching open, in strict reverse
    order". *)
Definition openScope : M nat :=
  fun s => Ok (length (Cleanups s), s).

Definition popScope (depth : nat) : M unit :=
  fun s =>
    emitCleanups (rev (drop depth (Cleanups s)))
                 (with_Cleanups (take depth (Cleanups s)) s).

(** A loop over a list that threads the loop-carried state. *)
Section Loop.
Context {A S : Type}.
Variable body : A -> S -> M S.
Fixpoint forEach (l : list A) (acc : S) : M S :=
  match l with
  | [] => ret acc
  | x :: rest => do acc <- body x acc; forEach rest acc
  end.
End Loop.

Section SILGen.

Variable SGM : SILGenModule.

(** ** EmitBBArguments *)

Section EmitBBArguments.

Variable loc : SILLocation.
Variable functionArgs : bool.

(** [EmitBBArguments::getManagedValue] (lines 94-125) *)
Definition getManagedValue (arg : SILValue) (t : CanType)
    (parameterInfo : SILParameterInfo) : M ManagedValue :=
  match getConvention parameterInfo with
  | Direct_Guaranteed
  | Indirect_In_Guaranteed =>
      ret (forUnmanaged arg)
  | Direct_Unowned =>
      emitManagedRetain loc arg
  | Indirect_Inout
  | Indirect_InoutAliasable =>
      ret (forLValue arg)
  | Direct_Owned
  | Indirect_In =>
      emitManagedRValueWithCleanup arg
  | Indirect_In_Constant =>
      abort BadParameterConvention
  end.

(** [parameters.front()] followed by [parameters.slice(1)] *)
Definition popParameterInfo (parameters : list SILParameterInfo)
    : M (SILParameterInfo * list SILParameterInfo) :=
  match parameters with
  | [] => abort NoParameterInfo
  | parameterInfo :: rest => ret (parameterInfo, rest)
  end.

(** [EmitBBArguments::visitType] (lines 127-157).  The queue [parameters],
    held by reference in the source, is passed in and handed back. *)
Definition visitType (t : CanType) (parameters : list SILParameterInfo)
    : M (ManagedValue * list SILParameterInfo) :=
  let argType := getLoweredType SGM t in
  do '(parameterInfo, parameters) <- popParameterInfo parameters;
  run assert (SILType_eqb argType
                (mapSILTypeIntoContext SGM (getSILType SGM parameterInfo)))
             ArgumentTypeMismatch;
  do arg <- createFunctionArgument argType loc;
  do mv <- getManagedValue arg t parameterInfo;
  let objectType :=
    match getAnyOptionalObjectType t with
    | Some theObjTy => theObjTy
    | None => t
    end in
  if functionArgs && isBlockFunctionType objectType
  then
    do blockCopy <- createCopyBlock (getValue mv);
    do mv <- emitManagedRValueWithCleanup blockCopy;
    ret (mv, parameters)
  else ret (mv, parameters).

(** The second loop of the loadable branch of [visitTupleType] (lines
    183-188). *)
Fixpoint forwardOrCopyElements (elements : list ManagedValue) : M (list SILValue) :=
  match elements with
  | [] => ret []
  | element :: rest =>
      do value <-
        (if hasCleanup element
         then forward element
         else do copy <- copyUnmanaged element; forward copy);
      do elementValues <- forwardOrCopyElements rest;
      ret (value :: elementValues)
  end.

(** The loop of the address-only branch of [visitTupleType] (lines
    201-209), from index [i] on. *)
Fixpoint storeElements (buffer : SILValue) (i : nat) (elements : list ManagedValue)
    : M unit :=
  match elements with
  | [] => ret tt
  | element :: rest =>
      do elementBuffer <-
        createTupleElementAddr buffer i
          (getAddressType (getValueType (getValue element)));
      run (if hasCleanup element
           then forwardInto element elementBuffer
           else copyInto element elementBuffer);
      storeElements buffer (S i) rest
  end.

(** [visitTupleType] after its elements are collected (lines 175-211). *)
Definition reassembleTuple (tl : TypeLowering.t) (elements : list ManagedValue)
    (canBeGuaranteed : bool) : M ManagedValue :=
  if TypeLowering.isLoadable tl || negb (useLoweredAddresses SGM)
  then
    do elementValues <-
      (if canBeGuaranteed
       then ret (map getUnmanagedValue elements)
       else forwardOrCopyElements elements);
    do tupleValue <- createTuple (TypeLowering.getLoweredType tl) elementValues;
    if canBeGuaranteed
    then ret (forUnmanaged tupleValue)
    else emitManagedRValueWithCleanup tupleValue
  else
    do buffer <- emitTemporaryAllocation (TypeLowering.getLoweredType tl);
    run storeElements buffer 0 elements;
    emitManagedRValueWithCleanup buffer.

Section Visitor.

Variable visit : CanType -> list SILParameterInfo -> M (ManagedValue * list SILParameterInfo).

(** The first loop of [visitTupleType] (lines 166-173). *)
Fixpoint collectElements (fieldTypes : list CanType) (elements : list ManagedValue)
    (canBeGuaranteed : bool) (parameters : list SILParameterInfo)
    : M (list ManagedValue * bool * list SILParameterInfo) :=
  match fieldTypes with
  | [] => ret (elements, canBeGuaranteed, parameters)
  | fieldType :: rest =>
      do '(elt, parameters) <- visit fieldType parameters;
      collectElements rest (elements ++ [elt])
        (if hasCleanup elt then false else canBeGuaranteed) parameters
  end.

(** [EmitBBArguments::visitTupleType] (lines 159-212) *)
Definition visitTupleType (t : CanType) (elementTypes : list CanType)
    (parameters : list SILParameterInfo) : M (ManagedValue * list SILParameterInfo) :=
  let tl := getTypeLowering SGM t in
  let canBeGuaranteed := TypeLowering.isLoadable tl in
  do '(elements, canBeGuaranteed, parameters) <-
    collectElements elementTypes [] canBeGuaranteed parameters;
  do mv <- reassembleTuple tl elements canBeGuaranteed;
  ret (mv, parameters).

End Visitor.

(** [CanTypeVisitor::visit]: a tuple type goes to [visitTupleType], every
    other type to [visitType]. *)
Fixpoint visit (t : CanType) : list SILParameterInfo -> M (ManagedValue * list SILParameterInfo) :=
  match t with
  | TupleType elementTypes => visitTupleType visit t elementTypes
  | _ => visitType t
  end.

End EmitBBArguments.

End SILGen.

(** ** ArgumentInitHelper *)

Definition isBuiltinUnsafeValueBufferType (t : CanType) : bool :=
  match t with
  | BuiltinUnsafeValueBufferType => true
  | _ => false
  end.

Definition isDynamicSelfType (t : CanType) : bool :=
  match t with
  | DynamicSelfType _ => true
  | _ => false
  end.

(** [SILDebugVariable(bool Constant, unsigned ArgNo)] *)
Definition debugVariable (constant : bool) (argNo : nat) : SILDebugVariable :=
  mkSILDebugVariable EmptyString constant argNo.

(** [VarLoc::get(value, box)] *)
Definition VarLoc_get (v : SILValue) (b : option SILValue) : VarLoc := mkVarLoc v b.

Module ArgumentInitHelper.

Section Helper.

Variable SGM : SILGenModule.

(** The members of the helper that change: the queue of parameter infos,
    sliced off the front as they are emitted, and [ArgNo]. *)
Record t := mk {
  parameters : list SILParameterInfo;
  getNumArgs : nat
}.

(** [ArgumentInitHelper::makeArgument] (lines 238-245) *)
Definition makeArgument (ty : CanType) (l : SILLocation)
    (parameters : list SILParameterInfo) : M (ManagedValue * list SILParameterInfo) :=
  let canTy := getCanonicalType SGM (eraseDynamicSelfType SGM ty) in
  visit SGM l true canTy parameters.

(** [ArgumentInitHelper::makeArgumentIntoBinding] (lines 249-295) *)
Definition makeArgumentIntoBinding (ty : CanType) (vd : VarDecl) (this : t) : M t :=
  let loc := Some (SourceDecl vd) in
  let ArgNo := getNumArgs this in
  do '(argrv, parameters) <- makeArgument ty loc (parameters this);
  let bindValue (argrv : ManagedValue) : M t :=
    run setVarLoc vd (VarLoc_get (getValue argrv) None);
    run (if isAddress (getValueType (getValue argrv))
         then createDebugValueAddr (getValue argrv) (debugVariable (isLet vd) ArgNo)
         else createDebugValue (getValue argrv) (debugVariable (isLet vd) ArgNo));
    ret (mk parameters ArgNo) in
  if isInOut vd
  then
    let address := getUnmanagedValue argrv in
    let objectType := getCanonicalType SGM (getInOutObjectType (getType vd)) in
    if isBuiltinUnsafeValueBufferType objectType
    then
      run setVarLoc vd (VarLoc_get address None);
      run createDebugValueAddr address (debugVariable (isLet vd) ArgNo);
      ret (mk parameters ArgNo)
    else
      run assert (isAddress (getValueType (getValue argrv))) ExpectedInOutAddress;
      bindValue argrv
  else
    match ty with
    | MetatypeType instanceType =>
        if isDynamicSelfType instanceType
        then
          let loweredTy := getLoweredType SGM ty in
          if negb (SILType_eqb loweredTy (getValueType (getValue argrv)))
          then
            do cast <- createUncheckedBitCast (getValue argrv) loweredTy;
            bindValue (forUnmanaged cast)
          else bindValue argrv
        else bindValue argrv
    | _ =>
        run assert (isLet vd || isShared vd) ExpectedImmutableParameter;
        bindValue argrv
    end.

(** [ArgumentInitHelper::emitAnonymousParam] from the discard scope on
    (lines 320-335). *)
Definition emitDiscardedParam (type : CanType) (paramLoc : SILLocation)
    (PD : option VarDecl) (ArgNo : nat) (parameters : list SILParameterInfo)
    : M (list SILParameterInfo) :=
  do discardScope <- openScope;
  do '(argrv, parameters) <- makeArgument type paramLoc parameters;
  match PD with
  | None =>
      run popScope discardScope;
      ret parameters
  | Some PD =>
      run (if isAddress (getValueType (getValue argrv))
           then createDebugValueAddr (getValue argrv) (debugVariable (isLet PD) ArgNo)
           else createDebugValue (getValue argrv) (debugVariable (isLet PD) ArgNo));
      run popScope discardScope;
      ret parameters
  end.

(** [ArgumentInitHelper::emitAnonymousParam] (lines 309-336) *)
Fixpoint emitAnonymousParam (type : CanType) (paramLoc : SILLocation)
    (PD : option VarDecl) (ArgNo : nat) (parameters : list SILParameterInfo)
    : M (list SILParameterInfo) :=
  match type with
  | TupleType elementTypes =>
      if negb (isMaterializable SGM type)
      then
        forEach (fun eltType => emitAnonymousParam eltType paramLoc None ArgNo)
                elementTypes parameters
      else emitDiscardedParam type paramLoc PD ArgNo parameters
  | _ => emitDiscardedParam type paramLoc PD ArgNo parameters
  end.

(** [ArgumentInitHelper::emitParam] (lines 297-307) *)
Definition emitParam (PD : VarDecl) (this : t) : M t :=
  let type := getType PD in
  let this := mk (parameters this) (S (getNumArgs this)) in
  if hasName PD
  then makeArgumentIntoBinding type PD this
  else
    do parameters <-
      emitAnonymousParam type (Some (SourceDecl PD)) (Some PD)
                         (getNumArgs this) (parameters this);
    ret (mk parameters (getNumArgs this)).

End Helper.

End ArgumentInitHelper.

Section Prolog.

Variable SGM : SILGenModule.

(** ** Forwarding of parameters *)

(** the static [makeArgument] (lines 341-354) *)
Fixpoint makeArgument (ty : CanType) (decl : VarDecl) (args : list SILValue)
    : M (list SILValue) :=
  match ty with
  | TupleType elementTypes =>
      forEach (fun fieldType => makeArgument fieldType decl) elementTypes args
  | _ =>
      do arg <- createFunctionArgument (getLoweredType SGM ty) (Some (SourceDecl decl));
      ret (args ++ [arg])
  end.

(** [SILGenFunction::bindParametersForForwarding] (lines 357-365) *)
Definition bindParametersForForwarding (params : list VarDecl)
    (parameters : list SILValue) : M (list SILValue) :=
  forEach
    (fun param =>
       let type :=
         if hasType param
         then getType param
         else mapTypeIntoContext SGM (getInterfaceType param) in
       makeArgument (eraseDynamicSelfType SGM type) param)
    params parameters.

(** ** Captures *)

(** [dyn_cast<AllocStackInst>(val)] followed by [setArgNo(ArgNo)]: when the
    value is defined by an [alloc_stack], that instruction gets the argument
    number, and the answer is [true]. *)
Definition setArgNoOfAllocStack (val : SILValue) (ArgNo : nat) : M bool :=
  fun s =>
    match getDef val with
    | InstructionResult i =>
        match B s !! i with
        | Some (AllocStackInst ty _) =>
            Ok (true, with_B (<[i := AllocStackInst ty ArgNo]> (B s)) s)
        | _ => Ok (false, s)
        end
    | _ => Ok (false, s)
    end.

(** [emitCaptureArguments] (lines 367-451) *)
Definition emitCaptureArguments (closure : AnyFunctionRef) (capture : CapturedValue)
    (ArgNo : nat) : M unit :=
  let VD := getCapturedDecl capture in
  let getVarTypeInCaptureContext := mapTypeIntoContext SGM (getInterfaceType VD) in
  match getDeclCaptureKind SGM capture with
  | CaptureKind.None => ret tt
  | CaptureKind.Constant =>
      let type := getVarTypeInCaptureContext in
      let lowering := getTypeLowering SGM type in
      let ty := TypeLowering.getLoweredType lowering in
      do val <- createFunctionArgument ty (Some (SourceDecl VD));
      let NeedToDestroyValueAtExit := negb (EnableGuaranteedClosureContexts SGM) in
      do '(val, NeedToDestroyValueAtExit) <-
        (if isSettable VD
         then
           do addr <- emitTemporaryAllocation ty;
           do '(val, NeedToDestroyValueAtExit) <-
             (if EnableGuaranteedClosureContexts SGM
              then do copy <- createCopyValue val; ret (copy, true)
              else ret (val, NeedToDestroyValueAtExit));
           run createInst (StoreInst val addr);
           ret (addr, NeedToDestroyValueAtExit)
         else ret (val, NeedToDestroyValueAtExit));
      run setVarLoc VD (VarLoc_get val None);
      do isAllocStack <- setArgNoOfAllocStack val ArgNo;
      run (if isAllocStack
           then ret tt
           else createDebugValue val (debugVariable true ArgNo));
      if NeedToDestroyValueAtExit && negb (TypeLowering.isTrivial lowering)
      then do h <- enterDestroyCleanup val; ret tt
      else ret tt
  | CaptureKind.Box =>
      let type := getVarTypeInCaptureContext in
      let boxTy :=
        getContextBoxTypeForCapture SGM VD
          (getSwiftRValueType (getLoweredType SGM type)) in
      do box <- createFunctionArgument (getPrimitiveObjectType boxTy)
                                       (Some (SourceDecl VD));
      do addr <- createProjectBox box 0 (getAddressType (getLoweredType SGM type));
      run setVarLoc VD (VarLoc_get addr (Some box));
      run createDebugValueAddr addr (debugVariable false ArgNo);
      if negb (EnableGuaranteedClosureContexts SGM)
      then do h <- pushCleanup (StrongReleaseCleanup box); ret tt
      else ret tt
  | CaptureKind.StorageAddress =>
      let type := getVarTypeInCaptureContext in
      let ty := getAddressType (getLoweredType SGM type) in
      do addr <- createFunctionArgument ty (Some (SourceDecl VD));
      run setVarLoc VD (VarLoc_get addr None);
      createDebugValueAddr addr (debugVariable true ArgNo)
  end.

(** ** The prologue *)

(** [emitIndirectResultParameters] (lines 477-506) *)
Fixpoint emitIndirectResultParameters (resultType : CanType) (_ : unit) : M unit :=
  match resultType with
  | TupleType elementTypes =>
      forEach emitIndirectResultParameters elementTypes tt
  | _ =>
      let resultTI := getTypeLowering SGM (mapTypeIntoContext SGM resultType) in
      if negb (isReturnedIndirectlyInSIL SGM (TypeLowering.getLoweredType resultTI))
      then ret tt
      else
        let var := ReturnValueDecl resultType in
        do arg <- createFunctionArgument (TypeLowering.getLoweredType resultTI) (Some var);
        ret tt
  end.

(** Modelled from the spec: [emitUndef] is not in this file; the marker of
    the error slot is a placeholder with "no real argument materialized for
    it": an undefined value of the type, unmanaged. *)
Definition emitUndef (ty : SILType) : ManagedValue :=
  forUnmanaged (mkSILValue Undef ty).

(** [SILGenFunction::emitProlog(ArrayRef<ParameterList*>, Type, DeclContext*,
    bool)] (lines 508-542) *)
Definition emitProlog (paramLists : list (list VarDecl)) (resultType : CanType)
    (throws : bool) : M nat :=
  let resultType := getCanonicalTypeInSignature SGM resultType in
  run emitIndirectResultParameters resultType tt;
  do emitter <- (fun s => Ok (ArgumentInitHelper.mk (F_parameters s) 0, s));
  do emitter <-
    forEach (fun paramList => forEach (ArgumentInitHelper.emitParam SGM) paramList)
            (rev paramLists) emitter;
  let ArgNo := ArgumentInitHelper.getNumArgs emitter in
  if throws
  then
    let NativeErrorTy := getExceptionType SGM in
    let Undef := emitUndef NativeErrorTy in
    let ArgNo := S ArgNo in
    run createDebugValue (getValue Undef) (mkSILDebugVariable "$error"%string false ArgNo);
    ret ArgNo
  else ret ArgNo.

(** The loop over the captures of
    [SILGenFunction::emitProlog(AnyFunctionRef, ...)] (lines 462-474). *)
Fixpoint emitCaptures (TheClosure : AnyFunctionRef) (captureInfo : CaptureInfo)
    (captures : list CapturedValue) (ArgNo : nat) : M unit :=
  match captures with
  | [] => ret tt
  | capture :: rest =>
      if isDynamicSelfMetadata capture
      then
        let selfMetatype := MetatypeType (getDynamicSelfType captureInfo) in
        let ty := getLoweredType SGM selfMetatype in
        do val <- createFunctionArgument ty None;
        ret tt
      else
        let ArgNo := S ArgNo in
        run emitCaptureArguments TheClosure capture ArgNo;
        emitCaptures TheClosure captureInfo rest ArgNo
  end.

(** [SILGenFunction::emitProlog(AnyFunctionRef, ArrayRef<ParameterList*>,
    Type, bool)] (lines 453-475) *)
Definition emitPrologOfClosure (TheClosure : AnyFunctionRef)
    (paramPatterns : list (list VarDecl)) (resultType : CanType) (throws : bool)
    : M unit :=
  do ArgNo <- emitProlog paramPatterns resultType throws;
  let captureInfo := getLoweredLocalCaptures SGM TheClosure in
  emitCaptures TheClosure captureInfo (getCaptures captureInfo) ArgNo.

End Prolog.

(** ** The self argument *)

Section SelfDecl.

(** [SILGenFunction::getLoweredLoadableType] is not in this file; the
    lowering it gives is taken as given. *)
Variable getLoweredLoadableType : CanType -> SILType.

(** [SILGenFunction::emitSelfDecl] (lines 24-34) *)
Definition emitSelfDecl (selfDecl : VarDecl) : M SILValue :=
  let selfType := getLoweredLoadableType (getType selfDecl) in
  do selfValue <- createFunctionArgument selfType (Some (SourceDecl selfDecl));
  run setVarLoc selfDecl (VarLoc_get selfValue None);
  let ArgNo := 1 in
  run createDebugValue selfValue (debugVariable (isLet selfDecl) ArgNo);
  ret selfValue.

End SelfDecl.

(** ** A sample module

    A small concrete module, on which the properties below are exercised:
    [Int] is trivial, [Reference] is a class reference (loadable, not
    trivial), [Existential] is address-only; a tuple is loadable when all
    its elements are, and trivial when all its elements are. *)
Module Sample.

Definition Int : CanType := NominalType 0.
Definition Reference : CanType := NominalType 1.
Definition Existential : CanType := NominalType 2.
Definition Error : CanType := NominalType 3.

Fixpoint isLoadableType (t : CanType) : bool :=
  match t with
  | NominalType 2 => false
  | TupleType elts => forallb isLoadableType elts
  | _ => true
  end.

Fixpoint isTrivialType (t : CanType) : bool :=
  match t with
  | NominalType 0 => true
  | MetatypeType _ => true
  | TupleType elts => forallb isTrivialType elts
  | _ => false
  end.

(** The lowering of a type: an inout type is lowered to the address of its
    object type, an address-only type to an address when addresses are
    lowered. *)
Definition lowering (loweredAddresses : bool) (t : CanType) : TypeLowering.t :=
  match t with
  | InOutType o => TypeLowering.mk (mkSILType o Address) true true
  | _ =>
      TypeLowering.mk
        (mkSILType t (if isLoadableType t || negb loweredAddresses
                      then Object else Address))
        (isLoadableType t) (isTrivialType t)
  end.

Definition isIndirect (c : ParameterConvention) : bool :=
  match c with
  | Indirect_In | Indirect_In_Constant | Indirect_In_Guaranteed
  | Indirect_Inout | Indirect_InoutAliasable => true
  | _ => false
  end.

Fixpoint hasInOut (t : CanType) : bool :=
  match t with
  | InOutType _ => true
  | TupleType elts => existsb hasInOut elts
  | _ => false
  end.

Fixpoint eraseDynamicSelf (t : CanType) : CanType :=
  match t with
  | DynamicSelfType selfType => eraseDynamicSelf selfType
  | OptionalType o => OptionalType (eraseDynamicSelf o)
  | MetatypeType i => MetatypeType (eraseDynamicSelf i)
  | InOutType o => InOutType (eraseDynamicSelf o)
  | TupleType elts => TupleType (map eraseDynamicSelf elts)
  | _ => t
  end.

Definition SGM (guaranteedClosureContexts loweredAddresses : bool)
    (captureKind : CapturedValue -> CaptureKind.t) (captures : CaptureInfo)
    : SILGenModule :=
  {| getTypeLowering := lowering loweredAddresses;
     getDeclCaptureKind := captureKind;
     getContextBoxTypeForCapture := fun _ t => t;
     getLoweredLocalCaptures := fun _ => captures;
     EnableGuaranteedClosureContexts := guaranteedClosureContexts;
     useLoweredAddresses := loweredAddresses;
     isReturnedIndirectlyInSIL := fun ty => loweredAddresses && isAddress ty;
     getExceptionType := mkSILType Error Object;
     getSILType :=
       fun p => mkSILType (getParameterType p)
                          (if isIndirect (getConvention p) && loweredAddresses
                           then Address else Object);
     isMaterializable := fun t => negb (hasInOut t);
     eraseDynamicSelfType := eraseDynamicSelf;
     getCanonicalType := fun t => t;
     getCanonicalTypeInSignature := fun t => t;
     mapTypeIntoContext := fun t => t |}.

Definition noCaptures : CaptureInfo := mkCaptureInfo [] Reference.

(** The module with the default options: closure contexts are owned, and
    addresses are lowered. *)
Definition default : SILGenModule :=
  SGM false true (fun _ => CaptureKind.Constant) noCaptures.

(** The state in which the prologue of a function with the given lowered
    parameters starts. *)
Definition start (parameters : list SILParameterInfo) : SILGenFunction :=
  mkSGF parameters [] [] [] ∅.

(** A named [let] parameter of the given type. *)
Definition param (id : nat) (t : CanType) : VarDecl :=
  mkVarDecl id true true false false true t t false.

(** An unnamed parameter of the given type. *)
Definition anonymous (id : nat) (t : CanType) : VarDecl :=
  mkVarDecl id false true false false true t t false.

(** A captured variable of the given type; [settable] says whether it is
    mutable in its defining scope. *)
Definition captured (id : nat) (t : CanType) (settable : bool) : CapturedValue :=
  mkCapturedValue (mkVarDecl id true (negb settable) false false true t t settable) false.

(** The capture record of the dynamic-self-type metadata. *)
Definition dynamicSelf : CapturedValue :=
  mkCapturedValue (mkVarDecl 0 false true false false false Reference Reference false)
                  true.

(** The module of a closure with the given captures, all captured by
    value. *)
Definition closure (captures : list CapturedValue) : SILGenModule :=
  SGM false true (fun _ => CaptureKind.Constant) (mkCaptureInfo captures Reference).

End Sample.

(** ** Notions used to state the properties *)

(** The value a cleanup releases. *)
Definition cleanupValue (c : Cleanup) : SILValue :=
  match getKind c with
  | DestroyValueCleanup v => v
  | StrongReleaseCleanup b => b
  end.

Definition isActive (c : Cleanup) : bool :=
  match getState c with
  | Active => true
  | Dead => false
  end.

(** The number of cleanups that are still to fire. *)
Definition countActive (cs : list Cleanup) : nat :=
  length (List.filter isActive cs).

(** The release cleanup of [v], pending. *)
Definition releaseOf (v : SILValue) : Cleanup :=
  mkCleanup (DestroyValueCleanup v) Active.

(** [v] is none of the first [n] arguments of the entry block. *)
Definition notAmongFirst (n : nat) (v : SILValue) : Prop :=
  match getDef v with
  | FunctionArgument i => n <= i
  | _ => True
  end.

(** The argument number an instruction shows to the debugger, when it shows
    one: that of a [debug_value], of a [debug_value_addr], and of an
    [alloc_stack] that was given one. *)
Definition debugOrdinal (i : SILInstruction) : option nat :=
  match i with
  | DebugValueInst _ var => Some (ArgNo var)
  | DebugValueAddrInst _ var => Some (ArgNo var)
  | AllocStackInst _ (S n) => Some (S n)
  | _ => None
  end.

Definition debugOrdinals (insts : list SILInstruction) : list nat :=
  omap debugOrdinal insts.

(** A parameter info that [visitType] accepts for a leaf: it names the
    lowered type of the leaf, and its convention is not the reserved one. *)
Definition compatible (SGM : SILGenModule) (leaf : CanType)
    (parameterInfo : SILParameterInfo) : Prop :=
  SILType_eqb (getLoweredType SGM leaf)
              (mapSILTypeIntoContext SGM (getSILType SGM parameterInfo)) = true
  /\ getConvention parameterInfo <> Indirect_In_Constant.

(** The entry-block argument [visitType] creates for a leaf. *)
Definition leafArgument (SGM : SILGenModule) (loc : SILLocation) (leaf : CanType)
    : SILArgument :=
  mkSILArgument (getLoweredType SGM leaf) loc.

(** The cleanup stack after the cleanups of the handles [hs] were
    forwarded. *)
Definition killAll (hs : list CleanupHandle) (cs : list Cleanup) : list Cleanup :=
  foldl (fun cs h => alter kill h cs) cs hs.

(** The cleanup handles that a list of managed values carries. *)
Definition handles (elements : list ManagedValue) : list CleanupHandle :=
  omap getCleanup elements.

(** What a successful [visit] of a type with leaves [lvs] does to the
    generator state and to the queue of parameter infos. *)
Record Visited (SGM : SILGenModule) (loc : SILLocation) (lvs : list CanType)
    (ps : list SILParameterInfo) (s : SILGenFunction)
    (mv : ManagedValue) (ps' : list SILParameterInfo) (s' : SILGenFunction) : Prop := {
  visited_parameters : F_parameters s' = F_parameters s;
  visited_VarLocs : VarLocs s' = VarLocs s;
  visited_arguments :
    F_arguments s' = F_arguments s ++ map (leafArgument SGM loc) lvs;
  visited_consumed :
    exists consumed, ps = consumed ++ ps' /\ Forall2 (compatible SGM) lvs consumed;
  visited_B : exists newB, B s' = B s ++ newB /\ debugOrdinals newB = [];
  visited_Cleanups :
    exists newC, Cleanups s' = Cleanups s ++ newC
      /\ Forall (fun c => notAmongFirst (length (F_arguments s)) (cleanupValue c)) newC;
  visited_handle :
    forall h, getCleanup mv = Some h ->
      length (Cleanups s) <= h /\ Cleanups s' !! h = Some (releaseOf (getValue mv))
}.

(** [v] is the result of a [copy_value] of [src] in [insts]. *)
Definition copyOf (insts : list SILInstruction) (src v : SILValue) : Prop :=
  exists j, v = mkSILValue (InstructionResult j) (getValueType src)
            /\ insts !! j = Some (CopyValueInst src).

Definition deadCopyCleanup (c : Cleanup) : Prop :=
  isActive c = false /\ forall n, notAmongFirst n (cleanupValue c).

(** Element [e] was written to slot [i] of [buffer]: the address of the slot
    is projected, and the value of the element (when it is forwarded) or a
    copy of it (when it is borrowed) is stored there. *)
Definition storedAt (insts : list SILInstruction) (buffer : SILValue) (i : nat)
    (e : ManagedValue) : Prop :=
  exists j,
    let v := getValue e in
    let slotTy := getAddressType (getValueType v) in
    let slot := mkSILValue (InstructionResult j) slotTy in
    insts !! j = Some (TupleElementAddrInst buffer i slotTy)
    /\ if hasCleanup e
       then insts !! S j
            = Some (if isAddress (getValueType v)
                    then CopyAddrInst v slot true true
                    else StoreInst v slot)
       else if isAddress (getValueType v)
            then insts !! S j = Some (CopyAddrInst v slot false true)
            else insts !! S j = Some (CopyValueInst v)
                 /\ insts !! S (S j)
                    = Some (StoreInst (mkSILValue (InstructionResult (S j))
                                                  (getValueType v)) slot).

(** A managed value whose cleanup, when it has one, is pending in the stack
    [cs], at depth [base] or above, and releases this value. *)
Definition owned (base : nat) (cs : list Cleanup) (e : ManagedValue) : Prop :=
  forall h, getCleanup e = Some h ->
    base <= h /\ cs !! h = Some (releaseOf (getValue e)).

Definition elementsOwned (base : nat) (cs : list Cleanup)
    (elements : list ManagedValue) : Prop :=
  NoDup (handles elements) /\ Forall (owned base cs) elements.

Arguments killAll : simpl never.

(** Whether a leaf of the result type is returned through memory. *)
Definition returnedIndirectly (SGM : SILGenModule) (leaf : CanType) : bool :=
  isReturnedIndirectlyInSIL SGM
    (TypeLowering.getLoweredType (getTypeLowering SGM (mapTypeIntoContext SGM leaf))).

(** The entry-block argument synthesized for an indirect result. *)
Definition resultArgument (SGM : SILGenModule) (leaf : CanType) : SILArgument :=
  mkSILArgument
    (TypeLowering.getLoweredType (getTypeLowering SGM (mapTypeIntoContext SGM leaf)))
    (Some (ReturnValueDecl leaf)).

Definition indirectResultArguments (SGM : SILGenModule) (resultType : CanType)
    : list SILArgument :=
  map (resultArgument SGM) (List.filter (returnedIndirectly SGM) (leaves resultType)).

(** The values of entry-block arguments created from position [base] on. *)
Definition argumentValues (base : nat) (args : list SILArgument) : list SILValue :=
  imap (fun k a => mkSILValue (FunctionArgument (base + k)) (getArgumentType a)) args.

(** The type [bindParametersForForwarding] flattens for a parameter. *)
Definition forwardingType (SGM : SILGenModule) (param : VarDecl) : CanType :=
  eraseDynamicSelfType SGM
    (if hasType param then getType param
     else mapTypeIntoContext SGM (getInterfaceType param)).

Definition forwardedArguments (SGM : SILGenModule) (param : VarDecl) : list SILArgument :=
  map (leafArgument SGM (Some (SourceDecl param))) (leaves (forwardingType SGM param)).

(** The instructions by which the pending cleanups among [cs] fire, in the
    order of [cs]. *)
Definition fired (cs : list Cleanup) : list SILInstruction :=
  map (fun c => DestroyValueInst (cleanupValue c)) (List.filter isActive cs).

(** The type [ArgumentInitHelper::makeArgument] destructures. *)
Definition argumentType (SGM : SILGenModule) (ty : CanType) : CanType :=
  getCanonicalType SGM (eraseDynamicSelfType SGM ty).

(** The type of the value that [visit] hands back for a type: the lowered
    type of a scalar; for a tuple, the lowered type when the tuple is
    rebuilt as a value, and its address when it is rebuilt in a stack
    buffer. *)
Definition managedType (SGM : SILGenModule) (t : CanType) : SILType :=
  match t with
  | TupleType _ =>
      let tl := getTypeLowering SGM t in
      if TypeLowering.isLoadable tl || negb (useLoweredAddresses SGM)
      then TypeLowering.getLoweredType tl
      else getAddressType (TypeLowering.getLoweredType tl)
  | _ => getLoweredType SGM t
  end.

(** The parts into which [emitAnonymousParam] splits the type of an unnamed
    parameter: a tuple that is not materializable is split into the parts of
    its elements, any other type is one part. *)
Fixpoint anonymousParts (SGM : SILGenModule) (type : CanType) : list CanType :=
  match type with
  | TupleType elementTypes =>
      if negb (isMaterializable SGM type)
      then flat_map (anonymousParts SGM) elementTypes
      else [type]
  | _ => [type]
  end.

Definition anonymousLeaves (SGM : SILGenModule) (type : CanType) : list CanType :=
  flat_map (fun part => leaves (argumentType SGM part)) (anonymousParts SGM type).

(** Whether [emitAnonymousParam] splits the type. *)
Definition isSplit (SGM : SILGenModule) (type : CanType) : bool :=
  match type with
  | TupleType _ => negb (isMaterializable SGM type)
  | _ => false
  end.

(** The debug instruction of a parameter bound to [argrv]. *)
Definition debugValueOf (PD : VarDecl) (argrv : ManagedValue) (argNo : nat)
    : SILInstruction :=
  if isAddress (getValueType (getValue argrv))
  then DebugValueAddrInst (getValue argrv) (debugVariable (isLet PD) argNo)
  else DebugValueInst (getValue argrv) (debugVariable (isLet PD) argNo).

(** The scalar leaves for which [emitParam] creates entry-block arguments. *)
Definition paramLeaves (SGM : SILGenModule) (PD : VarDecl) : list CanType :=
  if hasName PD
  then leaves (argumentType SGM (getType PD))
  else anonymousLeaves SGM (getType PD).

Definition paramArguments (SGM : SILGenModule) (PD : VarDecl) : list SILArgument :=
  map (leafArgument SGM (Some (SourceDecl PD))) (paramLeaves SGM PD).

(** Whether [emitParam] emits a debug instruction for the parameter: not
    for an unnamed parameter whose type is split. *)
Definition showsDebugValue (SGM : SILGenModule) (PD : VarDecl) : bool :=
  hasName PD || negb (isSplit SGM (getType PD)).

(** The argument numbers the parameters show to the debugger, when they
    are emitted after number [n]. *)
Fixpoint paramOrdinals (SGM : SILGenModule) (params : list VarDecl) (n : nat) : list nat :=
  match params with
  | [] => []
  | PD :: rest =>
      (if showsDebugValue SGM PD then [S n] else []) ++ paramOrdinals SGM rest (S n)
  end.

(** The marker of the error slot. *)
Definition errorMarker (SGM : SILGenModule) (ArgNo : nat) : SILInstruction :=
  DebugValueInst (mkSILValue Undef (getExceptionType SGM))
                 (mkSILDebugVariable "$error"%string false ArgNo).

(** What the emission of parameters does to the generator state and to the
    helper: [lvs] are the leaves materialized, [ordinals] the argument
    numbers shown, [k] the number of parameters. *)
Record ParamsEmitted (SGM : SILGenModule) (args : list SILArgument)
    (lvs : list CanType) (ordinals : list nat) (k : nat)
    (this : ArgumentInitHelper.t) (s : SILGenFunction)
    (this' : ArgumentInitHelper.t) (s' : SILGenFunction) : Prop := {
  pe_numArgs : ArgumentInitHelper.getNumArgs this' = ArgumentInitHelper.getNumArgs this + k;
  pe_parameters : F_parameters s' = F_parameters s;
  pe_arguments : F_arguments s' = F_arguments s ++ args;
  pe_consumed :
    exists consumed,
      ArgumentInitHelper.parameters this
      = consumed ++ ArgumentInitHelper.parameters this'
      /\ Forall2 (compatible SGM) lvs consumed;
  pe_B : exists newB, B s' = B s ++ newB /\ debugOrdinals newB = ordinals;
  pe_Cleanups :
    exists newC,
      Cleanups s' = Cleanups s ++ newC
      /\ Forall (fun c => notAmongFirst (length (F_arguments s)) (cleanupValue c)) newC
}.

(** A parameter on which the asserts of [makeArgumentIntoBinding] hold: a
    named inout parameter arrives as an address (unless it is an unsafe value
    buffer), and a named parameter that is neither inout nor a metatype is
    a [let] or is shared.  Nothing is asked of an unnamed parameter. *)
Definition bindable (SGM : SILGenModule) (PD : VarDecl) : bool :=
  negb (hasName PD)
  || if isInOut PD
     then isBuiltinUnsafeValueBufferType
            (getCanonicalType SGM (getInOutObjectType (getType PD)))
          || isAddress (managedType SGM (argumentType SGM (getType PD)))
     else match getType PD with
          | MetatypeType _ => true
          | _ => isLet PD || isShared PD
          end.

Definition materializesArgument (SGM : SILGenModule) (capture : CapturedValue) : bool :=
  match getDeclCaptureKind SGM capture with
  | CaptureKind.None => false
  | _ => true
  end.

(** The number of entry-block arguments the capture loop creates. *)
Fixpoint captureArgumentCount (SGM : SILGenModule) (captures : list CapturedValue) : nat :=
  match captures with
  | [] => 0
  | capture :: rest =>
      if isDynamicSelfMetadata capture then 1
      else (if materializesArgument SGM capture then 1 else 0)
           + captureArgumentCount SGM rest
  end.

(** The argument numbers the capture loop shows to the debugger, when it
    starts after number [n]. *)
Fixpoint captureOrdinals (SGM : SILGenModule) (captures : list CapturedValue) (n : nat)
    : list nat :=
  match captures with
  | [] => []
  | capture :: rest =>
      if isDynamicSelfMetadata capture then []
      else (if materializesArgument SGM capture then [S n] else [])
           ++ captureOrdinals SGM rest (S n)
  end.

Definition isScalarType (t : CanType) : bool :=
  match t with
  | TupleType _ => false
  | _ => true
  end.

(** A parameter for which [emitParam] creates one argument: neither its
    type nor the type that is destructured is a tuple. *)
Definition isScalarParam (SGM : SILGenModule) (PD : VarDecl) : bool :=
  isScalarType (getType PD) && isScalarType (argumentType SGM (getType PD)).

Definition isTupleInst (i : SILInstruction) : bool :=
  match i with
  | TupleInst _ _ => true
  | _ => false
  end.

(** [elements] are what the visitor [v] gives for the types [fieldTypes],
    one after the other: the k-th element is the result of [v] on the k-th
    type, run on the queue and in the state that the types before it have
    left; [ps'] and [s'] are the queue and the state after the last. *)
Fixpoint visitedInOrder
    (v : CanType -> list SILParameterInfo -> M (ManagedValue * list SILParameterInfo))
    (fieldTypes : list CanType) (ps : list SILParameterInfo) (s : SILGenFunction)
    (elements : list ManagedValue) (ps' : list SILParameterInfo) (s' : SILGenFunction)
    : Prop :=
  match fieldTypes, elements with
  | [], [] => ps' = ps /\ s' = s
  | fieldType :: fieldTypes, element :: elements =>
      exists ps1 s1,
        v fieldType ps s = Ok (element, ps1, s1)
        /\ visitedInOrder v fieldTypes ps1 s1 elements ps' s'
  | _, _ => False
  end.

(** [v] is the address of a stack buffer: the result of an [alloc_stack]
    of [insts]. *)
Definition isStackBuffer (insts : list SILInstruction) (v : SILValue) : Prop :=
  exists i ty n,
    getDef v = InstructionResult i /\ insts !! i = Some (AllocStackInst ty n).

(** ** Notions used to state the further properties *)

(** The conventions under which the callee holds a claim on the value, or
    takes one at once: [getManagedValue] hands back a value with a
    cleanup. *)
Definition owns (c : ParameterConvention) : bool :=
  match c with
  | Direct_Owned | Indirect_In | Direct_Unowned => true
  | _ => false
  end.

(** Whether [visitType] copies the value as a block: at a function entry,
    a block function type, or an optional of one. *)
Definition copiedAsBlock (functionArgs : bool) (t : CanType) : bool :=
  functionArgs
  && isBlockFunctionType (match getAnyOptionalObjectType t with
                          | Some theObjTy => theObjTy
                          | None => t
                          end).

(** Every tuple in the type has a loadable lowering. *)
Fixpoint tuplesLoadable (SGM : SILGenModule) (t : CanType) : bool :=
  match t with
  | TupleType elts =>
      TypeLowering.isLoadable (getTypeLowering SGM t)
      && forallb (tuplesLoadable SGM) elts
  | _ => true
  end.

(** The type a parameter info names, in the context of the function. *)
Definition parameterType (SGM : SILGenModule) (parameterInfo : SILParameterInfo)
    : SILType :=
  mapSILTypeIntoContext SGM (getSILType SGM parameterInfo).

(** The keys of [VarLocs] that the parameters write: the declarations of
    the named ones. *)
Definition namedDecls (params : list VarDecl) : list nat :=
  map declID (List.filter hasName params).

(** The argument numbers the closure prologue shows to the debugger. *)
Definition prologOrdinals (SGM : SILGenModule) (params : list VarDecl) (throws : bool)
    (captures : list CapturedValue) : list nat :=
  paramOrdinals SGM params 0
  ++ (if throws then [S (length params)] else [])
  ++ captureOrdinals SGM captures (length params + if throws then 1 else 0).

(** A list of numbers in which a later element is greater than an earlier
    one. *)
Definition strictlyIncreasing (l : list nat) : Prop :=
  forall i j a b, l !! i = Some a -> l !! j = Some b -> i < j -> a < b.

(** What a run of [visit] that stays borrowed does. *)
Definition borrowedRun (SGM : SILGenModule) (loc : SILLocation) (functionArgs : bool)
    (t : CanType) : Prop :=
  forall ps s mv ps' s',
    visit SGM loc functionArgs t ps s = Ok (mv, ps', s') ->
    tuplesLoadable SGM t = true ->
    Forall (fun leaf => copiedAsBlock functionArgs leaf = false) (leaves t) ->
    Forall (fun p => owns (getConvention p) = false) (take (length (leaves t)) ps) ->
    getCleanup mv = None
    /\ Cleanups s' = Cleanups s
    /\ exists newB, B s' = B s ++ newB /\ Forall (fun i => isTupleInst i = true) newB.

(** The argument numbers of capture records by position: the record at
    position [i] has the number [n + i + 1], and shows it when it
    materializes an argument. *)
Definition positionOrdinals (SGM : SILGenModule) (captures : list CapturedValue) (n : nat)
    : list nat :=
  omap id (imap (fun i capture =>
                   if materializesArgument SGM capture then Some (n + S i) else None)
                captures).

(** * Properties *)

(** ** Reasoning about the emission monad *)

Lemma bind_Ok {A C} (m : M A) (k : A -> M C) s r :
  bind m k s = Ok r -> exists a s1, m s = Ok (a, s1) /\ k a s1 = Ok r.
Proof.
  unfold bind. destruct (m s) as [[a s1]|e]; [eauto|discriminate].
Qed.

Lemma bind_Ok_intro {A C} (m : M A) (k : A -> M C) s a s1 :
  m s = Ok (a, s1) -> bind m k s = k a s1.
Proof. unfold bind. intros ->. reflexivity. Qed.

Lemma assert_Ok c e s r : assert c e s = Ok r -> c = true /\ r = (tt, s).
Proof. destruct c; cbn; [intros [= <-]; auto | discriminate]. Qed.

Lemma forEach_app {A S} (body : A -> S -> M S) l1 l2 acc s :
  forEach body (l1 ++ l2) acc s
  = bind (forEach body l1 acc) (forEach body l2) s.
Proof.
  revert acc s. induction l1 as [|x l1 IH]; intros acc s; [reflexivity|].
  cbn [forEach app]. unfold bind in *.
  destruct (body x acc s) as [[acc' s']|e]; [|reflexivity].
  apply IH.
Qed.

Lemma forEach_concat {A S} (body : A -> S -> M S) (ls : list (list A)) : forall acc s,
  forEach (fun l => forEach body l) ls acc s = forEach body (concat ls) acc s.
Proof.
  induction ls as [|l ls IH]; intros acc s; [done|].
  cbn [forEach concat]. rewrite forEach_app. unfold bind.
  destruct (forEach body l acc s) as [[acc' s']|e]; [|done]. apply IH.
Qed.

Lemma forEach_singleton {A S} (body : A -> S -> M S) x acc s :
  forEach body [x] acc s = body x acc s.
Proof. cbn. unfold bind, ret. by destruct (body x acc s) as [[]|]. Qed.



(** ** Cleanup stacks *)

Lemma killAll_cons h hs cs : killAll (h :: hs) cs = killAll hs (alter kill h cs).
Proof. reflexivity. Qed.

Lemma length_killAll hs cs : length (killAll hs cs) = length cs.
Proof.
  revert cs. induction hs as [|h hs IH]; intros cs; [done|]; rewrite killAll_cons.
  by rewrite IH, length_alter.
Qed.

Lemma killAll_app hs cs k :
  Forall (fun h => h < length cs) hs -> killAll hs (cs ++ k) = killAll hs cs ++ k.
Proof.
  revert cs. induction hs as [|h hs IH]; intros cs Hlt; [done|]; rewrite !killAll_cons.
  inversion_clear Hlt as [|? ? Hh Hhs].
  rewrite alter_app_l by done. apply IH.
  by rewrite length_alter.
Qed.

Lemma killAll_lookup_notin hs cs i :
  i ∉ hs -> killAll hs cs !! i = cs !! i.
Proof.
  revert cs. induction hs as [|h hs IH]; intros cs Hi; [done|]; rewrite killAll_cons.
  apply not_elem_of_cons in Hi as [Hne Hi].
  rewrite IH by done. by apply list_lookup_alter_ne.
Qed.

Lemma killAll_lookup_in hs cs i c :
  i ∈ hs -> cs !! i = Some c -> killAll hs cs !! i = Some (kill c).
Proof.
  revert cs c. induction hs as [|h hs IH]; intros cs c Hi Hc; [by inversion Hi|].
  rewrite killAll_cons. destruct (decide (i ∈ hs)) as [Hin|Hnin].
  - destruct (decide (h = i)) as [->|Hne].
    + rewrite (IH (alter kill i cs) (kill c)); [done|done|].
      by rewrite list_lookup_alter_eq, Hc.
    + eapply IH; [done|]. by rewrite list_lookup_alter_ne.
  - apply elem_of_cons in Hi as [->|]; [|done].
    rewrite killAll_lookup_notin by done.
    by rewrite list_lookup_alter_eq, Hc.
Qed.

Lemma map_getKind_alter_kill h cs : map getKind (alter kill h cs) = map getKind cs.
Proof.
  revert h. induction cs as [|c cs IH]; intros [|h]; cbn; try done.
  by rewrite IH.
Qed.

Lemma countActive_app cs k : countActive (cs ++ k) = countActive cs + countActive k.
Proof. unfold countActive. by rewrite List.filter_app, length_app. Qed.

Lemma countActive_alter_kill h cs c :
  cs !! h = Some c -> isActive c = true ->
  countActive (alter kill h cs) + 1 = countActive cs.
Proof.
  unfold countActive.
  revert h. induction cs as [|x cs IH]; intros [|h] Hc Hact; cbn in *; simplify_eq.
  - rewrite Hact. cbn. lia.
  - destruct (isActive x); cbn; rewrite <- (IH h Hc Hact); lia.
Qed.

Lemma countActive_killAll hs cs :
  NoDup hs ->
  Forall (fun h => exists c, cs !! h = Some c /\ isActive c = true) hs ->
  countActive (killAll hs cs) + length hs = countActive cs.
Proof.
  revert cs. induction hs as [|h hs IH]; intros cs Hnd Hact; [apply Nat.add_0_r|]; rewrite killAll_cons; cbn [length].
  inversion_clear Hnd as [|? ? Hnotin Hnd'].
  inversion_clear Hact as [|? ? (c & Hc & Hactive) Hact'].
  pose proof (countActive_alter_kill h cs c Hc Hactive) as H1.
  assert (countActive (killAll hs (alter kill h cs)) + length hs
          = countActive (alter kill h cs)) as H2; [|lia].
  apply IH; [done|].
  rewrite Forall_forall in Hact' |- *. intros i Hi.
  destruct (Hact' i Hi) as (c' & Hc' & ?). exists c'. split; [|done].
  rewrite list_lookup_alter_ne; [done|]. intros ->. done.
Qed.

(** ** Equality of types *)

Lemma FunctionTypeRepresentation_eqb_eq a b :
  FunctionTypeRepresentation_eqb a b = true -> a = b.
Proof. by destruct a, b. Qed.

Lemma CanType_eqb_eq a : forall b, CanType_eqb a b = true -> a = b.
Proof.
  induction a as [i| |a IH|r i|a IH|a IH|a IH|elts IH] using CanType_nested_ind;
    intros [j| |b|r' j|b|b|b|elts'] H; cbn in H; try done.
  - by apply Nat.eqb_eq in H as ->.
  - by rewrite (IH b H).
  - apply andb_true_iff in H as [Hr Hi].
    apply FunctionTypeRepresentation_eqb_eq in Hr as ->.
    by apply Nat.eqb_eq in Hi as ->.
  - by rewrite (IH b H).
  - by rewrite (IH b H).
  - by rewrite (IH b H).
  - f_equal. revert elts' H.
    induction IH as [|x elts Hx _ IHelts]; intros [|y elts'] H; try done.
    apply andb_true_iff in H as [Hxy H].
    f_equal; [by apply Hx|by apply IHelts].
Qed.

Lemma SILType_eqb_eq a b : SILType_eqb a b = true -> a = b.
Proof.
  unfold SILType_eqb. intros [Ht Hc]%andb_true_iff.
  destruct a as [ta ca], b as [tb cb]. cbn in *.
  apply CanType_eqb_eq in Ht as ->. by destruct ca, cb.
Qed.

(** ** Inversion of successful runs *)

Ltac unfold_step H :=
  unfold createDebugValue, createDebugValueAddr, createCopyValue, createCopyBlock,
    createTuple, createTupleElementAddr, createProjectBox, createUncheckedBitCast,
    emitDestroyValueOperation, enterDestroyCleanup, emitManagedRValueWithCleanup,
    emitManagedRetain, getManagedValue, forward, copyUnmanaged, forwardInto, copyInto,
    emitTemporaryAllocation in H.

Ltac unfold_prim H :=
  unfold createFunctionArgument, createValue, createInst, pushCleanup, setVarLoc,
    forwardCleanup, openScope, popParameterInfo in H.

(** Inverts a successful run down to the primitive steps, and computes the
    states in between. *)
Ltac run_inv H :=
  lazymatch type of H with
  | Ok _ = Ok _ => simplify_eq
  | Abort _ = Ok _ => discriminate H
  | bind _ _ _ = Ok _ =>
      let a := fresh "a" in
      let s1 := fresh "s" in
      let E := fresh "E" in
      let K := fresh "K" in
      apply bind_Ok in H as (a & s1 & E & K);
      run_inv E; cbv beta in K; run_inv K
  | assert _ _ _ = Ok _ =>
      let C := fresh "C" in
      apply assert_Ok in H as [C ?]; simplify_eq
  | ret _ _ = Ok _ => unfold ret in H; simplify_eq
  | abort _ _ = Ok _ => discriminate H
  | (match ?x with (_, _) => _ end) _ = Ok _ =>
      destruct x; run_inv H
  | (match ?x with _ => _ end) _ = Ok _ =>
      let C := fresh "C" in
      destruct x eqn:C; run_inv H
  | _ =>
      first [ progress unfold_step H; run_inv H
            | progress unfold_prim H; cbv beta in H; run_inv H
            | idtac ]
  end.

Lemma lookup_snoc_length {A} (l : list A) x n :
  n = length l -> (l ++ [x]) !! n = Some x.
Proof. intros ->. by apply list_lookup_middle. Qed.

(** The new part of a list that only grew. *)
Ltac solve_grown :=
  rewrite <- ?app_assoc;
  first [ eexists; split; [reflexivity|]
        | exists []; split; [by rewrite app_nil_r|] ].

Ltac solve_handle :=
  let h := fresh "h" in
  let Hh := fresh "Hh" in
  intros h Hh; cbn in Hh; simplify_eq;
  split; [rewrite ?length_app; cbn; lia|];
  first [ apply lookup_snoc_length; rewrite ?length_app; cbn; lia
        | done ].

(** ** The ownership convention resolver *)

Section Resolver.

Variable loc : SILLocation.

(** C1.  [getManagedValue] resolves the convention of a scalar leaf as
    follows.  Guaranteed and indirect-guaranteed: the incoming value,
    unmanaged, and nothing is emitted or registered.  Unowned: the incoming
    value is retained at once (one [copy_value] is emitted) and the retained
    value carries a release cleanup, pushed active on the cleanup stack.
    Owned and indirect-in: the incoming value itself carries a release
    cleanup, pushed active on the stack, and no instruction is emitted (no
    extra retain).  InOut and InoutAliasable: the incoming address as an
    lvalue, with no cleanup, and nothing is emitted or registered. *)
Theorem getManagedValue_resolves_convention
    (arg : SILValue) (t : CanType) (parameterInfo : SILParameterInfo)
    (s : SILGenFunction) :
  match getConvention parameterInfo with
  | Direct_Guaranteed | Indirect_In_Guaranteed =>
      getManagedValue loc arg t parameterInfo s = Ok (forUnmanaged arg, s)
      /\ hasCleanup (forUnmanaged arg) = false
  | Direct_Unowned =>
      exists mv s',
        getManagedValue loc arg t parameterInfo s = Ok (mv, s')
        /\ B s' = B s ++ [CopyValueInst arg]
        /\ getValue mv = mkSILValue (InstructionResult (length (B s))) (getValueType arg)
        /\ isLValue mv = false
        /\ getCleanup mv = Some (length (Cleanups s))
        /\ Cleanups s' = Cleanups s ++ [releaseOf (getValue mv)]
        /\ F_arguments s' = F_arguments s /\ VarLocs s' = VarLocs s
  | Direct_Owned | Indirect_In =>
      exists mv s',
        getManagedValue loc arg t parameterInfo s = Ok (mv, s')
        /\ B s' = B s
        /\ getValue mv = arg
        /\ isLValue mv = false
        /\ getCleanup mv = Some (length (Cleanups s))
        /\ Cleanups s' = Cleanups s ++ [releaseOf arg]
        /\ F_arguments s' = F_arguments s /\ VarLocs s' = VarLocs s
  | Indirect_Inout | Indirect_InoutAliasable =>
      getManagedValue loc arg t parameterInfo s = Ok (forLValue arg, s)
      /\ isLValue (forLValue arg) = true
      /\ hasCleanup (forLValue arg) = false
  | Indirect_In_Constant =>
      getManagedValue loc arg t parameterInfo s = Abort BadParameterConvention
  end.
Proof.
  unfold getManagedValue.
  destruct (getConvention parameterInfo); cbn;
    first [ reflexivity
          | by repeat split
          | eexists _, _; repeat split; reflexivity ].
Qed.

End Resolver.

(** ** The type destructurer *)

Section Visit.
Variable SGM : SILGenModule.
Variable loc : SILLocation.
Variable functionArgs : bool.

Lemma visitType_Visited t ps s mv ps' s' :
  visitType SGM loc functionArgs t ps s = Ok (mv, ps', s') ->
  Visited SGM loc [t] ps s mv ps' s'.
Proof.
  unfold visitType. intros H.
  destruct ps as [|parameterInfo ps]; [discriminate|].
  run_inv H.
  all: split; cbn.
  all: try done.
  all: try (by rewrite <- ?app_assoc).
  all: try (exists [parameterInfo]; split; [done|];
      constructor; [split; [done|congruence] | constructor]).
  all: try (solve_grown; done).
  all: try (solve_grown; repeat constructor; cbn; lia).
  all: try solve_handle.
Qed.

Lemma alter_snoc_length {A} (f : A -> A) (l : list A) x :
  alter f (length l) (l ++ [x]) = l ++ [f x].
Proof.
  replace (length l) with (length l + 0) by lia.
  by rewrite alter_app_r.
Qed.

Lemma handles_cons_Some e h rest :
  getCleanup e = Some h -> handles (e :: rest) = h :: handles rest.
Proof. unfold handles. cbn. by intros ->. Qed.

Lemma handles_cons_None e rest :
  getCleanup e = None -> handles (e :: rest) = handles rest.
Proof. unfold handles. cbn. by intros ->. Qed.

Lemma forwardOrCopyElements_spec elements : forall s,
  Forall (fun h => h < length (Cleanups s)) (handles elements) ->
  exists values s',
    forwardOrCopyElements elements s = Ok (values, s')
    /\ F_parameters s' = F_parameters s
    /\ VarLocs s' = VarLocs s
    /\ F_arguments s' = F_arguments s
    /\ (exists newB, B s' = B s ++ newB /\ debugOrdinals newB = [])
    /\ (exists newC,
          Cleanups s' = killAll (handles elements) (Cleanups s) ++ newC
          /\ Forall deadCopyCleanup newC)
    /\ Forall2 (fun e v => if hasCleanup e then v = getValue e
                           else copyOf (B s') (getValue e) v)
               elements values.
Proof.
  induction elements as [|e rest IH]; intros s Hlt.
  { exists [], s. repeat split; try done.
    - exists []. by rewrite app_nil_r.
    - exists []. by rewrite app_nil_r. }
  cbn [forwardOrCopyElements].
  unfold hasCleanup, forward, copyUnmanaged, emitManagedRValueWithCleanup,
    enterDestroyCleanup, createCopyValue.
  destruct (getCleanup e) as [h|] eqn:Hcleanup.
  - rewrite (handles_cons_Some e h rest Hcleanup) in *.
    inversion_clear Hlt as [|? ? Hh Hrest].
    unfold bind, ret, forwardCleanup. cbn.
    match goal with
    | |- context [forwardOrCopyElements rest ?s1] =>
        destruct (IH s1)
          as (values & s' & Hrun & Hp & Hv & Ha & (newB & HB & Hdbg)
              & (newC & HC & Hdead) & Hvals)
    end.
    { cbn. by rewrite length_alter. }
    rewrite Hrun. cbn in *. eexists _, _. split; [reflexivity|].
    repeat split; try done.
    + by exists newB.
    + by exists newC.
    + constructor; [|done]. unfold hasCleanup. by rewrite Hcleanup.
  - rewrite (handles_cons_None e rest Hcleanup) in *.
    unfold bind, ret, forwardCleanup, pushCleanup, createValue. cbn.
    rewrite alter_snoc_length.
    match goal with
    | |- context [forwardOrCopyElements rest ?s1] =>
        destruct (IH s1)
          as (values & s' & Hrun & Hp & Hv & Ha & (newB & HB & Hdbg)
              & (newC & HC & Hdead) & Hvals)
    end.
    { cbn. rewrite length_app. eapply Forall_impl; [done|]. cbn. lia. }
    rewrite Hrun. cbn in *. eexists _, _. split; [reflexivity|].
    repeat split; try done.
    + exists (CopyValueInst (getValue e) :: newB). rewrite <- app_assoc in HB. done.
    + eexists (_ :: newC). split.
      * rewrite HC, killAll_app by done. by rewrite <- app_assoc.
      * constructor; [|done]. split; [done|]. intros n. done.
    + constructor; [|done]. unfold hasCleanup. rewrite Hcleanup.
      exists (length (B s)). split; [done|]. rewrite HB.
      apply lookup_app_l_Some. by apply lookup_snoc_length.
Qed.


Lemma lookup_after {A} (l k : list A) n i x :
  i = length l + n -> k !! n = Some x -> (l ++ k) !! i = Some x.
Proof.
  intros -> Hk. rewrite lookup_app_r by lia.
  by replace (length l + n - length l) with n by lia.
Qed.

Ltac solve_lookup :=
  rewrite <- ?app_assoc;
  first [ eapply (lookup_after _ _ 0); [lia|reflexivity]
        | eapply (lookup_after _ _ 1); [lia|reflexivity]
        | eapply (lookup_after _ _ 2); [lia|reflexivity] ].

Lemma storeElements_spec buffer elements : forall i s,
  Forall (fun h => h < length (Cleanups s)) (handles elements) ->
  exists s',
    storeElements buffer i elements s = Ok (tt, s')
    /\ F_parameters s' = F_parameters s
    /\ VarLocs s' = VarLocs s
    /\ F_arguments s' = F_arguments s
    /\ (exists newB, B s' = B s ++ newB /\ debugOrdinals newB = [])
    /\ Cleanups s' = killAll (handles elements) (Cleanups s)
    /\ forall k e, elements !! k = Some e -> storedAt (B s') buffer (i + k) e.
Proof.
  induction elements as [|e rest IH]; intros i s Hlt.
  { exists s. repeat split; try done. exists []. by rewrite app_nil_r. }
  cbn [storeElements].
  unfold hasCleanup, forwardInto, copyInto, forward, createTupleElementAddr,
    createCopyValue.
  destruct (getCleanup e) as [h|] eqn:Hcleanup;
    [ rewrite (handles_cons_Some e h rest Hcleanup) in *;
      inversion_clear Hlt as [|? ? Hh Hrest]
    | rewrite (handles_cons_None e rest Hcleanup) in * ];
    destruct (isAddress (getValueType (getValue e))) eqn:Haddr;
    unfold bind, ret, forwardCleanup, createValue, createInst; cbn;
    rewrite ?Haddr; cbn;
    match goal with
    | |- context [storeElements buffer (S i) rest ?s1] =>
        destruct (IH (S i) s1)
          as (s' & Hrun & Hp & Hv & Ha & (newB & HB & Hdbg) & HC & Hstored)
    end;
    try (cbn; by rewrite ?length_alter);
    rewrite Hrun; cbn in *; eexists; (split; [reflexivity|]);
    rewrite <- ?app_assoc in HB; cbn in HB;
    rewrite ?length_app in HB; cbn [length] in HB; rewrite ?Nat.add_1_r in HB.
  all: split; [done|]; split; [done|]; split; [done|]; split; [by eexists|].
  all: split; [done|].
  all: intros [|k] e' He'; cbn in He';
    [ simplify_eq; replace (i + 0) with i by lia;
      exists (length (B s)); cbn; unfold hasCleanup; rewrite Hcleanup, ?Haddr, HB
    | replace (i + S k) with (S (i + k)) by lia; by apply Hstored ].
  all: repeat split; solve_lookup.
Qed.


Lemma reassembleTuple_spec tl elements canBeGuaranteed s :
  Forall (fun h => h < length (Cleanups s)) (handles elements) ->
  exists mv s',
    reassembleTuple SGM tl elements canBeGuaranteed s = Ok (mv, s')
    /\ F_parameters s' = F_parameters s
    /\ VarLocs s' = VarLocs s
    /\ F_arguments s' = F_arguments s
    /\ (exists newB, B s' = B s ++ newB /\ debugOrdinals newB = [])
    /\ isLValue mv = false
    /\ if TypeLowering.isLoadable tl || negb (useLoweredAddresses SGM)
       then
         exists pre values,
           B s' = pre ++ [TupleInst (TypeLowering.getLoweredType tl) values]
           /\ getValue mv = mkSILValue (InstructionResult (length pre))
                                       (TypeLowering.getLoweredType tl)
           /\ if canBeGuaranteed
              then getCleanup mv = None
                   /\ values = map getValue elements
                   /\ pre = B s
                   /\ Cleanups s' = Cleanups s
              else Forall2 (fun e v => if hasCleanup e then v = getValue e
                                       else copyOf pre (getValue e) v)
                           elements values
                   /\ exists newC,
                        Cleanups s' = killAll (handles elements) (Cleanups s)
                                      ++ newC ++ [releaseOf (getValue mv)]
                        /\ Forall deadCopyCleanup newC
                        /\ getCleanup mv = Some (length (Cleanups s) + length newC)
       else
         getValue mv = mkSILValue (InstructionResult (length (B s)))
                                  (getAddressType (TypeLowering.getLoweredType tl))
         /\ B s' !! length (B s)
            = Some (AllocStackInst
                      (mkSILType (getSwiftRValueType (TypeLowering.getLoweredType tl))
                                 Object) 0)
         /\ (forall k e, elements !! k = Some e -> storedAt (B s') (getValue mv) k e)
         /\ Cleanups s' = killAll (handles elements) (Cleanups s)
                          ++ [releaseOf (getValue mv)]
         /\ getCleanup mv = Some (length (Cleanups s)).
Proof.
  intros Hlt. unfold reassembleTuple.
  destruct (TypeLowering.isLoadable tl || negb (useLoweredAddresses SGM)).
  - destruct canBeGuaranteed.
    + unfold bind, ret, createTuple, createValue. cbn.
      eexists _, _. split; [reflexivity|]. cbn.
      repeat split; try done.
      * by eexists [_].
      * by eexists _, _.
    + destruct (forwardOrCopyElements_spec elements s Hlt)
        as (values & s1 & Hrun & Hp & Hv & Ha & (newB & HB & Hdbg)
            & (newC & HC & Hdead) & Hvals).
      unfold bind at 1. rewrite Hrun.
      unfold bind, ret, createTuple, createValue, emitManagedRValueWithCleanup,
        enterDestroyCleanup, pushCleanup. cbn.
      eexists _, _. split; [reflexivity|]. cbn.
      repeat split; try done.
      * exists (newB ++ [TupleInst (TypeLowering.getLoweredType tl) values]).
        rewrite HB, <- app_assoc. split; [done|].
        unfold debugOrdinals in *. by rewrite omap_app, Hdbg.
      * exists (B s1), values. repeat split; try done.
        exists newC. rewrite HC, <- app_assoc. repeat split; try done.
        by rewrite length_app, length_killAll.
  - unfold emitTemporaryAllocation, bind, createValue. cbn.
    match goal with
    | |- context [storeElements ?b 0 elements ?s1] =>
        destruct (storeElements_spec b elements 0 s1)
          as (s' & Hrun & Hp & Hv & Ha & (newB & HB & Hdbg) & HC & Hstored)
    end; [done|].
    rewrite Hrun.
    unfold ret, emitManagedRValueWithCleanup, enterDestroyCleanup, pushCleanup, bind.
    cbn in *. eexists _, _. split; [reflexivity|]. cbn.
    repeat split; try done.
    + rewrite HB, <- app_assoc. by eexists.
    + rewrite HB. solve_lookup.
    + by rewrite HC.
    + by rewrite HC, length_killAll.
Qed.


Lemma handles_app l1 l2 : handles (l1 ++ l2) = handles l1 ++ handles l2.
Proof. unfold handles. apply omap_app. Qed.

Lemma elem_of_handles h elements :
  h ∈ handles elements <-> exists e, e ∈ elements /\ getCleanup e = Some h.
Proof. unfold handles. apply list_elem_of_omap. Qed.

Lemma elementsOwned_lt base cs elements :
  elementsOwned base cs elements ->
  Forall (fun h => base <= h < length cs) (handles elements).
Proof.
  intros [_ Hown]. apply Forall_forall. intros h Hh.
  apply elem_of_handles in Hh as (e & He & Hc).
  rewrite Forall_forall in Hown. destruct (Hown e He h Hc) as [? Hl].
  split; [done|]. by eapply lookup_lt_Some.
Qed.

Lemma elementsOwned_snoc base cs newC acc elt :
  elementsOwned base cs acc ->
  base <= length cs ->
  (forall h, getCleanup elt = Some h ->
     length cs <= h /\ (cs ++ newC) !! h = Some (releaseOf (getValue elt))) ->
  elementsOwned base (cs ++ newC) (acc ++ [elt]).
Proof.
  intros Hacc Hbase Helt. pose proof (elementsOwned_lt _ _ _ Hacc) as Hlt.
  destruct Hacc as [Hnd Hown]. split.
  - rewrite handles_app. apply NoDup_app. split; [done|]. split.
    + intros h Hh Hh'. rewrite Forall_forall in Hlt. specialize (Hlt h Hh).
      apply elem_of_handles in Hh' as (e & He & Hc).
      apply list_elem_of_singleton in He as ->.
      destruct (Helt h Hc). lia.
    + unfold handles. cbn. destruct (getCleanup elt); cbn; [apply NoDup_singleton|constructor].
  - apply Forall_app. split.
    + eapply Forall_impl; [done|]. intros e He h Hc.
      destruct (He h Hc). split; [done|]. by apply lookup_app_l_Some.
    + constructor; [|constructor]. intros h Hc. destruct (Helt h Hc). split; [lia|done].
Qed.

Lemma notAmongFirst_le n n' v : n <= n' -> notAmongFirst n' v -> notAmongFirst n v.
Proof. unfold notAmongFirst. destruct (getDef v); [lia|done|done]. Qed.

Lemma debugOrdinals_app l1 l2 :
  debugOrdinals (l1 ++ l2) = debugOrdinals l1 ++ debugOrdinals l2.
Proof. apply omap_app. Qed.

Section Collect.

Variable v : CanType -> list SILParameterInfo -> M (ManagedValue * list SILParameterInfo).

Lemma collectElements_Visited fieldTypes :
  Forall (fun t => forall ps s mv ps' s',
            v t ps s = Ok (mv, ps', s') -> Visited SGM loc (leaves t) ps s mv ps' s')
         fieldTypes ->
  forall acc cbg ps s elements cbg' ps' s' base,
    collectElements v fieldTypes acc cbg ps s = Ok (elements, cbg', ps', s') ->
    base <= length (Cleanups s) ->
    elementsOwned base (Cleanups s) acc ->
    F_parameters s' = F_parameters s
    /\ VarLocs s' = VarLocs s
    /\ F_arguments s'
       = F_arguments s ++ map (leafArgument SGM loc) (flat_map leaves fieldTypes)
    /\ (exists consumed,
          ps = consumed ++ ps'
          /\ Forall2 (compatible SGM) (flat_map leaves fieldTypes) consumed)
    /\ (exists newB, B s' = B s ++ newB /\ debugOrdinals newB = [])
    /\ (exists newC,
          Cleanups s' = Cleanups s ++ newC
          /\ Forall (fun c => notAmongFirst (length (F_arguments s)) (cleanupValue c))
                    newC)
    /\ elementsOwned base (Cleanups s') elements
    /\ exists new,
         elements = acc ++ new
         /\ length new = length fieldTypes
         /\ cbg' = cbg && forallb (fun e => negb (hasCleanup e)) new.
Proof.
  induction 1 as [|t rest Ht Hrest IH];
    intros acc cbg ps s elements cbg' ps' s' base Hrun Hbase Hacc.
  { cbn in Hrun. run_inv Hrun. repeat split; try done.
    - by rewrite app_nil_r.
    - exists []. split; [done|constructor].
    - exists []. by rewrite app_nil_r.
    - exists []. by rewrite app_nil_r.
    - apply Hacc.
    - apply Hacc.
    - exists []. by rewrite app_nil_r, andb_true_r. }
  cbn [collectElements] in Hrun.
  apply bind_Ok in Hrun as ([elt ps1] & s1 & Hvisit & Hrun).
  apply Ht in Hvisit as [Hp1 Hv1 Ha1 (c1 & -> & Hc1) (newB1 & HB1 & Hd1)
                           (newC1 & HC1 & Hf1) Hh1].
  eapply (IH _ _ _ _ _ _ _ _ base) in Hrun
    as (Hp & Hv & Ha & (c2 & -> & Hc2) & (newB2 & HB2 & Hd2) & (newC2 & HC2 & Hf2)
        & Hown & (new & -> & Hlen & ->)).
  - repeat split.
    + congruence.
    + congruence.
    + rewrite Ha, Ha1. cbn [flat_map]. by rewrite map_app, app_assoc.
    + exists (c1 ++ c2). split; [by rewrite app_assoc|]. cbn [flat_map].
      by apply Forall2_app.
    + exists (newB1 ++ newB2). rewrite HB2, HB1, app_assoc. split; [done|].
      by rewrite debugOrdinals_app, Hd1, Hd2.
    + exists (newC1 ++ newC2). rewrite HC2, HC1, app_assoc. split; [done|].
      apply Forall_app. split; [done|].
      eapply Forall_impl; [done|]. intros c. apply notAmongFirst_le.
      rewrite Ha1, length_app. lia.
    + apply Hown.
    + apply Hown.
    + exists (elt :: new). rewrite <- app_assoc. split; [done|]. cbn.
      split; [by rewrite Hlen|]. by destruct (hasCleanup elt), cbg.
  - rewrite HC1, length_app. lia.
  - rewrite HC1. apply elementsOwned_snoc; [done|done|].
    intros h Hc. rewrite <- HC1. by apply Hh1.
Qed.

End Collect.


Lemma killAll_above cs new hs :
  Forall (fun h => length cs <= h) hs ->
  exists new', killAll hs (cs ++ new) = cs ++ new'
               /\ map getKind new' = map getKind new.
Proof.
  revert new. induction hs as [|h hs IH]; intros new Hge.
  { by exists new. }
  inversion_clear Hge as [|? ? Hh Hhs]. rewrite killAll_cons.
  rewrite alter_app_r_alt by done.
  destruct (IH (alter kill (h - length cs) new) Hhs) as (new' & -> & Hk).
  exists new'. split; [done|]. by rewrite Hk, map_getKind_alter_kill.
Qed.

Lemma Forall_cleanupValue_kind (P : SILValue -> Prop) l1 l2 :
  map getKind l1 = map getKind l2 ->
  Forall (fun c => P (cleanupValue c)) l1 -> Forall (fun c => P (cleanupValue c)) l2.
Proof.
  revert l2. induction l1 as [|c l1 IH]; intros [|c' l2] Hk Hall; try done.
  cbn in Hk. injection Hk as Hc Hk. inversion_clear Hall.
  constructor; [|by apply IH]. unfold cleanupValue in *. by rewrite <- Hc.
Qed.

Lemma deadCopyCleanup_notAmongFirst n l :
  Forall deadCopyCleanup l -> Forall (fun c => notAmongFirst n (cleanupValue c)) l.
Proof. intros H. eapply Forall_impl; [exact H|]. by intros c [_ ?]. Qed.

Lemma visit_Visited t : forall ps s mv ps' s',
  visit SGM loc functionArgs t ps s = Ok (mv, ps', s') ->
  Visited SGM loc (leaves t) ps s mv ps' s'.
Proof.
  induction t as [ | | | | | | |elts IH] using CanType_nested_ind;
    intros ps s mv ps' s' Hrun;
    try (by apply visitType_Visited).
  cbn [visit] in Hrun. unfold visitTupleType in Hrun.
  apply bind_Ok in Hrun as ([[elements cbg] ps1] & s1 & Hcollect & Hrun).
  apply bind_Ok in Hrun as (mv1 & s2 & Hre & Hret).
  run_inv Hret.
  eapply (collectElements_Visited _ _ IH _ _ _ _ _ _ _ _ (length (Cleanups s)))
    in Hcollect
    as (Hp & Hv & Ha & Hcons & (newB1 & HB1 & Hd1) & (newC1 & HC1 & Hf1)
        & Hown & _);
    [|done|by split; [constructor|constructor]].
  pose proof (elementsOwned_lt _ _ _ Hown) as Hlt.
  destruct (reassembleTuple_spec (getTypeLowering SGM (TupleType elts)) elements cbg s1)
    as (mv2 & s2 & Hre' & Hp2 & Hv2 & Ha2 & (newB2 & HB2 & Hd2) & _ & Hmode).
  { eapply Forall_impl; [done|]. cbn. lia. }
  rewrite Hre' in Hre. simplify_eq.
  assert (Forall (fun h => length (Cleanups s) <= h) (handles elements)) as Hge.
  { eapply Forall_impl; [done|]. cbn. lia. }
  destruct (killAll_above (Cleanups s) newC1 (handles elements) Hge)
    as (newC1' & Hkill & Hkinds).
  rewrite <- HC1 in Hkill.
  assert (Forall (fun c => notAmongFirst (length (F_arguments s)) (cleanupValue c))
                 newC1') as Hf1'.
  { eapply Forall_cleanupValue_kind; [symmetry; exact Hkinds|done]. }
  split.
  - congruence.
  - congruence.
  - cbn [leaves]. congruence.
  - done.
  - exists (newB1 ++ newB2). rewrite HB2, HB1, app_assoc. split; [done|].
    by rewrite debugOrdinals_app, Hd1, Hd2.
  - destruct (_ || _).
    + destruct Hmode as (pre & values & HB & Hval & Hmode). destruct cbg.
      * destruct Hmode as (_ & _ & _ & ->). by exists newC1.
      * destruct Hmode as (_ & newC & -> & Hdead & _). rewrite Hkill.
        exists (newC1' ++ newC ++ [releaseOf (getValue mv)]).
        rewrite <- app_assoc. split; [done|].
        apply Forall_app. split; [done|]. apply Forall_app.
        split; [by apply deadCopyCleanup_notAmongFirst|].
        constructor; [|constructor]. cbn. by rewrite Hval.
    + destruct Hmode as (Hval & _ & _ & -> & _). rewrite Hkill.
      exists (newC1' ++ [releaseOf (getValue mv)]).
      rewrite <- app_assoc. split; [done|].
      apply Forall_app. split; [done|].
      constructor; [|constructor]. cbn. by rewrite Hval.
  - intros h Hh. destruct (_ || _).
    + destruct Hmode as (pre & values & HB & Hval & Hmode). destruct cbg.
      * destruct Hmode as (Hnone & _). congruence.
      * destruct Hmode as (_ & newC & -> & Hdead & Hc). rewrite Hh in Hc.
        injection Hc as ->. split; [rewrite HC1, length_app; lia|].
        rewrite app_assoc. apply lookup_snoc_length.
        by rewrite length_app, length_killAll.
    + destruct Hmode as (Hval & _ & _ & -> & Hc). rewrite Hh in Hc.
      injection Hc as ->. split; [rewrite HC1, length_app; lia|].
      apply lookup_snoc_length. by rewrite length_killAll.
Qed.


Lemma visitType_total t parameterInfo rest s :
  compatible SGM t parameterInfo ->
  exists mv s',
    visitType SGM loc functionArgs t (parameterInfo :: rest) s = Ok (mv, rest, s').
Proof.
  intros [Hty Hconv]. unfold visitType, popParameterInfo.
  unfold bind at 1. cbn [ret]. unfold bind at 1. rewrite Hty. cbn [assert ret].
  unfold bind at 1, createFunctionArgument at 1.
  unfold bind at 1, getManagedValue.
  destruct (getConvention parameterInfo); try done; cbn;
    destruct (functionArgs && isBlockFunctionType _); cbn; by eexists _, _.
Qed.

Lemma collectElements_total
    (v : CanType -> list SILParameterInfo -> M (ManagedValue * list SILParameterInfo))
    fieldTypes :
  Forall (fun t => forall consumed rest s,
            Forall2 (compatible SGM) (leaves t) consumed ->
            exists mv s', v t (consumed ++ rest) s = Ok (mv, rest, s'))
         fieldTypes ->
  forall acc cbg consumed rest s,
    Forall2 (compatible SGM) (flat_map leaves fieldTypes) consumed ->
    exists elements cbg' s',
      collectElements v fieldTypes acc cbg (consumed ++ rest) s
      = Ok (elements, cbg', rest, s').
Proof.
  induction 1 as [|t fieldTypes Ht _ IH]; intros acc cbg consumed rest s Hcompat.
  { cbn in Hcompat. apply Forall2_nil_inv_l in Hcompat as ->. by eexists _, _, _. }
  cbn [flat_map] in Hcompat.
  apply Forall2_app_inv_l in Hcompat as (c1 & c2 & Hc1 & Hc2 & ->).
  destruct (Ht c1 (c2 ++ rest) s Hc1) as (elt & s1 & Hvisit).
  cbn [collectElements]. rewrite <- app_assoc.
  rewrite (bind_Ok_intro _ _ _ _ _ Hvisit). by apply IH.
Qed.

Lemma visit_total t : forall consumed rest s,
  Forall2 (compatible SGM) (leaves t) consumed ->
  exists mv s',
    visit SGM loc functionArgs t (consumed ++ rest) s = Ok (mv, rest, s').
Proof.
  induction t as [ | | | | | | |elts IH] using CanType_nested_ind;
    intros consumed rest s Hcompat;
    try (cbn [leaves] in Hcompat;
         apply Forall2_cons_inv_l in Hcompat as (parameterInfo & ? & Hc & Hnil & ->);
         apply Forall2_nil_inv_l in Hnil as ->;
         by apply visitType_total).
  cbn [leaves] in Hcompat. cbn [visit]. unfold visitTupleType.
  destruct (collectElements_total _ elts IH []
              (TypeLowering.isLoadable (getTypeLowering SGM (TupleType elts)))
              consumed rest s Hcompat)
    as (elements & cbg & s1 & Hcollect).
  rewrite (bind_Ok_intro _ _ _ _ _ Hcollect).
  eapply (collectElements_Visited _ elts) in Hcollect as Hinv;
    [ | apply Forall_forall; intros t _; apply visit_Visited
      | reflexivity
      | by split; [constructor|constructor] ].
  destruct Hinv as (_ & _ & _ & _ & _ & _ & Hown & _).
  apply elementsOwned_lt in Hown.
  destruct (reassembleTuple_spec (getTypeLowering SGM (TupleType elts)) elements cbg s1)
    as (mv & s' & Hre & _).
  { eapply Forall_impl; [done|]. cbn. lia. }
  rewrite (bind_Ok_intro _ _ _ _ _ Hre). by eexists _, _.
Qed.

(** C2.  When the flattened leaf count of a parameter-type tree equals the
    number of parameter infos at the front of the queue, and the infos are
    the ones of the leaves (each names the lowered type of its leaf, none
    has the reserved convention), the type destructurer returns, having
    consumed exactly those infos and nothing of what follows them (with
    nothing following, none is left over); it creates one entry-block
    argument per scalar leaf, in depth-first left-to-right order, and the
    k-th argument has the type that the k-th info names. *)
Theorem visit_consumes_one_parameter_info_per_leaf
    (t : CanType) (parameters rest : list SILParameterInfo) (s : SILGenFunction) :
  length parameters = length (leaves t) ->
  Forall2 (compatible SGM) (leaves t) parameters ->
  exists mv s',
    visit SGM loc functionArgs t (parameters ++ rest) s = Ok (mv, rest, s')
    /\ F_arguments s' = F_arguments s ++ map (leafArgument SGM loc) (leaves t)
    /\ forall k parameterInfo,
         parameters !! k = Some parameterInfo ->
         exists leaf,
           leaves t !! k = Some leaf
           /\ F_arguments s' !! (length (F_arguments s) + k)
              = Some (mkSILArgument
                        (mapSILTypeIntoContext SGM (getSILType SGM parameterInfo))
                        loc).
Proof.
  intros _ Hcompat.
  destruct (visit_total t parameters rest s Hcompat) as (mv & s' & Hrun).
  exists mv, s'. split; [done|].
  apply visit_Visited in Hrun as [_ _ Ha _ _ _ _].
  split; [done|].
  intros k parameterInfo Hk.
  destruct (Forall2_lookup_r _ _ _ _ _ Hcompat Hk) as (leaf & Hleaf & Hty & _).
  exists leaf. split; [done|].
  rewrite Ha, lookup_app_r by lia.
  replace (length (F_arguments s) + k - length (F_arguments s)) with k by lia.
  rewrite list_lookup_fmap, Hleaf. cbn. unfold leafArgument.
  by rewrite (SILType_eqb_eq _ _ Hty).
Qed.

End Visit.

Section ManagedType.
Variable SGM : SILGenModule.
Variable loc : SILLocation.
Variable functionArgs : bool.

Lemma visitType_managedType t ps s mv ps' s' :
  visitType SGM loc functionArgs t ps s = Ok (mv, ps', s') ->
  getValueType (getValue mv) = getLoweredType SGM t.
Proof.
  intros Hrun. unfold visitType in Hrun. run_inv Hrun; reflexivity.
Qed.

Lemma visit_managedType t ps s mv ps' s' :
  visit SGM loc functionArgs t ps s = Ok (mv, ps', s') ->
  getValueType (getValue mv) = managedType SGM t.
Proof.
  destruct t as [ | | | | | | |elts]; try apply visitType_managedType.
  intros Hrun. cbn [visit] in Hrun. unfold visitTupleType in Hrun.
  apply bind_Ok in Hrun as ([[elements cbg] ps1] & s1 & Hcollect & Hrun).
  apply bind_Ok in Hrun as (mv1 & s2 & Hre & Hret). run_inv Hret.
  eapply (collectElements_Visited SGM loc _ elts) in Hcollect
    as (_ & _ & _ & _ & _ & _ & Hown & _);
    [ | apply Forall_forall; intros t _; apply visit_Visited
      | reflexivity
      | by split; [constructor|constructor] ].
  apply elementsOwned_lt in Hown.
  destruct (reassembleTuple_spec SGM (getTypeLowering SGM (TupleType elts)) elements cbg s1)
    as (mv2 & s2 & Hre' & _ & _ & _ & _ & _ & Hmode).
  { eapply Forall_impl; [done|]. cbn. lia. }
  rewrite Hre' in Hre. simplify_eq. cbn [managedType].
  destruct (_ || _).
  - destruct Hmode as (pre & values & _ & -> & _). done.
  - destruct Hmode as (-> & _). done.
Qed.

End ManagedType.

(** ** Reassembly of a destructured tuple *)

Lemma countActive_dead l : Forall deadCopyCleanup l -> countActive l = 0.
Proof.
  unfold countActive. induction 1 as [|c l [Hc _] _ IH]; [done|].
  cbn. by rewrite Hc.
Qed.

Lemma countActive_releaseOf v : countActive [releaseOf v] = 1.
Proof. reflexivity. Qed.

Lemma elementsOwned_active base cs elements :
  elementsOwned base cs elements ->
  Forall (fun h => exists c, cs !! h = Some c /\ isActive c = true) (handles elements).
Proof.
  intros [_ Hown]. apply Forall_forall. intros h Hh.
  apply elem_of_handles in Hh as (e & He & Hc).
  rewrite Forall_forall in Hown. destruct (Hown e He h Hc) as [_ Hl].
  by eexists.
Qed.

Lemma elementsOwned_killed base cs elements k e h :
  elementsOwned base cs elements ->
  e ∈ elements -> getCleanup e = Some h ->
  (killAll (handles elements) cs ++ k) !! h = Some (kill (releaseOf (getValue e))).
Proof.
  intros [_ Hown] He Hc. rewrite Forall_forall in Hown.
  destruct (Hown e He h Hc) as [_ Hl].
  apply lookup_app_l_Some. apply killAll_lookup_in; [|done].
  apply elem_of_handles. by exists e.
Qed.

Lemma collectElements_in_order
    (v : CanType -> list SILParameterInfo -> M (ManagedValue * list SILParameterInfo))
    fieldTypes : forall acc cbg ps s elements cbg' ps' s',
  collectElements v fieldTypes acc cbg ps s = Ok (elements, cbg', ps', s') ->
  exists new, elements = acc ++ new /\ visitedInOrder v fieldTypes ps s new ps' s'.
Proof.
  induction fieldTypes as [|t rest IH]; intros acc cbg ps s elements cbg' ps' s' Hrun.
  - cbn in Hrun. unfold ret in Hrun. simplify_eq. exists []. by rewrite app_nil_r.
  - cbn [collectElements] in Hrun.
    apply bind_Ok in Hrun as ([elt ps1] & s1 & Hvisit & Hrun).
    apply IH in Hrun as (new & -> & Hnew).
    exists (elt :: new). rewrite <- app_assoc. split; [done|].
    by exists ps1, s1.
Qed.

Lemma visitedInOrder_managedType SGM loc functionArgs fieldTypes :
  forall ps s elements ps' s',
    visitedInOrder (visit SGM loc functionArgs) fieldTypes ps s elements ps' s' ->
    Forall2 (fun t e => getValueType (getValue e) = managedType SGM t)
            fieldTypes elements.
Proof.
  induction fieldTypes as [|t rest IH]; intros ps s elements ps' s' H.
  - destruct elements; [constructor|done].
  - destruct elements as [|e elements]; [done|].
    destruct H as (ps1 & s1 & Hvisit & H).
    constructor; [by eapply visit_managedType|by eapply IH].
Qed.

Section Reassembly.
Variable SGM : SILGenModule.
Variable loc : SILLocation.
Variable functionArgs : bool.

(** C3, amended.  When a tuple type is destructured, the queue holding the
    parameter infos of its leaves, the destructurer returns: its elements
    are collected, each with its cleanup (if it has one) pending, and then
    reassembled.  The collected elements are those of the tuple type,
    index by index: the k-th is the result of destructuring the k-th
    element type, after the ones before it, and has the type of its
    destructured value.  If the lowering is loadable and no element carries a
    cleanup, the result is one unmanaged tuple of the elements' values and
    the cleanup stack is untouched.  Otherwise the result carries one new
    pending release cleanup, the cleanup of every element that had one is
    dead afterwards, and the number of pending cleanups is the number before
    the reassembly, less the cleanups of the elements, plus one; the
    aggregate is a tuple value, of the forwarded values and of copies of the
    borrowed ones, when the lowering is loadable or the module does not use
    lowered addresses, and it is a freshly allocated stack buffer, written
    element by element at matching indices, when the lowering is
    address-only and the module uses lowered addresses. *)
Theorem visitTupleType_reassembles
    (elts : list CanType) (parameters rest : list SILParameterInfo)
    (s : SILGenFunction) :
  Forall2 (compatible SGM) (leaves (TupleType elts)) parameters ->
  let tl := getTypeLowering SGM (TupleType elts) in
  let lowered := TypeLowering.getLoweredType tl in
  exists mv s' elements canBeGuaranteed s1,
    visit SGM loc functionArgs (TupleType elts) (parameters ++ rest) s = Ok (mv, rest, s')
    /\ collectElements (visit SGM loc functionArgs) elts []
         (TypeLowering.isLoadable tl) (parameters ++ rest) s
       = Ok (elements, canBeGuaranteed, rest, s1)
    /\ length elements = length elts
    /\ visitedInOrder (visit SGM loc functionArgs) elts (parameters ++ rest) s
                      elements rest s1
    /\ Forall2 (fun t e => getValueType (getValue e) = managedType SGM t) elts elements
    /\ elementsOwned (length (Cleanups s)) (Cleanups s1) elements
    /\ isLValue mv = false
    /\ if TypeLowering.isLoadable tl && forallb (fun e => negb (hasCleanup e)) elements
       then
         getCleanup mv = None
         /\ Cleanups s' = Cleanups s1
         /\ B s' = B s1 ++ [TupleInst lowered (map getValue elements)]
         /\ getValue mv = mkSILValue (InstructionResult (length (B s1))) lowered
       else
         (exists h, getCleanup mv = Some h
                    /\ length (Cleanups s1) <= h
                    /\ Cleanups s' !! h = Some (releaseOf (getValue mv)))
         /\ countActive (Cleanups s') + length (handles elements)
            = countActive (Cleanups s1) + 1
         /\ (forall e h, e ∈ elements -> getCleanup e = Some h ->
               Cleanups s' !! h = Some (kill (releaseOf (getValue e))))
         /\ if TypeLowering.isLoadable tl || negb (useLoweredAddresses SGM)
            then
              exists pre values,
                B s' = pre ++ [TupleInst lowered values]
                /\ getValue mv = mkSILValue (InstructionResult (length pre)) lowered
                /\ Forall2 (fun e v => if hasCleanup e then v = getValue e
                                       else copyOf pre (getValue e) v)
                           elements values
            else
              getValue mv = mkSILValue (InstructionResult (length (B s1)))
                                       (getAddressType lowered)
              /\ B s' !! length (B s1)
                 = Some (AllocStackInst (mkSILType (getSwiftRValueType lowered) Object) 0)
              /\ forall k e, elements !! k = Some e ->
                   storedAt (B s') (getValue mv) k e.
Proof.
  intros Hcompat tl lowered. subst tl lowered.
  destruct (visit_total SGM loc functionArgs (TupleType elts) parameters rest s Hcompat)
    as (mv & s' & Hrun).
  exists mv, s'. pose proof Hrun as Hvisit.
  cbn [visit] in Hrun. unfold visitTupleType in Hrun.
  apply bind_Ok in Hrun as ([[elements cbg] ps1] & s1 & Hcollect & Hrun).
  apply bind_Ok in Hrun as (mv1 & s2 & Hre & Hret). run_inv Hret.
  exists elements, cbg, s1. split; [done|]. split; [done|].
  pose proof (collectElements_in_order _ _ _ _ _ _ _ _ _ _ Hcollect)
    as (ordered & Hordered & Horder).
  cbn in Hordered. subst ordered.
  eapply (collectElements_Visited SGM loc _ elts) in Hcollect
    as (_ & _ & _ & _ & _ & _ & Hown & (new & Hnew & Hlen & Hcbg));
    [ | apply Forall_forall; intros t _; apply visit_Visited
      | reflexivity
      | by split; [constructor|constructor] ].
  cbn in Hnew. subst new. split; [done|]. split; [done|].
  split; [by eapply visitedInOrder_managedType|]. split; [done|].
  pose proof (elementsOwned_lt _ _ _ Hown) as Hlt.
  destruct (reassembleTuple_spec SGM (getTypeLowering SGM (TupleType elts)) elements cbg s1)
    as (mv2 & s2 & Hre' & _ & _ & _ & _ & Hlv & Hmode).
  { eapply Forall_impl; [done|]. cbn. lia. }
  rewrite Hre' in Hre. simplify_eq. split; [done|].
  destruct (TypeLowering.isLoadable _) eqn:Hloadable; cbn [andb orb] in *.
  - destruct Hmode as (pre & values & HB & Hval & Hmode).
    destruct (forallb _ elements).
    + destruct Hmode as (Hnone & -> & -> & HC). by rewrite HB, Hval.
    + destruct Hmode as (Hvals & newC & HC & Hdead & Hh).
      repeat split.
      * exists (length (Cleanups s1) + length newC). split; [done|]. split; [lia|].
        rewrite HC, app_assoc. apply lookup_snoc_length.
        by rewrite length_app, length_killAll.
      * rewrite HC, !countActive_app, (countActive_dead newC Hdead), countActive_releaseOf.
        pose proof (countActive_killAll (handles elements) (Cleanups s1)
                      (proj1 Hown) (elementsOwned_active _ _ _ Hown)).
        lia.
      * intros e h He Hc. rewrite HC. by eapply elementsOwned_killed.
      * by exists pre, values.
  - destruct (negb (useLoweredAddresses SGM)).
    + destruct Hmode as (pre & values & HB & Hval & Hvals & newC & HC & Hdead & Hh).
      repeat split.
      * exists (length (Cleanups s1) + length newC). split; [done|]. split; [lia|].
        rewrite HC, app_assoc. apply lookup_snoc_length.
        by rewrite length_app, length_killAll.
      * rewrite HC, !countActive_app, (countActive_dead newC Hdead), countActive_releaseOf.
        pose proof (countActive_killAll (handles elements) (Cleanups s1)
                      (proj1 Hown) (elementsOwned_active _ _ _ Hown)).
        lia.
      * intros e h He Hc. rewrite HC. by eapply elementsOwned_killed.
      * by exists pre, values.
    + destruct Hmode as (Hval & HB & Hstored & HC & Hh).
      repeat split; try done.
      * exists (length (Cleanups s1)). split; [done|]. split; [lia|].
        rewrite HC. apply lookup_snoc_length. by rewrite length_killAll.
      * rewrite HC, countActive_app, countActive_releaseOf.
        pose proof (countActive_killAll (handles elements) (Cleanups s1)
                      (proj1 Hown) (elementsOwned_active _ _ _ Hown)).
        lia.
      * intros e h He Hc. rewrite HC. by eapply elementsOwned_killed.
Qed.

End Reassembly.

(** ** Indirect results and forwarded parameters *)

Lemma with_arguments_id s : with_arguments (F_arguments s ++ []) s = s.
Proof. destruct s. unfold with_arguments. cbn. by rewrite app_nil_r. Qed.

Section IndirectResults.
Variable SGM : SILGenModule.

Lemma indirectResultArguments_tuple elts :
  indirectResultArguments SGM (TupleType elts)
  = flat_map (indirectResultArguments SGM) elts.
Proof.
  unfold indirectResultArguments. cbn [leaves].
  induction elts as [|t elts IH]; [done|].
  cbn [flat_map]. by rewrite List.filter_app, map_app, IH.
Qed.

Lemma emitIndirectResultParameters_spec resultType : forall s,
  emitIndirectResultParameters SGM resultType tt s
  = Ok (tt, with_arguments (F_arguments s ++ indirectResultArguments SGM resultType) s).
Proof.
  induction resultType as [ | | | | | | |elts IH] using CanType_nested_ind; intros s;
    try (cbn [emitIndirectResultParameters];
         unfold indirectResultArguments, returnedIndirectly, resultArgument; cbn;
         destruct (isReturnedIndirectlyInSIL _ _); cbn;
         [done|by rewrite with_arguments_id]).
  cbn [emitIndirectResultParameters]. rewrite indirectResultArguments_tuple.
  revert s. induction IH as [|t elts Ht _ IHelts]; intros s.
  { cbn. by rewrite with_arguments_id. }
  cbn [forEach flat_map]. unfold bind. rewrite Ht. destruct tt.
  rewrite IHelts. cbn. by rewrite app_assoc.
Qed.

End IndirectResults.

Section Forwarding.
Variable SGM : SILGenModule.

Lemma argumentValues_app base l1 l2 :
  argumentValues base (l1 ++ l2)
  = argumentValues base l1 ++ argumentValues (base + length l1) l2.
Proof.
  unfold argumentValues. rewrite imap_app. f_equal.
  apply imap_ext. intros k a _. cbn. by rewrite Nat.add_assoc.
Qed.

Lemma makeArgument_spec ty decl : forall args s,
  makeArgument SGM ty decl args s
  = Ok (args ++ argumentValues (length (F_arguments s))
                  (map (leafArgument SGM (Some (SourceDecl decl))) (leaves ty)),
        with_arguments
          (F_arguments s ++ map (leafArgument SGM (Some (SourceDecl decl))) (leaves ty))
          s).
Proof.
  induction ty as [ | | | | | | |elts IH] using CanType_nested_ind; intros args s;
    try (cbn; by rewrite Nat.add_0_r).
  cbn [makeArgument leaves].
  revert args s. induction IH as [|t elts Ht _ IHelts]; intros args s.
  { cbn. by rewrite app_nil_r, with_arguments_id. }
  cbn [forEach flat_map]. unfold bind. rewrite Ht, IHelts. cbn.
  rewrite map_app, argumentValues_app, length_app, length_map, !app_assoc.
  reflexivity.
Qed.

(** C9.  [bindParametersForForwarding] creates one entry-block argument for
    each scalar leaf of the tuple-flattened type of each parameter, in
    depth-first order, parameter after parameter, each for the declaration
    of its parameter, and appends the raw values of these arguments to the
    output vector.  It touches nothing else: the parameter infos of the
    function, the instruction stream, the cleanup stack and the
    variable-location table are as before. *)
Theorem bindParametersForForwarding_forwards
    (params : list VarDecl) (parameters : list SILValue) (s : SILGenFunction) :
  let args := flat_map (forwardedArguments SGM) params in
  exists s',
    bindParametersForForwarding SGM params parameters s
    = Ok (parameters ++ argumentValues (length (F_arguments s)) args, s')
    /\ F_arguments s' = F_arguments s ++ args
    /\ F_parameters s' = F_parameters s
    /\ B s' = B s
    /\ Cleanups s' = Cleanups s
    /\ VarLocs s' = VarLocs s.
Proof.
  intros args. subst args. unfold bindParametersForForwarding.
  revert parameters s. induction params as [|param params IH]; intros parameters s.
  { exists s. cbn. by rewrite !app_nil_r. }
  cbn [forEach flat_map]. unfold bind. rewrite makeArgument_spec.
  fold (forwardingType SGM param). fold (forwardedArguments SGM param).
  match goal with
  | |- context [forEach ?f params ?acc ?s1] =>
      destruct (IH acc s1) as (s' & Hrun & Ha & Hp & HB & HC & Hv)
  end.
  exists s'. rewrite Hrun. cbn in *.
  rewrite argumentValues_app, length_app, <- !app_assoc. by rewrite Ha, <- !app_assoc.
Qed.

End Forwarding.

(** ** Discard scopes and unnamed parameters *)

Lemma with_B_id s : with_B (B s ++ []) s = s.
Proof. destruct s. unfold with_B. cbn. by rewrite app_nil_r. Qed.

Lemma emitCleanups_spec cs : forall s,
  emitCleanups cs s = Ok (tt, with_B (B s ++ fired cs) s).
Proof.
  induction cs as [|c cs IH]; intros s.
  { cbn. by rewrite with_B_id. }
  cbn [emitCleanups]. unfold bind, emitCleanup.
  destruct c as [[v|b] [|]]; cbn; rewrite IH; unfold fired; cbn;
    by rewrite <- ?app_assoc.
Qed.

Lemma popScope_spec pre newC s :
  Cleanups s = pre ++ newC ->
  popScope (length pre) s
  = Ok (tt, with_B (B s ++ fired (rev newC)) (with_Cleanups pre s)).
Proof.
  intros HC. unfold popScope. rewrite emitCleanups_spec, HC.
  by rewrite drop_app_length, take_app_length.
Qed.

Lemma debugOrdinals_fired cs : debugOrdinals (fired cs) = [].
Proof.
  unfold fired. induction (List.filter isActive cs) as [|c l IH]; [done|]. cbn. done.
Qed.

Lemma debugOrdinals_debugValueOf PD argrv argNo :
  debugOrdinals [debugValueOf PD argrv argNo] = [argNo].
Proof. unfold debugValueOf. by destruct (isAddress _). Qed.

Section Anonymous.
Variable SGM : SILGenModule.

Lemma makeArgument_Visited ty l ps s mv ps' s' :
  ArgumentInitHelper.makeArgument SGM ty l ps s = Ok (mv, ps', s') ->
  Visited SGM l (leaves (argumentType SGM ty)) ps s mv ps' s'.
Proof. apply visit_Visited. Qed.

Lemma emitDiscardedParam_spec type paramLoc PD ArgNo ps s ps' s' :
  ArgumentInitHelper.emitDiscardedParam SGM type paramLoc PD ArgNo ps s = Ok (ps', s') ->
  exists argrv s1 newC,
    ArgumentInitHelper.makeArgument SGM type paramLoc ps s = Ok (argrv, ps', s1)
    /\ Cleanups s1 = Cleanups s ++ newC
    /\ Cleanups s' = Cleanups s
    /\ VarLocs s' = VarLocs s1
    /\ F_parameters s' = F_parameters s1
    /\ F_arguments s' = F_arguments s1
    /\ B s' = B s1
              ++ match PD with
                 | Some PD => [debugValueOf PD argrv ArgNo]
                 | None => []
                 end
              ++ fired (rev newC).
Proof.
  unfold ArgumentInitHelper.emitDiscardedParam. intros Hrun.
  apply bind_Ok in Hrun as (depth & s0 & Hopen & Hrun).
  unfold openScope in Hopen. simplify_eq.
  apply bind_Ok in Hrun as ([argrv ps1] & s1 & Hmake & Hrun).
  pose proof (makeArgument_Visited _ _ _ _ _ _ _ Hmake) as [_ _ _ _ _ (newC & HC & _) _].
  exists argrv, s1, newC.
  destruct PD as [PD|].
  - apply bind_Ok in Hrun as ([] & s2 & Hdbg & Hrun).
    apply bind_Ok in Hrun as ([] & s3 & Hpop & Hret).
    unfold ret in Hret. simplify_eq.
    assert (s2 = with_B (B s1 ++ [debugValueOf PD argrv ArgNo]) s1) as ->.
    { unfold debugValueOf.
      destruct (isAddress _);
        unfold createDebugValueAddr, createDebugValue, createInst in Hdbg;
        by simplify_eq. }
    rewrite (popScope_spec (Cleanups s0) newC) in Hpop by done.
    simplify_eq. cbn. rewrite <- app_assoc. done.
  - apply bind_Ok in Hrun as ([] & s3 & Hpop & Hret).
    unfold ret in Hret. simplify_eq.
    rewrite (popScope_spec (Cleanups s0) newC) in Hpop by done.
    by simplify_eq.
Qed.

Lemma emitAnonymousParam_spec type : forall paramLoc PD ArgNo ps s ps' s',
  ArgumentInitHelper.emitAnonymousParam SGM type paramLoc PD ArgNo ps s = Ok (ps', s') ->
  F_parameters s' = F_parameters s
  /\ VarLocs s' = VarLocs s
  /\ Cleanups s' = Cleanups s
  /\ F_arguments s'
     = F_arguments s ++ map (leafArgument SGM paramLoc) (anonymousLeaves SGM type)
  /\ (exists consumed,
        ps = consumed ++ ps'
        /\ Forall2 (compatible SGM) (anonymousLeaves SGM type) consumed)
  /\ exists newB,
       B s' = B s ++ newB
       /\ debugOrdinals newB
          = match PD with
            | Some _ => if isSplit SGM type then [] else [ArgNo]
            | None => []
            end.
Proof.
  assert (forall type paramLoc PD ArgNo ps s ps' s',
    ArgumentInitHelper.emitDiscardedParam SGM type paramLoc PD ArgNo ps s = Ok (ps', s') ->
    F_parameters s' = F_parameters s
    /\ VarLocs s' = VarLocs s
    /\ Cleanups s' = Cleanups s
    /\ F_arguments s'
       = F_arguments s ++ map (leafArgument SGM paramLoc) (leaves (argumentType SGM type))
    /\ (exists consumed,
          ps = consumed ++ ps'
          /\ Forall2 (compatible SGM) (leaves (argumentType SGM type)) consumed)
    /\ exists newB,
         B s' = B s ++ newB
         /\ debugOrdinals newB = match PD with Some _ => [ArgNo] | None => [] end)
    as Hdiscard.
  { clear. intros type paramLoc PD ArgNo ps s ps' s' Hrun.
    apply emitDiscardedParam_spec in Hrun
      as (argrv & s1 & newC & Hmake & HC & HC' & Hv & Hp & Ha & HB).
    apply makeArgument_Visited in Hmake as [Hp1 Hv1 Ha1 Hcons (newB & HB1 & Hd) _ _].
    repeat split; try congruence; try done.
    eexists. rewrite HB, HB1, <- app_assoc. split; [done|].
    rewrite !debugOrdinals_app, Hd, debugOrdinals_fired, app_nil_r.
    destruct PD; [apply debugOrdinals_debugValueOf|done]. }
  induction type as [ | | | | | | |elts IH] using CanType_nested_ind;
    intros paramLoc PD ArgNo ps s ps' s' Hrun;
    try (cbn [ArgumentInitHelper.emitAnonymousParam] in Hrun;
         apply Hdiscard in Hrun; unfold anonymousLeaves; cbn [anonymousParts flat_map isSplit];
         rewrite app_nil_r; exact Hrun).
  cbn [ArgumentInitHelper.emitAnonymousParam] in Hrun.
  unfold anonymousLeaves. cbn [anonymousParts isSplit].
  destruct (negb (isMaterializable SGM (TupleType elts))).
  2:{ apply Hdiscard in Hrun. cbn [flat_map]. rewrite app_nil_r. exact Hrun. }
  assert (exists newB, B s' = B s ++ newB /\ debugOrdinals newB = []
          /\ F_parameters s' = F_parameters s
          /\ VarLocs s' = VarLocs s
          /\ Cleanups s' = Cleanups s
          /\ F_arguments s'
             = F_arguments s
               ++ map (leafArgument SGM paramLoc)
                      (flat_map (anonymousLeaves SGM) elts)
          /\ exists consumed,
               ps = consumed ++ ps'
               /\ Forall2 (compatible SGM) (flat_map (anonymousLeaves SGM) elts) consumed)
    as (newB & HB & Hd & Hp & Hv & HC & Ha & Hcons).
  { clear Hdiscard. revert ps s Hrun.
    induction IH as [|t elts Ht _ IHelts]; intros ps s Hrun.
    - cbn in Hrun. unfold ret in Hrun. simplify_eq.
      exists []. rewrite !app_nil_r. repeat split; try done.
      exists []. split; [done|constructor].
    - cbn [forEach] in Hrun. apply bind_Ok in Hrun as (ps1 & s1 & Hfirst & Hrun).
      apply Ht in Hfirst as (Hp1 & Hv1 & HC1 & Ha1 & (c1 & -> & Hc1) & (newB1 & HB1 & Hd1)).
      apply IHelts in Hrun
        as (newB2 & HB2 & Hd2 & Hp2 & Hv2 & HC2 & Ha2 & (c2 & -> & Hc2)).
      exists (newB1 ++ newB2). rewrite HB2, HB1, app_assoc, debugOrdinals_app, Hd1, Hd2.
      repeat split; try congruence.
      + rewrite Ha2, Ha1. cbn [flat_map]. by rewrite map_app, app_assoc.
      + exists (c1 ++ c2). rewrite app_assoc. split; [done|].
        cbn [flat_map]. by apply Forall2_app. }
  assert (flat_map (fun part => leaves (argumentType SGM part))
                   (flat_map (anonymousParts SGM) elts)
          = flat_map (anonymousLeaves SGM) elts) as ->.
  { clear. induction elts as [|t elts IH]; [done|].
    cbn [flat_map]. rewrite flat_map_app, IH. done. }
  repeat split; try done.
  exists newB. split; [done|]. by destruct PD.
Qed.

End Anonymous.

Section Unnamed.
Variable SGM : SILGenModule.

Lemma popScope_total depth s : exists s', popScope depth s = Ok (tt, s').
Proof. unfold popScope. rewrite emitCleanups_spec. by eexists. Qed.

Lemma emitDiscardedParam_total type paramLoc PD ArgNo consumed rest s :
  Forall2 (compatible SGM) (leaves (argumentType SGM type)) consumed ->
  exists s',
    ArgumentInitHelper.emitDiscardedParam SGM type paramLoc PD ArgNo (consumed ++ rest) s
    = Ok (rest, s').
Proof.
  intros Hcompat. unfold ArgumentInitHelper.emitDiscardedParam.
  unfold bind at 1, openScope at 1.
  destruct (visit_total SGM paramLoc true (argumentType SGM type) consumed rest s Hcompat)
    as (argrv & s1 & Hvisit).
  unfold ArgumentInitHelper.makeArgument. fold (argumentType SGM type).
  rewrite (bind_Ok_intro _ _ _ _ _ Hvisit).
  destruct PD as [PD|].
  - destruct (isAddress _);
      unfold bind at 1, createDebugValueAddr, createDebugValue, createInst;
      match goal with
      | |- exists _, bind (popScope ?d) _ ?st = _ =>
          destruct (popScope_total d st) as (s' & Hpop)
      end;
      rewrite (bind_Ok_intro _ _ _ _ _ Hpop); by eexists.
  - destruct (popScope_total (length (Cleanups s)) s1) as (s' & Hpop).
    rewrite (bind_Ok_intro _ _ _ _ _ Hpop). by eexists.
Qed.

Lemma emitAnonymousParam_total type : forall paramLoc PD ArgNo consumed rest s,
  Forall2 (compatible SGM) (anonymousLeaves SGM type) consumed ->
  exists s',
    ArgumentInitHelper.emitAnonymousParam SGM type paramLoc PD ArgNo (consumed ++ rest) s
    = Ok (rest, s').
Proof.
  induction type as [ | | | | | | |elts IH] using CanType_nested_ind;
    intros paramLoc PD ArgNo consumed rest s Hcompat;
    try (cbn [ArgumentInitHelper.emitAnonymousParam];
         apply emitDiscardedParam_total;
         unfold anonymousLeaves in Hcompat; cbn [anonymousParts flat_map] in Hcompat;
         by rewrite app_nil_r in Hcompat).
  cbn [ArgumentInitHelper.emitAnonymousParam].
  unfold anonymousLeaves in Hcompat. cbn [anonymousParts] in Hcompat.
  destruct (negb (isMaterializable SGM (TupleType elts))).
  2:{ apply emitDiscardedParam_total. cbn [flat_map] in Hcompat.
      by rewrite app_nil_r in Hcompat. }
  assert (flat_map (fun part => leaves (argumentType SGM part))
                   (flat_map (anonymousParts SGM) elts)
          = flat_map (anonymousLeaves SGM) elts) as Heq.
  { clear. induction elts as [|t elts IH]; [done|].
    cbn [flat_map]. rewrite flat_map_app, IH. done. }
  rewrite Heq in Hcompat. clear Heq.
  revert consumed s Hcompat.
  induction IH as [|t elts Ht _ IHelts]; intros consumed s Hcompat.
  - apply Forall2_nil_inv_l in Hcompat as ->. by eexists.
  - cbn [flat_map] in Hcompat.
    apply Forall2_app_inv_l in Hcompat as (c1 & c2 & Hc1 & Hc2 & ->).
    cbn [forEach]. rewrite <- app_assoc.
    destruct (Ht paramLoc None ArgNo c1 (c2 ++ rest) s Hc1) as (s1 & Hfirst).
    rewrite (bind_Ok_intro _ _ _ _ _ Hfirst). by apply IHelts.
Qed.




End Unnamed.

(** ** Named parameters and the parameter loop *)

Section Params.
Variable SGM : SILGenModule.

Lemma makeArgumentIntoBinding_spec ty vd this s this' s' :
  ArgumentInitHelper.makeArgumentIntoBinding SGM ty vd this s = Ok (this', s') ->
  ArgumentInitHelper.getNumArgs this' = ArgumentInitHelper.getNumArgs this
  /\ F_parameters s' = F_parameters s
  /\ F_arguments s'
     = F_arguments s
       ++ map (leafArgument SGM (Some (SourceDecl vd))) (leaves (argumentType SGM ty))
  /\ (exists consumed,
        ArgumentInitHelper.parameters this
        = consumed ++ ArgumentInitHelper.parameters this'
        /\ Forall2 (compatible SGM) (leaves (argumentType SGM ty)) consumed)
  /\ (exists newB,
        B s' = B s ++ newB
        /\ debugOrdinals newB = [ArgumentInitHelper.getNumArgs this])
  /\ exists newC,
       Cleanups s' = Cleanups s ++ newC
       /\ Forall (fun c => notAmongFirst (length (F_arguments s)) (cleanupValue c)) newC.
Proof.
  unfold ArgumentInitHelper.makeArgumentIntoBinding. intros Hrun.
  apply bind_Ok in Hrun as ([argrv ps1] & s1 & Hmake & Hrun).
  apply makeArgument_Visited in Hmake
    as [Hp Hv Ha Hcons (newB & HB & Hd) HC _].
  cbv zeta in Hrun.
  assert (this' = ArgumentInitHelper.mk ps1 (ArgumentInitHelper.getNumArgs this)
          /\ F_parameters s' = F_parameters s1
          /\ F_arguments s' = F_arguments s1
          /\ Cleanups s' = Cleanups s1
          /\ exists newB', B s' = B s1 ++ newB'
               /\ debugOrdinals newB' = [ArgumentInitHelper.getNumArgs this])
    as (-> & Hp' & Ha' & HC' & newB' & HB' & Hd').
  { clear -Hrun. run_inv Hrun; cbn; repeat split;
      rewrite <- ?app_assoc; by eexists. }
  cbn. repeat split; try congruence.
  - exists (newB ++ newB'). rewrite HB', HB, app_assoc. split; [done|].
    by rewrite debugOrdinals_app, Hd, Hd'.
  - by rewrite HC'.
Qed.

End Params.

Section ParamLoop.
Variable SGM : SILGenModule.

Lemma emitParam_spec PD this s this' s' :
  ArgumentInitHelper.emitParam SGM PD this s = Ok (this', s') ->
  ParamsEmitted SGM (paramArguments SGM PD) (paramLeaves SGM PD)
    (if showsDebugValue SGM PD then [S (ArgumentInitHelper.getNumArgs this)] else [])
    1 this s this' s'.
Proof.
  unfold ArgumentInitHelper.emitParam, paramArguments, paramLeaves, showsDebugValue.
  intros Hrun. destruct (hasName PD).
  - apply makeArgumentIntoBinding_spec in Hrun as (Hn & Hp & Ha & Hcons & HB & HC).
    cbn in *. constructor; try done. lia.
  - apply bind_Ok in Hrun as (ps1 & s1 & Hanon & Hret). unfold ret in Hret. simplify_eq.
    apply emitAnonymousParam_spec in Hanon as (Hp & Hv & HC & Ha & Hcons & HB).
    cbn in *. constructor; cbn; try done.
    + lia.
    + by destruct (isSplit SGM (getType PD)).
    + exists []. by rewrite app_nil_r.
Qed.

Lemma forEach_emitParam_spec params : forall this s this' s',
  forEach (ArgumentInitHelper.emitParam SGM) params this s = Ok (this', s') ->
  ParamsEmitted SGM (flat_map (paramArguments SGM) params)
    (flat_map (paramLeaves SGM) params)
    (paramOrdinals SGM params (ArgumentInitHelper.getNumArgs this))
    (length params) this s this' s'.
Proof.
  induction params as [|PD params IH]; intros this s this' s' Hrun.
  { cbn in Hrun. unfold ret in Hrun. simplify_eq. split; cbn.
    - lia.
    - done.
    - by rewrite app_nil_r.
    - exists []. split; [done|constructor].
    - exists []. by rewrite app_nil_r.
    - exists []. by rewrite app_nil_r. }
  cbn [forEach] in Hrun. apply bind_Ok in Hrun as (this1 & s1 & Hfirst & Hrun).
  apply emitParam_spec in Hfirst
    as [Hn1 Hp1 Ha1 (c1 & Hc1 & Hf1) (newB1 & HB1 & Hd1) (newC1 & HC1 & Hfr1)].
  apply IH in Hrun
    as [Hn Hp Ha (c2 & Hc2 & Hf2) (newB & HB & Hd) (newC & HC & Hfr)].
  split; cbn [flat_map paramOrdinals length].
  - lia.
  - congruence.
  - by rewrite Ha, Ha1, app_assoc.
  - exists (c1 ++ c2). rewrite Hc1, Hc2, app_assoc. split; [done|]. by apply Forall2_app.
  - exists (newB1 ++ newB). rewrite HB, HB1, app_assoc, debugOrdinals_app, Hd1, Hd.
    split; [done|]. by rewrite Hn1, Nat.add_1_r.
  - exists (newC1 ++ newC). rewrite HC, HC1, app_assoc. split; [done|].
    apply Forall_app. split; [done|].
    eapply Forall_impl; [done|]. intros c. apply notAmongFirst_le.
    rewrite Ha1, length_app. lia.
Qed.

Lemma emitProlog_spec paramLists resultType throws s n s' :
  emitProlog SGM paramLists resultType throws s = Ok (n, s') ->
  let params := concat (rev paramLists) in
  let results :=
    indirectResultArguments SGM (getCanonicalTypeInSignature SGM resultType) in
  n = length params + (if throws then 1 else 0)
  /\ F_parameters s' = F_parameters s
  /\ F_arguments s' = F_arguments s ++ results ++ flat_map (paramArguments SGM) params
  /\ (exists consumed rest,
        F_parameters s = consumed ++ rest
        /\ Forall2 (compatible SGM) (flat_map (paramLeaves SGM) params) consumed)
  /\ (exists paramInsts,
        B s' = B s ++ paramInsts
               ++ (if throws then [errorMarker SGM (S (length params))] else [])
        /\ debugOrdinals paramInsts = paramOrdinals SGM params 0)
  /\ exists newC,
       Cleanups s' = Cleanups s ++ newC
       /\ Forall (fun c => notAmongFirst (length (F_arguments s) + length results)
                                         (cleanupValue c)) newC.
Proof.
  intros Hrun params results. unfold emitProlog in Hrun.
  apply bind_Ok in Hrun as ([] & s0 & Hres & Hrun).
  rewrite emitIndirectResultParameters_spec in Hres. simplify_eq.
  apply bind_Ok in Hrun as (emitter & s1 & Hinit & Hrun). simplify_eq.
  apply bind_Ok in Hrun as (emitter' & s2 & Hloop & Hrun).
  rewrite forEach_concat in Hloop.
  apply forEach_emitParam_spec in Hloop
    as [Hn Hp Ha (consumed & Hc & Hf) (newB & HB & Hd) (newC & HC & Hfr)].
  fold params in Hn, Ha, Hf, Hd. cbn in Hn, Hp, Ha, Hc, HB, HC, Hfr, Hd.
  fold results in Ha, Hfr.
  destruct throws; run_inv Hrun; cbn.
  - repeat split; try done.
    + lia.
    + by rewrite Ha, app_assoc.
    + by eexists _, _.
    + exists newB. by rewrite HB, Hn, <- app_assoc.
    + exists newC. split; [done|]. by rewrite length_app in Hfr.
  - repeat split; try done.
    + lia.
    + by rewrite Ha, app_assoc.
    + by eexists _, _.
    + exists newB. by rewrite HB, app_nil_r.
    + exists newC. split; [done|]. by rewrite length_app in Hfr.
Qed.

End ParamLoop.

Section ParamTotality.
Variable SGM : SILGenModule.

Lemma makeArgumentIntoBinding_total ty vd this consumed rest s :
  ArgumentInitHelper.parameters this = consumed ++ rest ->
  Forall2 (compatible SGM) (leaves (argumentType SGM ty)) consumed ->
  (if isInOut vd
   then isBuiltinUnsafeValueBufferType
          (getCanonicalType SGM (getInOutObjectType (getType vd)))
        || isAddress (managedType SGM (argumentType SGM ty))
   else match ty with
        | MetatypeType _ => true
        | _ => isLet vd || isShared vd
        end) = true ->
  exists s',
    ArgumentInitHelper.makeArgumentIntoBinding SGM ty vd this s
    = Ok (ArgumentInitHelper.mk rest (ArgumentInitHelper.getNumArgs this), s').
Proof.
  intros Hps Hcompat Hbind. unfold ArgumentInitHelper.makeArgumentIntoBinding.
  rewrite Hps.
  destruct (visit_total SGM (Some (SourceDecl vd)) true (argumentType SGM ty)
              consumed rest s Hcompat) as (argrv & s1 & Hvisit).
  pose proof (visit_managedType _ _ _ _ _ _ _ _ _ Hvisit) as Hty.
  unfold ArgumentInitHelper.makeArgument. fold (argumentType SGM ty).
  rewrite (bind_Ok_intro _ _ _ _ _ Hvisit). cbv zeta.
  assert (forall argrv s,
    exists s',
      (run setVarLoc vd (VarLoc_get (getValue argrv) None);
       run (if isAddress (getValueType (getValue argrv))
            then createDebugValueAddr (getValue argrv)
                   (debugVariable (isLet vd) (ArgumentInitHelper.getNumArgs this))
            else createDebugValue (getValue argrv)
                   (debugVariable (isLet vd) (ArgumentInitHelper.getNumArgs this)));
       ret (ArgumentInitHelper.mk rest (ArgumentInitHelper.getNumArgs this))) s
      = Ok (ArgumentInitHelper.mk rest (ArgumentInitHelper.getNumArgs this), s'))
    as HbindValue.
  { clear. intros argrv s. unfold bind, setVarLoc, ret.
    destruct (isAddress _); unfold createDebugValueAddr, createDebugValue, createInst;
      by eexists. }
  destruct (isInOut vd).
  - destruct (isBuiltinUnsafeValueBufferType _).
    + unfold bind, setVarLoc, createDebugValueAddr, createInst, ret. by eexists.
    + cbn [orb] in Hbind. rewrite Hty, Hbind. cbn [assert].
      unfold bind, setVarLoc, createDebugValueAddr, createInst, ret. by eexists.
  - destruct ty; try (rewrite Hbind; cbn [assert]; unfold bind at 1, ret at 1;
                      apply HbindValue).
    destruct (isDynamicSelfType _); [|apply HbindValue].
    destruct (negb _); [|apply HbindValue].
    unfold bind at 1, createUncheckedBitCast, createValue. apply HbindValue.
Qed.

Lemma emitParam_total PD this consumed rest s :
  ArgumentInitHelper.parameters this = consumed ++ rest ->
  Forall2 (compatible SGM) (paramLeaves SGM PD) consumed ->
  bindable SGM PD = true ->
  exists s',
    ArgumentInitHelper.emitParam SGM PD this s
    = Ok (ArgumentInitHelper.mk rest (S (ArgumentInitHelper.getNumArgs this)), s').
Proof.
  intros Hps Hcompat Hbind. unfold ArgumentInitHelper.emitParam, paramLeaves, bindable in *.
  destruct (hasName PD); cbn [negb orb] in Hbind.
  - by apply (makeArgumentIntoBinding_total _ _
                (ArgumentInitHelper.mk _ _) consumed rest).
  - cbn [ArgumentInitHelper.parameters ArgumentInitHelper.getNumArgs]. rewrite Hps.
    destruct (emitAnonymousParam_total SGM (getType PD) (Some (SourceDecl PD)) (Some PD)
                (S (ArgumentInitHelper.getNumArgs this)) consumed rest s Hcompat)
      as (s' & Hrun).
    rewrite (bind_Ok_intro _ _ _ _ _ Hrun). by eexists.
Qed.

Lemma forEach_emitParam_total params : forall this consumed rest s,
  ArgumentInitHelper.parameters this = consumed ++ rest ->
  Forall2 (compatible SGM) (flat_map (paramLeaves SGM) params) consumed ->
  Forall (fun PD => bindable SGM PD = true) params ->
  exists this' s',
    forEach (ArgumentInitHelper.emitParam SGM) params this s = Ok (this', s').
Proof.
  induction params as [|PD params IH]; intros this consumed rest s Hps Hcompat Hbind.
  { by eexists _, _. }
  cbn [flat_map] in Hcompat.
  apply Forall2_app_inv_l in Hcompat as (c1 & c2 & Hc1 & Hc2 & ->).
  apply Forall_cons in Hbind as [Hb Hbind].
  rewrite <- app_assoc in Hps.
  destruct (emitParam_total PD this c1 (c2 ++ rest) s Hps Hc1 Hb) as (s1 & Hfirst).
  cbn [forEach]. rewrite (bind_Ok_intro _ _ _ _ _ Hfirst).
  by apply (IH _ c2 rest).
Qed.

Lemma emitProlog_total paramLists resultType throws parameters rest s :
  F_parameters s = parameters ++ rest ->
  Forall2 (compatible SGM) (flat_map (paramLeaves SGM) (concat (rev paramLists)))
          parameters ->
  Forall (fun PD => bindable SGM PD = true) (concat (rev paramLists)) ->
  exists n s', emitProlog SGM paramLists resultType throws s = Ok (n, s').
Proof.
  intros Hps Hcompat Hbind. unfold emitProlog.
  unfold bind at 1. rewrite emitIndirectResultParameters_spec.
  unfold bind at 1. cbn [F_parameters with_arguments].
  match goal with
  | |- context [bind (forEach _ _ ?this) _ ?st] =>
      destruct (forEach_emitParam_total (concat (rev paramLists)) this parameters rest st)
        as (this' & s1 & Hloop); [done|done|done|]
  end.
  rewrite <- forEach_concat in Hloop.
  rewrite (bind_Ok_intro _ _ _ _ _ Hloop).
  destruct throws; [|by eexists _, _].
  unfold bind, emitUndef, createDebugValue, createInst, ret. by eexists _, _.
Qed.

End ParamTotality.

(** ** Captures *)

(** Runs [emitCaptureArguments] forward, on a capture whose kind and flags
    are known. *)
Ltac run_capture :=
  unfold bind, ret, createFunctionArgument, emitTemporaryAllocation,
    createCopyValue, createValue, createInst, setVarLoc, setArgNoOfAllocStack,
    createDebugValue, createDebugValueAddr, createProjectBox,
    enterDestroyCleanup, pushCleanup; cbn;
  rewrite <- ?app_assoc; cbn [app];
  rewrite ?list_lookup_middle by done; cbn;
  rewrite ?insert_app_r_alt, ?Nat.sub_diag by done; cbn;
  (eexists; split; [reflexivity|]); cbn;
  rewrite ?app_nil_r, ?length_app; cbn [length]; rewrite ?Nat.add_1_r.

Section ByValue.
Variable SGM : SILGenModule.

(** C6, amended.  A by-value capture arrives as one new entry-block
    argument, and its lowering always returns.  If the captured binding is
    settable, a stack cell is allocated (it carries the argument number),
    the argument -- in guaranteed-context mode a fresh copy of it -- is
    stored into the cell, and the variable is bound to the address of the
    cell; a release cleanup of the cell is registered unless the lowering
    is trivial, in either mode.  Otherwise the variable is bound to the
    argument itself, which gets a [debug_value], and a release cleanup of
    the argument is registered exactly when the module is not in
    guaranteed-context mode and the lowering is not trivial. *)
Theorem emitCaptureArguments_by_value
    (closure : nat) (capture : CapturedValue) (ArgNo : nat) (s : SILGenFunction) :
  getDeclCaptureKind SGM capture = CaptureKind.Constant ->
  let VD := getCapturedDecl capture in
  let lowering := getTypeLowering SGM (mapTypeIntoContext SGM (getInterfaceType VD)) in
  let ty := TypeLowering.getLoweredType lowering in
  let arg := mkSILValue (FunctionArgument (length (F_arguments s))) ty in
  let guaranteed := EnableGuaranteedClosureContexts SGM in
  exists s',
    emitCaptureArguments SGM closure capture ArgNo s = Ok (tt, s')
    /\ F_arguments s' = F_arguments s ++ [mkSILArgument ty (Some (SourceDecl VD))]
    /\ F_parameters s' = F_parameters s
    /\ if isSettable VD
       then
         let cell := mkSILValue (InstructionResult (length (B s))) (getAddressType ty) in
         let copy := mkSILValue (InstructionResult (S (length (B s)))) ty in
         VarLocs s' = <[declID VD := VarLoc_get cell None]> (VarLocs s)
         /\ B s' = B s
                   ++ AllocStackInst (mkSILType (getSwiftRValueType ty) Object) ArgNo
                   :: (if guaranteed
                       then [CopyValueInst arg; StoreInst copy cell]
                       else [StoreInst arg cell])
         /\ Cleanups s' = Cleanups s
                          ++ (if TypeLowering.isTrivial lowering then []
                              else [releaseOf cell])
       else
         VarLocs s' = <[declID VD := VarLoc_get arg None]> (VarLocs s)
         /\ B s' = B s ++ [DebugValueInst arg (debugVariable true ArgNo)]
         /\ Cleanups s' = Cleanups s
                          ++ (if negb guaranteed && negb (TypeLowering.isTrivial lowering)
                              then [releaseOf arg] else []).
Proof.
  intros Hkind VD lowering ty arg guaranteed.
  subst VD lowering ty arg guaranteed.
  unfold emitCaptureArguments. rewrite Hkind.
  destruct (isSettable _), (EnableGuaranteedClosureContexts SGM),
    (TypeLowering.isTrivial _); run_capture; done.
Qed.

End ByValue.

Section Captures.
Variable SGM : SILGenModule.

Lemma emitCaptureArguments_spec closure capture n s :
  exists s',
    emitCaptureArguments SGM closure capture (S n) s = Ok (tt, s')
    /\ F_parameters s' = F_parameters s
    /\ (exists newA,
          F_arguments s' = F_arguments s ++ newA
          /\ length newA = if materializesArgument SGM capture then 1 else 0)
    /\ (exists newB,
          B s' = B s ++ newB
          /\ debugOrdinals newB = if materializesArgument SGM capture then [S n] else [])
    /\ exists newC,
         Cleanups s' = Cleanups s ++ newC
         /\ Forall (fun c => notAmongFirst (length (F_arguments s)) (cleanupValue c)) newC.
Proof.
  unfold emitCaptureArguments, materializesArgument.
  destruct (getDeclCaptureKind SGM capture).
  - exists s. split; [done|]. repeat split.
    + exists []. by rewrite app_nil_r.
    + exists []. by rewrite app_nil_r.
    + exists []. by rewrite app_nil_r.
  - destruct (isSettable _), (EnableGuaranteedClosureContexts SGM),
      (TypeLowering.isTrivial _); run_capture;
      (split; [done|]); (split; [by eexists [_]|]); (split; [by eexists|]);
      solve [ exists []; by rewrite app_nil_r
            | eexists [_]; split; [done|]; by repeat constructor ].
  - destruct (EnableGuaranteedClosureContexts SGM); run_capture;
      (split; [done|]); (split; [by eexists [_]|]); (split; [by eexists|]);
      solve [ exists []; by rewrite app_nil_r
            | eexists [_]; split; [done|]; repeat constructor; cbn; lia ].
  - run_capture.
    (split; [done|]); (split; [by eexists [_]|]); (split; [by eexists|]).
    exists []. by rewrite app_nil_r.
Qed.

Lemma emitCaptures_spec closure info captures : forall n s,
  exists s',
    emitCaptures SGM closure info captures n s = Ok (tt, s')
    /\ F_parameters s' = F_parameters s
    /\ (exists newA,
          F_arguments s' = F_arguments s ++ newA
          /\ length newA = captureArgumentCount SGM captures)
    /\ (exists newB,
          B s' = B s ++ newB
          /\ debugOrdinals newB = captureOrdinals SGM captures n)
    /\ exists newC,
         Cleanups s' = Cleanups s ++ newC
         /\ Forall (fun c => notAmongFirst (length (F_arguments s)) (cleanupValue c)) newC.
Proof.
  induction captures as [|capture rest IH]; intros n s.
  { exists s. split; [done|]. repeat split; exists []; by rewrite app_nil_r. }
  cbn [emitCaptures captureArgumentCount captureOrdinals].
  destruct (isDynamicSelfMetadata capture).
  - unfold bind, createFunctionArgument, ret. eexists. split; [reflexivity|]. cbn.
    repeat split.
    + by eexists [_].
    + exists []. by rewrite app_nil_r.
    + exists []. by rewrite app_nil_r.
  - destruct (emitCaptureArguments_spec closure capture n s)
      as (s1 & Hrun1 & Hp1 & (newA1 & Ha1 & Hl1) & (newB1 & HB1 & Hd1)
          & (newC1 & HC1 & Hf1)).
    destruct (IH (S n) s1)
      as (s' & Hrun & Hp & (newA & Ha & Hl) & (newB & HB & Hd) & (newC & HC & Hf)).
    exists s'. split; [by rewrite (bind_Ok_intro _ _ _ _ _ Hrun1)|].
    repeat split.
    + congruence.
    + exists (newA1 ++ newA). rewrite Ha, Ha1, app_assoc, length_app. split; [done|lia].
    + exists (newB1 ++ newB). rewrite HB, HB1, app_assoc, debugOrdinals_app.
      split; [done|]. by rewrite Hd1, Hd.
    + exists (newC1 ++ newC). rewrite HC, HC1, app_assoc. split; [done|].
      apply Forall_app. split; [done|].
      eapply Forall_impl; [done|]. intros c. apply notAmongFirst_le.
      rewrite Ha1, length_app. lia.
Qed.

Lemma emitCaptures_at_dynamic_self closure info pre post capture :
  Forall (fun c => isDynamicSelfMetadata c = false) pre ->
  isDynamicSelfMetadata capture = true ->
  forall n s,
    exists s1 s',
      emitCaptures SGM closure info pre n s = Ok (tt, s1)
      /\ emitCaptures SGM closure info (pre ++ capture :: post) n s = Ok (tt, s')
      /\ s' = with_arguments
                (F_arguments s1
                 ++ [mkSILArgument
                       (getLoweredType SGM (MetatypeType (getDynamicSelfType info)))
                       None]) s1.
Proof.
  intros Hpre Hflag.
  induction Hpre as [|c pre Hc _ IH]; intros n s.
  - exists s. cbn [app emitCaptures]. rewrite Hflag.
    unfold bind, createFunctionArgument, ret. eexists. split; [reflexivity|].
    split; reflexivity.
  - cbn [app emitCaptures]. rewrite Hc.
    destruct (emitCaptureArguments_spec closure c n s) as (s2 & Hfirst & _).
    destruct (IH (S n) s2) as (s1 & s' & Hpre' & Hrun & Hs').
    exists s1, s'. by rewrite !(bind_Ok_intro _ _ _ _ _ Hfirst).
Qed.

(** C7.  When a capture record is flagged as the dynamic-self-type metadata
    of the enclosing context, the capture loop stops at it: the prologue of
    the closure is the one of the same closure with only the captures up to
    and including the flagged one, whatever the records after it are.  And
    the record is bound specially: when it is the first flagged record and
    the prologue of the parameter lists returns, the prologue of the closure
    returns, and its final state is the state reached after the records
    before the flagged one with exactly one more entry-block argument, of
    the lowered metatype of the dynamic self type and for no declaration;
    no variable is bound, no instruction is emitted and no cleanup is
    registered for the flagged record or for any record after it. *)
Theorem emitProlog_stops_at_dynamic_self
    (TheClosure : nat) (paramPatterns : list (list VarDecl)) (resultType : CanType)
    (throws : bool) (pre post : list CapturedValue) (capture : CapturedValue)
    (s : SILGenFunction) :
  getCaptures (getLoweredLocalCaptures SGM TheClosure) = pre ++ capture :: post ->
  isDynamicSelfMetadata capture = true ->
  let captureInfo := getLoweredLocalCaptures SGM TheClosure in
  emitPrologOfClosure SGM TheClosure paramPatterns resultType throws s
  = bind (emitProlog SGM paramPatterns resultType throws)
         (emitCaptures SGM TheClosure captureInfo (pre ++ [capture])) s
  /\ (Forall (fun c => isDynamicSelfMetadata c = false) pre ->
      forall ArgNo s1,
        emitProlog SGM paramPatterns resultType throws s = Ok (ArgNo, s1) ->
        exists s2 s',
          emitCaptures SGM TheClosure captureInfo pre ArgNo s1 = Ok (tt, s2)
          /\ emitPrologOfClosure SGM TheClosure paramPatterns resultType throws s
             = Ok (tt, s')
          /\ F_arguments s'
             = F_arguments s2
               ++ [mkSILArgument
                     (getLoweredType SGM (MetatypeType (getDynamicSelfType captureInfo)))
                     None]
          /\ VarLocs s' = VarLocs s2
          /\ Cleanups s' = Cleanups s2
          /\ B s' = B s2
          /\ F_parameters s' = F_parameters s2).
Proof.
  intros Hcaptures Hflag captureInfo. subst captureInfo. split.
  - unfold emitPrologOfClosure. rewrite Hcaptures.
    unfold bind. destruct (emitProlog _ _ _ _ s) as [[ArgNo s1]|e]; [|done].
    clear Hcaptures. generalize (getLoweredLocalCaptures SGM TheClosure). intros info.
    revert ArgNo s1. induction pre as [|c pre IH]; intros ArgNo s1.
    + cbn. by rewrite Hflag.
    + cbn [app emitCaptures]. destruct (isDynamicSelfMetadata c); [done|].
      unfold bind. destruct (emitCaptureArguments _ _ _ _ s1) as [[[] s2]|e]; [|done].
      apply IH.
  - intros Hpre ArgNo s1 Hprolog.
    destruct (emitCaptures_at_dynamic_self TheClosure
                (getLoweredLocalCaptures SGM TheClosure) pre post capture Hpre Hflag
                ArgNo s1) as (s2 & s' & Hrun2 & Hrun & ->).
    exists s2, (with_arguments
                  (F_arguments s2
                   ++ [mkSILArgument
                         (getLoweredType SGM
                            (MetatypeType
                               (getDynamicSelfType
                                  (getLoweredLocalCaptures SGM TheClosure))))
                         None]) s2).
    split; [done|]. split; [|done].
    unfold emitPrologOfClosure. rewrite (bind_Ok_intro _ _ _ _ _ Hprolog).
    by rewrite Hcaptures.
Qed.

(** C10.  When the capture loop reaches a record flagged as the
    dynamic-self-type metadata, it creates one entry-block argument, of the
    lowered metatype of the dynamic self type and for no declaration, and
    nothing else: seen from the state [s1] that the loop reaches after the
    records before it, the variable-location table, the cleanup stack and
    the instruction stream are unchanged. *)
Theorem dynamic_self_capture_binds_nothing
    (TheClosure : nat) (captureInfo : CaptureInfo) (pre post : list CapturedValue)
    (capture : CapturedValue) (ArgNo : nat) (s : SILGenFunction) :
  Forall (fun c => isDynamicSelfMetadata c = false) pre ->
  isDynamicSelfMetadata capture = true ->
  exists s1 s',
    emitCaptures SGM TheClosure captureInfo pre ArgNo s = Ok (tt, s1)
    /\ emitCaptures SGM TheClosure captureInfo (pre ++ capture :: post) ArgNo s
       = Ok (tt, s')
    /\ F_arguments s'
       = F_arguments s1
         ++ [mkSILArgument
               (getLoweredType SGM (MetatypeType (getDynamicSelfType captureInfo)))
               None]
    /\ VarLocs s' = VarLocs s1
    /\ Cleanups s' = Cleanups s1
    /\ B s' = B s1
    /\ F_parameters s' = F_parameters s1.
Proof.
  intros Hpre Hflag. revert ArgNo s.
  induction Hpre as [|c pre Hc _ IH]; intros ArgNo s.
  - exists s. cbn [app emitCaptures]. rewrite Hflag.
    unfold bind, createFunctionArgument, ret. eexists. split; [reflexivity|].
    split; [reflexivity|]. done.
  - cbn [app emitCaptures]. rewrite Hc.
    destruct (emitCaptureArguments_spec TheClosure c ArgNo s) as (s2 & Hfirst & _).
    destruct (IH (S ArgNo) s2) as (s1 & s' & Hpre' & Hrun & Hrest).
    exists s1, s'. by rewrite !(bind_Ok_intro _ _ _ _ _ Hfirst).
Qed.

End Captures.

(** ** The prologue as a whole *)

Lemma leaves_scalar t : isScalarType t = true -> leaves t = [t].
Proof. by destruct t. Qed.

Lemma isSplit_scalar SGM t : isScalarType t = true -> isSplit SGM t = false.
Proof. by destruct t. Qed.

Lemma anonymousParts_scalar SGM t : isScalarType t = true -> anonymousParts SGM t = [t].
Proof. by destruct t. Qed.

Lemma isScalarParam_leaves SGM PD :
  isScalarParam SGM PD = true ->
  paramLeaves SGM PD = [argumentType SGM (getType PD)]
  /\ showsDebugValue SGM PD = true.
Proof.
  unfold isScalarParam, paramLeaves, showsDebugValue, anonymousLeaves.
  intros [Ht Ha]%andb_true_iff.
  rewrite (isSplit_scalar _ _ Ht), (anonymousParts_scalar _ _ Ht). cbn.
  rewrite (leaves_scalar _ Ha), orb_true_r. by destruct (hasName PD).
Qed.

Lemma scalar_params SGM params n :
  Forall (fun PD => isScalarParam SGM PD = true) params ->
  length (flat_map (paramLeaves SGM) params) = length params
  /\ paramOrdinals SGM params n = seq (S n) (length params).
Proof.
  intros Hall. revert n. induction Hall as [|PD params HPD _ IH]; intros n; [done|].
  destruct (isScalarParam_leaves _ _ HPD) as [Hl Hs].
  destruct (IH (S n)) as [IH1 IH2].
  cbn [flat_map paramOrdinals length seq]. rewrite Hl, Hs, IH2. cbn. by rewrite IH1.
Qed.

Lemma materialized_captures SGM captures n :
  Forall (fun c => isDynamicSelfMetadata c = false
                   /\ materializesArgument SGM c = true) captures ->
  captureArgumentCount SGM captures = length captures
  /\ captureOrdinals SGM captures n = seq (S n) (length captures).
Proof.
  intros Hall. revert n. induction Hall as [|c captures [Hd Hm] _ IH]; intros n; [done|].
  destruct (IH (S n)) as [IH1 IH2].
  cbn [captureArgumentCount captureOrdinals length seq]. rewrite Hd, Hm, IH1, IH2. done.
Qed.

Section Prologue.
Variable SGM : SILGenModule.

(** C4.  The indirect results.  When the lowered function type has the
    parameter infos of the leaves of the parameters, and the parameters are
    bindable, the prologue returns.  With the result type made canonical, it
    creates, before anything else, one entry-block argument for
    each scalar leaf of the tuple-expanded result type that is returned
    indirectly, in depth-first order, each for a [$return_value]
    declaration; every argument after them is for a declaration of the
    source, so no other argument is synthesized; and no cleanup that the
    prologue registers is on one of them. *)
Theorem emitProlog_indirect_results
    (paramLists : list (list VarDecl)) (resultType : CanType) (throws : bool)
    (parameters rest : list SILParameterInfo) (s : SILGenFunction) :
  let params := concat (rev paramLists) in
  F_parameters s = parameters ++ rest ->
  Forall2 (compatible SGM) (flat_map (paramLeaves SGM) params) parameters ->
  Forall (fun PD => bindable SGM PD = true) params ->
  let results :=
    map (resultArgument SGM)
        (List.filter (returnedIndirectly SGM)
                     (leaves (getCanonicalTypeInSignature SGM resultType))) in
  exists n s' explicit newC,
    emitProlog SGM paramLists resultType throws s = Ok (n, s')
    /\ F_arguments s' = F_arguments s ++ results ++ explicit
    /\ Forall (fun a => exists PD, getDecl a = Some (SourceDecl PD)) explicit
    /\ Cleanups s' = Cleanups s ++ newC
    /\ Forall (fun c => notAmongFirst (length (F_arguments s) + length results)
                                      (cleanupValue c)) newC.
Proof.
  intros params Hps Hcompat Hbind results.
  destruct (emitProlog_total SGM paramLists resultType throws parameters rest s
              Hps Hcompat Hbind) as (n & s' & Hrun).
  pose proof (emitProlog_spec _ _ _ _ _ _ _ Hrun)
    as (_ & _ & Ha & _ & _ & (newC & HC & Hfr)).
  exists n, s', (flat_map (paramArguments SGM) params), newC.
  repeat split; try done.
  apply Forall_flat_map, Forall_forall. intros PD _.
  unfold paramArguments. apply Forall_fmap, Forall_forall. intros leaf _.
  by exists PD.
Qed.

(** C5, amended.  For a throwing closure with M explicit parameters (the
    lowered function type having the parameter infos of their leaves, and
    the parameters being bindable), the prologue returns and the
    entry block receives, in this order, the indirect results, the
    arguments of the explicit parameters (one per scalar leaf; M when every
    parameter is a scalar) and the arguments of the captures (K when each of
    the K captures materializes an argument and none is the dynamic-self
    metadata).  The error-slot marker is a [debug_value] of an undefined
    value, named [$error]; no argument is created for it; it is emitted
    after the instructions of the parameters and before those of the
    captures, and carries the ordinal M+1, which is what the overload for
    parameter lists returns.  The parameters show the ordinals 1..M, and the
    captures continue after the marker with M+2..M+K+1. *)
Theorem emitProlog_throwing_entry_sequence
    (TheClosure : nat) (paramPatterns : list (list VarDecl)) (resultType : CanType)
    (parameters rest : list SILParameterInfo) (s : SILGenFunction) :
  let params := concat (rev paramPatterns) in
  let captures := getCaptures (getLoweredLocalCaptures SGM TheClosure) in
  let results :=
    indirectResultArguments SGM (getCanonicalTypeInSignature SGM resultType) in
  let M := length params in
  let K := length captures in
  F_parameters s = parameters ++ rest ->
  Forall2 (compatible SGM) (flat_map (paramLeaves SGM) params) parameters ->
  Forall (fun PD => bindable SGM PD = true) params ->
  exists s' s1 explicit captured paramInsts captureInsts,
    emitPrologOfClosure SGM TheClosure paramPatterns resultType true s = Ok (tt, s')
    /\ emitProlog SGM paramPatterns resultType true s = Ok (S M, s1)
    /\ F_arguments s1 = F_arguments s ++ results ++ explicit
    /\ F_arguments s' = F_arguments s ++ results ++ explicit ++ captured
    /\ length explicit = length (flat_map (paramLeaves SGM) params)
    /\ length captured = captureArgumentCount SGM captures
    /\ B s1 = B s ++ paramInsts ++ [errorMarker SGM (S M)]
    /\ B s' = B s ++ paramInsts ++ [errorMarker SGM (S M)] ++ captureInsts
    /\ debugOrdinals paramInsts = paramOrdinals SGM params 0
    /\ debugOrdinals captureInsts = captureOrdinals SGM captures (S M)
    /\ (Forall (fun PD => isScalarParam SGM PD = true) params ->
          length explicit = M /\ debugOrdinals paramInsts = seq 1 M)
    /\ (Forall (fun c => isDynamicSelfMetadata c = false
                         /\ materializesArgument SGM c = true) captures ->
          length captured = K /\ debugOrdinals captureInsts = seq (M + 2) K).
Proof.
  intros params captures results M K Hps Hcompat Hbind.
  destruct (emitProlog_total SGM paramPatterns resultType true parameters rest s
              Hps Hcompat Hbind) as (n & s1 & Hprolog).
  pose proof (emitProlog_spec _ _ _ _ _ _ _ Hprolog)
    as (Hn & _ & Ha1 & _ & (paramInsts & HB1 & Hd1) & _).
  fold params in Hn, Ha1, HB1, Hd1. fold results in Ha1. fold M in Hn, HB1.
  assert (n = S M) as -> by lia.
  destruct (emitCaptures_spec SGM TheClosure (getLoweredLocalCaptures SGM TheClosure)
              captures (S M) s1)
    as (s' & Hrun2 & _ & (captured & Ha2 & Hl2) & (captureInsts & HB2 & Hd2) & _).
  exists s', s1, (flat_map (paramArguments SGM) params), captured, paramInsts,
    captureInsts.
  split.
  { unfold emitPrologOfClosure. by rewrite (bind_Ok_intro _ _ _ _ _ Hprolog). }
  assert (length (flat_map (paramArguments SGM) params)
          = length (flat_map (paramLeaves SGM) params)) as Hlen.
  { clear. induction params as [|PD ps IH]; [done|].
    cbn [flat_map]. rewrite !length_app, IH. unfold paramArguments.
    by rewrite length_map. }
  repeat split; try done.
  - by rewrite Ha2, Ha1, <- !app_assoc.
  - by rewrite HB2, HB1, <- !app_assoc.
  - rewrite Hlen. by apply scalar_params.
  - rewrite Hd1. by apply scalar_params.
  - rewrite Hl2. by apply materialized_captures.
  - rewrite Hd2. replace (M + 2) with (S (S M)) by lia.
    by apply materialized_captures.
Qed.

End Prologue.

(** ** Worked examples *)

(** The destructurer on [(Int, (Reference, Reference))] with the conventions
    guaranteed, owned, guaranteed. *)
Lemma visit_consumes_one_parameter_info_per_leaf_witness :
  exists mv s',
    visit Sample.default None true
      (TupleType [Sample.Int; TupleType [Sample.Reference; Sample.Reference]])
      ([mkSILParameterInfo Sample.Int Direct_Guaranteed;
        mkSILParameterInfo Sample.Reference Direct_Owned;
        mkSILParameterInfo Sample.Reference Direct_Guaranteed] ++ [])
      (Sample.start []) = Ok (mv, [], s')
    /\ length (F_arguments s') = 3.
Proof.
  destruct (visit_consumes_one_parameter_info_per_leaf Sample.default None true
              (TupleType [Sample.Int; TupleType [Sample.Reference; Sample.Reference]])
              [mkSILParameterInfo Sample.Int Direct_Guaranteed;
               mkSILParameterInfo Sample.Reference Direct_Owned;
               mkSILParameterInfo Sample.Reference Direct_Guaranteed]
              [] (Sample.start []))
    as (mv & s' & Hrun & Hargs & _).
  - reflexivity.
  - repeat constructor; discriminate.
  - exists mv, s'. split; [exact Hrun|]. rewrite Hargs. reflexivity.
Defined.

(** C3 as stated fails: without lowered addresses, an address-only tuple is
    rebuilt as a tuple value, not in a stack buffer. *)
Lemma address_only_tuple_rebuilt_as_value :
  ~ (forall SGM loc functionArgs elts ps s mv ps' s',
       visit SGM loc functionArgs (TupleType elts) ps s = Ok (mv, ps', s') ->
       TypeLowering.isLoadable (getTypeLowering SGM (TupleType elts)) = false ->
       isStackBuffer (B s') (getValue mv)).
Proof.
  intros H.
  pose (SGM := Sample.SGM false false (fun _ => CaptureKind.Constant) Sample.noCaptures).
  pose (ps := [mkSILParameterInfo Sample.Existential Indirect_In_Guaranteed;
               mkSILParameterInfo Sample.Int Direct_Guaranteed]).
  pose (elts := [Sample.Existential; Sample.Int]).
  lazymatch eval vm_compute in (visit SGM None true (TupleType elts) ps (Sample.start [])) with
  | Ok (?mv, ?ps', ?s') =>
      destruct (H SGM None true elts ps (Sample.start []) mv ps' s')
        as (i & ty & n & Hdef & Hi)
  end.
  - vm_compute. reflexivity.
  - reflexivity.
  - cbn in Hdef. injection Hdef as <-. vm_compute in Hi. discriminate Hi.
Qed.

(** The reassembly of [(Reference, Reference)], the first owned, the second
    guaranteed. *)
Lemma visitTupleType_reassembles_witness :
  exists elements canBeGuaranteed s1,
    collectElements (visit Sample.default None true)
      [Sample.Reference; Sample.Reference] [] true
      [mkSILParameterInfo Sample.Reference Direct_Owned;
       mkSILParameterInfo Sample.Reference Direct_Guaranteed]
      (Sample.start [])
    = Ok (elements, canBeGuaranteed, [], s1)
    /\ length elements = 2.
Proof.
  destruct (visitTupleType_reassembles Sample.default None true
              [Sample.Reference; Sample.Reference]
              [mkSILParameterInfo Sample.Reference Direct_Owned;
               mkSILParameterInfo Sample.Reference Direct_Guaranteed]
              [] (Sample.start []))
    as (mv & s' & elements & cbg & s1 & _ & Hcollect & Hlen & _).
  - repeat constructor; discriminate.
  - exists elements, cbg, s1. split; [exact Hcollect|exact Hlen].
Defined.

(** A function [(x : Int) -> (Int, Existential)]: one indirect result. *)
Lemma emitProlog_indirect_results_witness :
  exists n s' explicit newC,
    emitProlog Sample.default [[Sample.param 1 Sample.Int]]
      (TupleType [Sample.Int; Sample.Existential]) false
      (Sample.start [mkSILParameterInfo Sample.Int Direct_Guaranteed]) = Ok (n, s')
    /\ F_arguments s'
       = [] ++ [resultArgument Sample.default Sample.Existential] ++ explicit
    /\ Forall (fun a => exists PD, getDecl a = Some (SourceDecl PD)) explicit
    /\ Cleanups s' = [] ++ newC
    /\ Forall (fun c => notAmongFirst (0 + 1) (cleanupValue c)) newC.
Proof.
  apply (emitProlog_indirect_results Sample.default [[Sample.param 1 Sample.Int]]
           (TupleType [Sample.Int; Sample.Existential]) false
           [mkSILParameterInfo Sample.Int Direct_Guaranteed] []
           (Sample.start [mkSILParameterInfo Sample.Int Direct_Guaranteed])).
  - reflexivity.
  - repeat constructor; discriminate.
  - repeat constructor.
Defined.

(** C5 as stated fails on a throwing closure with one parameter and one
    capture: the marker is not the last instruction (the capture follows
    it), and the prologue of the parameter lists returns 2, not 3. *)
Lemma error_marker_precedes_captures :
  ~ (forall SGM TheClosure paramPatterns resultType s s',
       emitPrologOfClosure SGM TheClosure paramPatterns resultType true s = Ok (tt, s') ->
       let M := length (concat (rev paramPatterns)) in
       let K := length (getCaptures (getLoweredLocalCaptures SGM TheClosure)) in
       last (B s') = Some (errorMarker SGM (M + K + 1))
       /\ exists s1, emitProlog SGM paramPatterns resultType true s = Ok (M + K + 1, s1)).
Proof.
  intros H.
  pose (SGM := Sample.closure [Sample.captured 7 Sample.Reference false]).
  pose (s := Sample.start [mkSILParameterInfo Sample.Int Direct_Guaranteed]).
  lazymatch eval vm_compute in
    (emitPrologOfClosure SGM 0 [[Sample.param 1 Sample.Int]] Sample.Int true s) with
  | Ok (tt, ?s') =>
      destruct (H SGM 0 [[Sample.param 1 Sample.Int]] Sample.Int s s') as [Hlast _]
  end.
  - vm_compute. reflexivity.
  - vm_compute in Hlast. discriminate Hlast.
Qed.

(** A throwing closure with one parameter and one capture. *)
Lemma emitProlog_throwing_entry_sequence_witness :
  exists s' s1 paramInsts captureInsts,
    emitPrologOfClosure (Sample.closure [Sample.captured 7 Sample.Reference false]) 0
      [[Sample.param 1 Sample.Int]] Sample.Int true
      (Sample.start [mkSILParameterInfo Sample.Int Direct_Guaranteed]) = Ok (tt, s')
    /\ emitProlog (Sample.closure [Sample.captured 7 Sample.Reference false])
         [[Sample.param 1 Sample.Int]] Sample.Int true
         (Sample.start [mkSILParameterInfo Sample.Int Direct_Guaranteed]) = Ok (2, s1)
    /\ length (F_arguments s') = 2
    /\ B s' = paramInsts
              ++ [errorMarker (Sample.closure [Sample.captured 7 Sample.Reference false]) 2]
              ++ captureInsts
    /\ debugOrdinals paramInsts = [1]
    /\ debugOrdinals captureInsts = [3].
Proof.
  destruct (emitProlog_throwing_entry_sequence
              (Sample.closure [Sample.captured 7 Sample.Reference false]) 0
              [[Sample.param 1 Sample.Int]] Sample.Int
              [mkSILParameterInfo Sample.Int Direct_Guaranteed] []
              (Sample.start [mkSILParameterInfo Sample.Int Direct_Guaranteed]))
    as (s' & s1 & explicit & captured & paramInsts & captureInsts & Hrun & Hprolog & _
        & Ha & Hl1 & Hl2 & _ & HB & Hd1 & Hd2 & _).
  - reflexivity.
  - repeat constructor; discriminate.
  - repeat constructor.
  - exists s', s1, paramInsts, captureInsts.
    split; [exact Hrun|]. split; [exact Hprolog|].
    split; [rewrite Ha, !length_app, Hl1, Hl2; reflexivity|].
    split; [exact HB|]. split; [exact Hd1|exact Hd2].
Defined.

(** C6 as stated fails both ways: in guaranteed-context mode, a settable
    capture of a class reference gets a release cleanup (on the cell that
    holds the copy); outside that mode, a capture of a trivial type gets
    none. *)
Lemma by_value_capture_cleanup_not_by_mode_alone :
  ~ (forall SGM closure capture ArgNo s s',
       getDeclCaptureKind SGM capture = CaptureKind.Constant ->
       emitCaptureArguments SGM closure capture ArgNo s = Ok (tt, s') ->
       EnableGuaranteedClosureContexts SGM = true ->
       Cleanups s' = Cleanups s)
  /\ ~ (forall SGM closure capture ArgNo s s',
          getDeclCaptureKind SGM capture = CaptureKind.Constant ->
          emitCaptureArguments SGM closure capture ArgNo s = Ok (tt, s') ->
          EnableGuaranteedClosureContexts SGM = false ->
          exists c, Cleanups s' = Cleanups s ++ [c]).
Proof.
  split; intros H.
  - pose (SGM := Sample.SGM true true (fun _ => CaptureKind.Constant) Sample.noCaptures).
    lazymatch eval vm_compute in
      (emitCaptureArguments SGM 0 (Sample.captured 7 Sample.Reference true) 1
                            (Sample.start [])) with
    | Ok (tt, ?s') =>
        pose proof (H SGM 0 (Sample.captured 7 Sample.Reference true) 1
                      (Sample.start []) s') as Hc
    end.
    specialize (Hc eq_refl). vm_compute in Hc.
    specialize (Hc eq_refl eq_refl). discriminate Hc.
  - lazymatch eval vm_compute in
      (emitCaptureArguments Sample.default 0 (Sample.captured 7 Sample.Int false) 1
                            (Sample.start [])) with
    | Ok (tt, ?s') =>
        pose proof (H Sample.default 0 (Sample.captured 7 Sample.Int false) 1
                      (Sample.start []) s') as Hc
    end.
    specialize (Hc eq_refl). vm_compute in Hc.
    destruct (Hc eq_refl eq_refl) as (c & Hc'). discriminate Hc'.
Qed.

(** A settable capture of a class reference, in guaranteed-context mode. *)
Lemma emitCaptureArguments_by_value_witness :
  exists s',
    emitCaptureArguments
      (Sample.SGM true true (fun _ => CaptureKind.Constant) Sample.noCaptures) 0
      (Sample.captured 7 Sample.Reference true) 1 (Sample.start []) = Ok (tt, s')
    /\ length (F_arguments s') = 1
    /\ length (B s') = 3
    /\ length (Cleanups s') = 1.
Proof.
  destruct (emitCaptureArguments_by_value
              (Sample.SGM true true (fun _ => CaptureKind.Constant) Sample.noCaptures) 0
              (Sample.captured 7 Sample.Reference true) 1 (Sample.start []))
    as (s' & Hrun & Ha & _ & _ & HB & HC).
  - reflexivity.
  - exists s'. split; [exact Hrun|]. rewrite Ha, HB, HC. repeat split; reflexivity.
Defined.

(** A closure whose second capture is the dynamic-self metadata: the
    prologue ends with the argument of the metatype, the second argument,
    and the third capture is not lowered. *)
Lemma emitProlog_stops_at_dynamic_self_witness :
  exists s2 s',
    emitCaptures
      (Sample.closure [Sample.captured 7 Sample.Reference false; Sample.dynamicSelf;
                       Sample.captured 8 Sample.Reference false]) 0
      (mkCaptureInfo [Sample.captured 7 Sample.Reference false; Sample.dynamicSelf;
                      Sample.captured 8 Sample.Reference false] Sample.Reference)
      [Sample.captured 7 Sample.Reference false] 0 (Sample.start []) = Ok (tt, s2)
    /\ emitPrologOfClosure
         (Sample.closure [Sample.captured 7 Sample.Reference false; Sample.dynamicSelf;
                          Sample.captured 8 Sample.Reference false]) 0
         [] Sample.Int false (Sample.start []) = Ok (tt, s')
    /\ length (F_arguments s') = 2
    /\ VarLocs s' = VarLocs s2
    /\ B s' = B s2.
Proof.
  destruct (emitProlog_stops_at_dynamic_self
              (Sample.closure [Sample.captured 7 Sample.Reference false;
                               Sample.dynamicSelf;
                               Sample.captured 8 Sample.Reference false]) 0
              [] Sample.Int false
              [Sample.captured 7 Sample.Reference false]
              [Sample.captured 8 Sample.Reference false] Sample.dynamicSelf
              (Sample.start []))
    as [_ Hbound].
  - reflexivity.
  - reflexivity.
  - destruct (Hbound ltac:(repeat constructor) 0 (Sample.start []))
      as (s2 & s' & Hpre & Hrun & Ha & Hv & _ & HB & _).
    + reflexivity.
    + exists s2, s'. split; [exact Hpre|]. split; [exact Hrun|].
      split; [|split; [exact Hv|exact HB]].
      rewrite Ha, length_app.
      assert (length (F_arguments s2) = 1) as ->; [|reflexivity].
      vm_compute in Hpre. injection Hpre as <-. reflexivity.
Defined.



(** The dynamic-self metadata after one by-value capture. *)
Lemma dynamic_self_capture_binds_nothing_witness :
  exists s1 s',
    emitCaptures Sample.default 0 (mkCaptureInfo [] Sample.Reference)
      [Sample.captured 7 Sample.Reference false] 0 (Sample.start []) = Ok (tt, s1)
    /\ emitCaptures Sample.default 0 (mkCaptureInfo [] Sample.Reference)
         ([Sample.captured 7 Sample.Reference false]
          ++ Sample.dynamicSelf :: [Sample.captured 8 Sample.Reference false])
         0 (Sample.start []) = Ok (tt, s')
    /\ length (F_arguments s') = S (length (F_arguments s1))
    /\ VarLocs s' = VarLocs s1
    /\ Cleanups s' = Cleanups s1.
Proof.
  destruct (dynamic_self_capture_binds_nothing Sample.default 0
              (mkCaptureInfo [] Sample.Reference)
              [Sample.captured 7 Sample.Reference false]
              [Sample.captured 8 Sample.Reference false]
              Sample.dynamicSelf 0 (Sample.start []))
    as (s1 & s' & Hpre & Hrun & Ha & Hv & HC & _).
  - repeat constructor.
  - reflexivity.
  - exists s1, s'. split; [exact Hpre|]. split; [exact Hrun|].
    split; [rewrite Ha, length_app; cbn; lia|]. split; [exact Hv|exact HC].
Defined.

(** * Further properties *)

(** ** The destructurer and its queue *)

Section QueueErrors.
Variable SGM : SILGenModule.
Variable loc : SILLocation.
Variable functionArgs : bool.

Lemma collectElements_empty_queue fieldTypes :
  Forall (fun t => forall s, leaves t <> [] ->
            visit SGM loc functionArgs t [] s = Abort NoParameterInfo) fieldTypes ->
  forall acc cbg s,
    flat_map leaves fieldTypes <> [] ->
    collectElements (visit SGM loc functionArgs) fieldTypes acc cbg [] s
    = Abort NoParameterInfo.
Proof.
  induction 1 as [|t rest Ht _ IH]; intros acc cbg s Hne; [done|].
  cbn [collectElements flat_map] in *. unfold bind.
  destruct (leaves t) as [|l ls] eqn:Hl.
  - assert (Forall2 (compatible SGM) (leaves t) []) as Hnil by (rewrite Hl; constructor).
    destruct (visit_total SGM loc functionArgs t [] [] s Hnil) as (mv & s1 & Hrun).
    cbn [app] in Hrun. rewrite Hrun. by apply IH.
  - by rewrite Ht.
Qed.

(** X1.  On an empty queue of parameter infos, the destructurer of a type
    that has a scalar leaf stops at the first leaf: [front()] of the
    empty queue. *)
Theorem visit_empty_queue (t : CanType) (s : SILGenFunction) :
  leaves t <> [] ->
  visit SGM loc functionArgs t [] s = Abort NoParameterInfo.
Proof.
  revert s. induction t as [ | | | | | | |elts IH] using CanType_nested_ind;
    intros s Hne; try reflexivity.
  cbn [visit]. unfold visitTupleType, bind.
  by rewrite (collectElements_empty_queue elts IH).
Qed.

(** X2.  The destructurer returns, leaving [ps'] of the queue, exactly when
    the queue is [ps'] preceded by one parameter info for each scalar leaf
    of the type, in order, each naming the lowered type of its leaf and
    none with the reserved convention. *)
Theorem visit_returns_iff
    (t : CanType) (ps ps' : list SILParameterInfo) (s : SILGenFunction) :
  (exists mv s', visit SGM loc functionArgs t ps s = Ok (mv, ps', s'))
  <-> exists consumed,
        ps = consumed ++ ps' /\ Forall2 (compatible SGM) (leaves t) consumed.
Proof.
  split.
  - intros (mv & s' & Hrun). by apply visit_Visited in Hrun as [_ _ _ ? _ _ _].
  - intros (consumed & -> & Hcompat). by apply visit_total.
Qed.

(** X3.  A type without scalar leaves (the empty tuple, or tuples of such)
    is destructured on any queue: nothing is consumed, no entry-block
    argument is created and no variable is bound. *)
Theorem visit_leafless
    (t : CanType) (ps : list SILParameterInfo) (s : SILGenFunction) :
  leaves t = [] ->
  exists mv s',
    visit SGM loc functionArgs t ps s = Ok (mv, ps, s')
    /\ F_arguments s' = F_arguments s
    /\ VarLocs s' = VarLocs s
    /\ isLValue mv = false.
Proof.
  intros Hl.
  assert (Forall2 (compatible SGM) (leaves t) []) as Hnil by (rewrite Hl; constructor).
  destruct (visit_total SGM loc functionArgs t [] ps s Hnil) as (mv & s' & Hrun).
  cbn [app] in Hrun. exists mv, s'. split; [done|].
  pose proof (visit_Visited _ _ _ _ _ _ _ _ _ Hrun) as [_ Hv Ha _ _ _ _].
  rewrite Hl in Ha. cbn in Ha. rewrite app_nil_r in Ha.
  repeat split; try done.
  destruct t as [ | | | | | | |elts]; try discriminate Hl.
  cbn [visit] in Hrun. unfold visitTupleType in Hrun.
  apply bind_Ok in Hrun as ([[elements cbg] ps1] & s1 & Hcollect & Hrun).
  apply bind_Ok in Hrun as (mv1 & s2 & Hre & Hret). run_inv Hret.
  eapply (collectElements_Visited SGM loc _ elts) in Hcollect
    as (_ & _ & _ & _ & _ & _ & Hown & _);
    [ | apply Forall_forall; intros t _; apply visit_Visited
      | reflexivity
      | by split; [constructor|constructor] ].
  apply elementsOwned_lt in Hown.
  destruct (reassembleTuple_spec SGM (getTypeLowering SGM (TupleType elts)) elements cbg s1)
    as (mv2 & s2 & Hre' & _ & _ & _ & _ & Hlv & _).
  { eapply Forall_impl; [done|]. cbn. lia. }
  rewrite Hre' in Hre. by simplify_eq.
Qed.

End QueueErrors.

(** ** Ownership of a destructured value *)

Section Ownership.
Variable SGM : SILGenModule.
Variable loc : SILLocation.
Variable functionArgs : bool.

Lemma visitType_hasCleanup t p rest s mv ps' s' :
  visitType SGM loc functionArgs t (p :: rest) s = Ok (mv, ps', s') ->
  hasCleanup mv = owns (getConvention p) || copiedAsBlock functionArgs t.
Proof.
  unfold visitType, copiedAsBlock. intros Hrun.
  destruct functionArgs; cbn [andb] in *; run_inv Hrun; cbn;
    rewrite ?orb_true_r; try done.
Qed.

Lemma collectElements_not_guaranteed
    (v : CanType -> list SILParameterInfo -> M (ManagedValue * list SILParameterInfo))
    fieldTypes : forall acc ps s elements cbg' ps' s',
  collectElements v fieldTypes acc false ps s = Ok (elements, cbg', ps', s') ->
  cbg' = false.
Proof.
  induction fieldTypes as [|t rest IH]; intros acc ps s elements cbg' ps' s' Hrun.
  - cbn in Hrun. unfold ret in Hrun. by simplify_eq.
  - cbn [collectElements] in Hrun.
    apply bind_Ok in Hrun as ([elt ps1] & s1 & _ & Hrun).
    destruct (hasCleanup elt); by eapply IH.
Qed.

Lemma take_leaves_app (lvs : list CanType) (c ps1 : list SILParameterInfo) n :
  Forall2 (compatible SGM) lvs c ->
  take (length lvs + n) (c ++ ps1) = c ++ take n ps1.
Proof.
  intros H. apply Forall2_length in H. rewrite H.
  by rewrite take_app_add.
Qed.

Lemma collectElements_owned fieldTypes :
  Forall (fun t => forall ps s mv ps' s',
            visit SGM loc functionArgs t ps s = Ok (mv, ps', s') ->
            Exists (fun p => owns (getConvention p) = true)
                   (take (length (leaves t)) ps) ->
            hasCleanup mv = true) fieldTypes ->
  forall acc cbg ps s elements cbg' ps' s',
    collectElements (visit SGM loc functionArgs) fieldTypes acc cbg ps s
    = Ok (elements, cbg', ps', s') ->
    Exists (fun p => owns (getConvention p) = true)
           (take (length (flat_map leaves fieldTypes)) ps) ->
    cbg' = false.
Proof.
  induction 1 as [|t rest Ht _ IH]; intros acc cbg ps s elements cbg' ps' s' Hrun Hex.
  { cbn in Hex. by apply Exists_nil in Hex. }
  cbn [collectElements flat_map] in *.
  apply bind_Ok in Hrun as ([elt ps1] & s1 & Hvisit & Hrun).
  pose proof (visit_Visited _ _ _ _ _ _ _ _ _ Hvisit) as [_ _ _ (c1 & -> & Hc1) _ _ _].
  rewrite length_app, (take_leaves_app _ _ _ _ Hc1) in Hex.
  apply Exists_app in Hex as [Hex|Hex].
  - rewrite (Ht _ _ _ _ _ Hvisit) in Hrun.
    + by eapply collectElements_not_guaranteed.
    + replace (length (leaves t)) with (length (leaves t) + 0) by lia.
      by rewrite (take_leaves_app _ _ _ _ Hc1), take_0, app_nil_r.
  - by eapply IH.
Qed.

Lemma visit_owned t : forall ps s mv ps' s',
  visit SGM loc functionArgs t ps s = Ok (mv, ps', s') ->
  Exists (fun p => owns (getConvention p) = true) (take (length (leaves t)) ps) ->
  hasCleanup mv = true.
Proof.
  induction t as [ | | | | | | |elts IH] using CanType_nested_ind;
    intros ps s mv ps' s' Hrun Hex;
    try (cbn [visit leaves length] in *;
         destruct ps as [|p rest]; [by apply Exists_nil in Hex|];
         rewrite (visitType_hasCleanup _ _ _ _ _ _ _ Hrun);
         cbn in Hex; rewrite take_0 in Hex;
         apply Exists_cons in Hex as [->|Hex]; [done|by apply Exists_nil in Hex]).
  cbn [visit leaves] in *. unfold visitTupleType in Hrun.
  apply bind_Ok in Hrun as ([[elements cbg] ps1] & s1 & Hcollect & Hrun).
  apply bind_Ok in Hrun as (mv1 & s2 & Hre & Hret). run_inv Hret.
  pose proof (collectElements_owned elts IH _ _ _ _ _ _ _ _ Hcollect Hex) as ->.
  eapply (collectElements_Visited SGM loc _ elts) in Hcollect
    as (_ & _ & _ & _ & _ & _ & Hown & _);
    [ | apply Forall_forall; intros t _; apply visit_Visited
      | reflexivity
      | by split; [constructor|constructor] ].
  apply elementsOwned_lt in Hown.
  destruct (reassembleTuple_spec SGM (getTypeLowering SGM (TupleType elts)) elements
              false s1)
    as (mv2 & s2 & Hre' & _ & _ & _ & _ & _ & Hmode).
  { eapply Forall_impl; [done|]. cbn. lia. }
  rewrite Hre' in Hre. simplify_eq. unfold hasCleanup.
  destruct (_ || _).
  - destruct Hmode as (pre & values & _ & _ & _ & newC & _ & _ & ->). done.
  - destruct Hmode as (_ & _ & _ & _ & ->). done.
Qed.

(** X4.  Ownership goes up: when one of the parameter infos that the
    destructurer consumes for a type has a convention under which the callee
    owns the value (owned, indirect-in) or must retain it (unowned), the
    value that comes back for the whole type, however deep the leaf is in
    it, carries a cleanup, which is pending and releases that value. *)
Theorem visit_owned_leaf_owns_aggregate
    (t : CanType) (ps : list SILParameterInfo) (s : SILGenFunction)
    (mv : ManagedValue) (ps' : list SILParameterInfo) (s' : SILGenFunction) :
  visit SGM loc functionArgs t ps s = Ok (mv, ps', s') ->
  Exists (fun p => owns (getConvention p) = true) (take (length (leaves t)) ps) ->
  exists h,
    getCleanup mv = Some h
    /\ length (Cleanups s) <= h
    /\ Cleanups s' !! h = Some (releaseOf (getValue mv)).
Proof.
  intros Hrun Hex. pose proof (visit_owned _ _ _ _ _ _ Hrun Hex) as Hc.
  apply visit_Visited in Hrun as [_ _ _ _ _ _ Hh].
  unfold hasCleanup in Hc. destruct (getCleanup mv) as [h|] eqn:Hg; [|done].
  exists h. split; [done|]. by apply Hh.
Qed.

End Ownership.

Section Borrowed.
Variable SGM : SILGenModule.
Variable loc : SILLocation.
Variable functionArgs : bool.

Lemma visitType_borrowed t ps s mv ps' s' :
  visitType SGM loc functionArgs t ps s = Ok (mv, ps', s') ->
  copiedAsBlock functionArgs t = false ->
  Forall (fun p => owns (getConvention p) = false) (take 1 ps) ->
  getCleanup mv = None /\ Cleanups s' = Cleanups s /\ B s' = B s.
Proof.
  unfold visitType, copiedAsBlock. intros Hrun Hblock Hb.
  destruct ps as [|p rest]; [discriminate|].
  cbn in Hb. apply Forall_cons in Hb as [Hb _].
  rewrite Hblock in Hrun. run_inv Hrun; done.
Qed.

Lemma collectElements_borrowed fieldTypes :
  Forall (borrowedRun SGM loc functionArgs) fieldTypes ->
  forall acc cbg ps s elements cbg' ps' s',
    collectElements (visit SGM loc functionArgs) fieldTypes acc cbg ps s
    = Ok (elements, cbg', ps', s') ->
    forallb (tuplesLoadable SGM) fieldTypes = true ->
    Forall (fun leaf => copiedAsBlock functionArgs leaf = false)
           (flat_map leaves fieldTypes) ->
    Forall (fun p => owns (getConvention p) = false)
           (take (length (flat_map leaves fieldTypes)) ps) ->
    cbg' = cbg
    /\ Cleanups s' = Cleanups s
    /\ exists newB, B s' = B s ++ newB /\ Forall (fun i => isTupleInst i = true) newB.
Proof.
  induction 1 as [|t rest Ht _ IH];
    intros acc cbg ps s elements cbg' ps' s' Hrun Hload Hblock Hb.
  { cbn in Hrun. unfold ret in Hrun. simplify_eq. repeat split.
    exists []. by rewrite app_nil_r. }
  cbn [collectElements flat_map forallb] in *.
  apply andb_true_iff in Hload as [Hload1 Hload].
  apply Forall_app in Hblock as [Hblock1 Hblock].
  apply bind_Ok in Hrun as ([elt ps1] & s1 & Hvisit & Hrun).
  pose proof (visit_Visited _ _ _ _ _ _ _ _ _ Hvisit) as [_ _ _ (c1 & -> & Hc1) _ _ _].
  rewrite length_app, (take_leaves_app _ _ _ _ _ Hc1) in Hb.
  apply Forall_app in Hb as [Hb1 Hb].
  destruct (Ht _ _ _ _ _ Hvisit Hload1 Hblock1) as (Hnone & HC1 & newB1 & HB1 & Hf1).
  { replace (length (leaves t)) with (length (leaves t) + 0) by lia.
    by rewrite (take_leaves_app _ _ _ _ _ Hc1), take_0, app_nil_r. }
  unfold hasCleanup in Hrun. rewrite Hnone in Hrun.
  destruct (IH _ _ _ _ _ _ _ _ Hrun Hload Hblock Hb) as (-> & HC & newB & HB & Hf).
  repeat split; [congruence|].
  exists (newB1 ++ newB). rewrite HB, HB1, app_assoc. split; [done|].
  by apply Forall_app.
Qed.

Lemma visit_borrowed t : borrowedRun SGM loc functionArgs t.
Proof.
  induction t as [ | | | | | | |elts IH] using CanType_nested_ind;
    intros ps s mv ps' s' Hrun Hload Hblock Hb;
    try (cbn [visit leaves length] in *;
         apply Forall_cons in Hblock as [Hblock _];
         destruct (visitType_borrowed _ _ _ _ _ _ Hrun Hblock Hb) as (? & ? & HB);
         repeat split; try done; exists []; by rewrite app_nil_r).
  cbn [visit leaves tuplesLoadable] in *. unfold visitTupleType in Hrun.
  apply andb_true_iff in Hload as [Hloadable Hload].
  apply bind_Ok in Hrun as ([[elements cbg] ps1] & s1 & Hcollect & Hrun).
  apply bind_Ok in Hrun as (mv1 & s2 & Hre & Hret). run_inv Hret.
  destruct (collectElements_borrowed elts IH _ _ _ _ _ _ _ _ Hcollect Hload Hblock Hb)
    as (-> & HC1 & newB1 & HB1 & Hf1).
  eapply (collectElements_Visited SGM loc _ elts) in Hcollect
    as (_ & _ & _ & _ & _ & _ & Hown & _);
    [ | apply Forall_forall; intros t _; apply visit_Visited
      | reflexivity
      | by split; [constructor|constructor] ].
  apply elementsOwned_lt in Hown.
  destruct (reassembleTuple_spec SGM (getTypeLowering SGM (TupleType elts)) elements
              (TypeLowering.isLoadable (getTypeLowering SGM (TupleType elts))) s1)
    as (mv2 & s2 & Hre' & _ & _ & _ & _ & _ & Hmode).
  { eapply Forall_impl; [done|]. cbn. lia. }
  rewrite Hre' in Hre. simplify_eq. rewrite Hloadable in Hmode. cbn [orb] in Hmode.
  destruct Hmode as (pre & values & HB & _ & Hnone & _ & -> & HC).
  repeat split; [done|congruence|].
  exists (newB1 ++ [TupleInst (TypeLowering.getLoweredType
                                  (getTypeLowering SGM (TupleType elts))) values]).
  rewrite HB, HB1, app_assoc. split; [done|].
  apply Forall_app. split; [done|]. by repeat constructor.
Qed.

(** X5.  Borrowed in, borrowed out: when every parameter info that the
    destructurer consumes for a type has a convention that leaves the value
    with the caller (guaranteed, or an inout address), every tuple in the
    type is loadable and no leaf is copied as a block, the value that comes
    back has no cleanup, the cleanup stack is as before, and the only
    instructions emitted are the [tuple] instructions that reassemble the
    value: nothing is retained, copied or allocated. *)
Theorem visit_borrowed_leaves_borrow_aggregate
    (t : CanType) (ps : list SILParameterInfo) (s : SILGenFunction)
    (mv : ManagedValue) (ps' : list SILParameterInfo) (s' : SILGenFunction) :
  visit SGM loc functionArgs t ps s = Ok (mv, ps', s') ->
  tuplesLoadable SGM t = true ->
  Forall (fun leaf => copiedAsBlock functionArgs leaf = false) (leaves t) ->
  Forall (fun p => owns (getConvention p) = false) (take (length (leaves t)) ps) ->
  getCleanup mv = None
  /\ Cleanups s' = Cleanups s
  /\ exists newB, B s' = B s ++ newB /\ Forall (fun i => isTupleInst i = true) newB.
Proof. apply visit_borrowed. Qed.

(** X6.  At a function entry, a leaf that is a block, or an optional block,
    is copied whatever its convention: after the argument is created (and,
    for the unowned convention, retained by a [copy_value]), the last
    instruction emitted is a [copy_block] of the incoming value, which is
    the argument itself or, for the unowned convention, its retained copy;
    the value that comes back is the result of the [copy_block], not an
    lvalue, and it carries a new pending release cleanup, the last of the
    stack.  The cleanup that the convention itself gave to the incoming
    value (owned, indirect-in, unowned) stays pending just below it.
    Nothing else changes. *)
Theorem visitType_copies_block
    (t : CanType) (p : SILParameterInfo) (rest : list SILParameterInfo)
    (s : SILGenFunction) (mv : ManagedValue) (ps' : list SILParameterInfo)
    (s' : SILGenFunction) :
  visitType SGM loc true t (p :: rest) s = Ok (mv, ps', s') ->
  copiedAsBlock true t = true ->
  let ty := getLoweredType SGM t in
  let arg := mkSILValue (FunctionArgument (length (F_arguments s))) ty in
  let retained :=
    match getConvention p with
    | Direct_Unowned => true
    | _ => false
    end in
  let src := if retained then mkSILValue (InstructionResult (length (B s))) ty else arg in
  let copy :=
    mkSILValue (InstructionResult (length (B s) + if retained then 1 else 0)) ty in
  let below := if owns (getConvention p) then [releaseOf src] else [] in
  ps' = rest
  /\ F_arguments s' = F_arguments s ++ [mkSILArgument ty loc]
  /\ B s' = B s ++ (if retained then [CopyValueInst arg] else []) ++ [CopyBlockInst src]
  /\ mv = mkManagedValue copy false (Some (length (Cleanups s) + length below))
  /\ Cleanups s' = Cleanups s ++ below ++ [releaseOf copy]
  /\ VarLocs s' = VarLocs s
  /\ F_parameters s' = F_parameters s.
Proof.
  unfold visitType, copiedAsBlock. cbn [andb]. intros Hrun Hblock.
  rewrite Hblock in Hrun. run_inv Hrun; cbn.
  all: rewrite <- ?app_assoc, ?length_app; cbn [length app];
    rewrite ?Nat.add_0_r, ?Nat.add_1_r.
  all: done.
Qed.

End Borrowed.

(** ** The binding of parameters *)

Section Binding.
Variable SGM : SILGenModule.

Lemma makeArgumentIntoBinding_binds ty vd this s this' s' :
  ArgumentInitHelper.makeArgumentIntoBinding SGM ty vd this s = Ok (this', s') ->
  exists argrv ps1 s1 v,
    ArgumentInitHelper.makeArgument SGM ty (Some (SourceDecl vd))
      (ArgumentInitHelper.parameters this) s = Ok (argrv, ps1, s1)
    /\ VarLocs s' = <[declID vd := VarLoc_get v None]> (VarLocs s1)
    /\ (if isInOut vd
        then isBuiltinUnsafeValueBufferType
               (getCanonicalType SGM (getInOutObjectType (getType vd)))
             || isAddress (getValueType (getValue argrv))
        else match ty with
             | MetatypeType _ => true
             | _ => isLet vd || isShared vd
             end) = true
    /\ (if negb (isInOut vd)
           && match ty with
              | MetatypeType instanceType => isDynamicSelfType instanceType
              | _ => false
              end
        then getValueType v = getLoweredType SGM ty
        else v = getValue argrv).
Proof.
  unfold ArgumentInitHelper.makeArgumentIntoBinding. intros Hrun.
  apply bind_Ok in Hrun as ([argrv ps1] & s1 & Hmake & Hrun).
  exists argrv, ps1, s1. cbv zeta in Hrun.
  destruct (isInOut vd); cbn [negb andb].
  - destruct (isBuiltinUnsafeValueBufferType _); cbn [orb].
    + run_inv Hrun. by eexists.
    + apply bind_Ok in Hrun as ([] & s2 & Hassert & Hrun).
      apply assert_Ok in Hassert as [Haddr ?]. simplify_eq.
      rewrite Haddr in Hrun |- *. run_inv Hrun. by eexists.
  - destruct ty; try (apply bind_Ok in Hrun as ([] & s2 & Hassert & Hrun);
                      apply assert_Ok in Hassert as [Hlet ?]; simplify_eq;
                      rewrite Hlet;
                      destruct (isAddress (getValueType (getValue argrv)));
                      run_inv Hrun; by eexists).
    destruct (isDynamicSelfType _).
    + destruct (negb _) eqn:Hneq.
      * apply bind_Ok in Hrun as (cast & s2 & Hcast & Hrun).
        unfold createUncheckedBitCast, createValue in Hcast. simplify_eq.
        cbn in Hrun.
        destruct (isAddress (getLoweredType SGM (MetatypeType ty)));
          run_inv Hrun; by eexists.
      * apply negb_false_iff, SILType_eqb_eq in Hneq.
        destruct (isAddress (getValueType (getValue argrv)));
          run_inv Hrun; by eexists.
    + destruct (isAddress (getValueType (getValue argrv)));
        run_inv Hrun; by eexists.
Qed.


Lemma emitParam_VarLocs PD this s this' s' :
  ArgumentInitHelper.emitParam SGM PD this s = Ok (this', s') ->
  if hasName PD
  then exists v, VarLocs s' = <[declID PD := VarLoc_get v None]> (VarLocs s)
  else VarLocs s' = VarLocs s.
Proof.
  unfold ArgumentInitHelper.emitParam. intros Hrun. destruct (hasName PD).
  - apply makeArgumentIntoBinding_binds in Hrun
      as (argrv & ps1 & s1 & v & Hmake & Hv & _).
    apply makeArgument_Visited in Hmake as [_ Hv1 _ _ _ _ _].
    exists v. by rewrite Hv, Hv1.
  - apply bind_Ok in Hrun as (ps1 & s1 & Hanon & Hret). unfold ret in Hret. simplify_eq.
    by apply emitAnonymousParam_spec in Hanon as (_ & Hv & _).
Qed.

Lemma emitParam_bindable PD this s this' s' :
  ArgumentInitHelper.emitParam SGM PD this s = Ok (this', s') ->
  bindable SGM PD = true.
Proof.
  unfold ArgumentInitHelper.emitParam, bindable. intros Hrun.
  destruct (hasName PD); [|done]. cbn [negb orb].
  apply makeArgumentIntoBinding_binds in Hrun
    as (argrv & ps1 & s1 & v & Hmake & _ & Hok & _).
  unfold ArgumentInitHelper.makeArgument in Hmake.
  apply visit_managedType in Hmake. fold (argumentType SGM (getType PD)) in Hmake.
  by rewrite <- Hmake.
Qed.

Lemma elem_of_namedDecls k params :
  k ∈ namedDecls params <-> exists PD, PD ∈ params /\ hasName PD = true /\ declID PD = k.
Proof.
  unfold namedDecls. rewrite list_elem_of_In, in_map_iff. split.
  - intros (PD & <- & [Hin Hn]%filter_In). exists PD. by rewrite list_elem_of_In.
  - intros (PD & Hin & Hn & <-). exists PD. split; [done|].
    apply filter_In. by rewrite <- list_elem_of_In.
Qed.

Lemma forEach_emitParam_binds params : forall this s this' s',
  forEach (ArgumentInitHelper.emitParam SGM) params this s = Ok (this', s') ->
  Forall (fun PD => bindable SGM PD = true) params
  /\ (forall k, k ∉ namedDecls params -> VarLocs s' !! k = VarLocs s !! k)
  /\ (forall PD, PD ∈ params -> hasName PD = true ->
        exists v, VarLocs s' !! declID PD = Some (VarLoc_get v None)).
Proof.
  induction params as [|PD0 params IH]; intros this s this' s' Hrun.
  { cbn in Hrun. unfold ret in Hrun. simplify_eq. repeat split; [constructor|].
    intros PD Hin. by apply elem_of_nil in Hin. }
  cbn [forEach] in Hrun. apply bind_Ok in Hrun as (this1 & s1 & Hfirst & Hrun).
  pose proof (emitParam_bindable _ _ _ _ _ Hfirst) as Hb.
  apply emitParam_VarLocs in Hfirst.
  destruct (IH _ _ _ _ Hrun) as (Hbs & Hframe & Hbound).
  split; [by constructor|]. split.
  - intros k Hk. rewrite Hframe.
    + destruct (hasName PD0) eqn:Hn; [|by rewrite Hfirst].
      destruct Hfirst as (v & ->). apply lookup_insert_ne. intros <-.
      apply Hk, elem_of_namedDecls. exists PD0. by rewrite elem_of_cons; auto.
    + intros Hin. apply Hk. apply elem_of_namedDecls in Hin as (PD & Hin & Hn & <-).
      apply elem_of_namedDecls. exists PD. rewrite elem_of_cons. auto.
  - intros PD Hin Hn. apply elem_of_cons in Hin as [->|Hin]; [|by apply Hbound].
    destruct (decide (declID PD0 ∈ namedDecls params)) as [Hk|Hk].
    + apply elem_of_namedDecls in Hk as (PD & Hin & Hn' & <-). by apply Hbound.
    + rewrite (Hframe _ Hk). rewrite Hn in Hfirst. destruct Hfirst as (v & ->).
      exists v. apply lookup_insert_eq.
Qed.

Lemma emitProlog_loop paramLists resultType throws s n s' :
  emitProlog SGM paramLists resultType throws s = Ok (n, s') ->
  exists this' s1,
    forEach (ArgumentInitHelper.emitParam SGM) (concat (rev paramLists))
      (ArgumentInitHelper.mk (F_parameters s) 0)
      (with_arguments
         (F_arguments s
          ++ indirectResultArguments SGM (getCanonicalTypeInSignature SGM resultType)) s)
    = Ok (this', s1)
    /\ n = ArgumentInitHelper.getNumArgs this' + (if throws then 1 else 0)
    /\ s' = if throws
            then with_B (B s1 ++ [errorMarker SGM (S (ArgumentInitHelper.getNumArgs this'))])
                        s1
            else s1.
Proof.
  intros Hrun. unfold emitProlog in Hrun.
  apply bind_Ok in Hrun as ([] & s0 & Hres & Hrun).
  rewrite emitIndirectResultParameters_spec in Hres. simplify_eq.
  apply bind_Ok in Hrun as (emitter & s1 & Hinit & Hrun). simplify_eq.
  apply bind_Ok in Hrun as (this' & s2 & Hloop & Hrun).
  rewrite forEach_concat in Hloop. exists this', s2. split; [done|].
  destruct throws; run_inv Hrun; cbn; split; try done; lia.
Qed.


(** X8.  After the prologue of the parameter lists, every named parameter
    has an entry in [VarLocs], with no box, and the entries of all other
    declarations are as before: unnamed parameters, indirect results and
    the error marker bind nothing. *)
Theorem emitProlog_binds_named_parameters
    (paramLists : list (list VarDecl)) (resultType : CanType) (throws : bool)
    (s : SILGenFunction) (n : nat) (s' : SILGenFunction) :
  emitProlog SGM paramLists resultType throws s = Ok (n, s') ->
  let params := concat (rev paramLists) in
  (forall PD, PD ∈ params -> hasName PD = true ->
     exists v, VarLocs s' !! declID PD = Some (VarLoc_get v None))
  /\ (forall k, k ∉ namedDecls params -> VarLocs s' !! k = VarLocs s !! k).
Proof.
  intros Hrun params.
  apply emitProlog_loop in Hrun as (this' & s1 & Hloop & _ & ->).
  apply forEach_emitParam_binds in Hloop as (_ & Hframe & Hbound).
  split.
  - intros PD Hin Hn. destruct (Hbound PD Hin Hn) as (v & Hv).
    exists v. by destruct throws.
  - intros k Hk. specialize (Hframe k Hk). cbn in Hframe. rewrite <- Hframe.
    by destruct throws.
Qed.

(** X9.  A named parameter whose type is the metatype of a dynamic Self
    type, and which is not inout, is bound to a value of the lowered type
    of its declared type: the incoming value (the one that the argument of
    the parameter was made into) when it has that type already, with only
    the debug instruction emitted; and otherwise the result of an
    [unchecked_bitcast] of the incoming value to that type, emitted right
    before the debug instruction.  The entry has no box, and the arguments
    and the cleanups are those left by the making of the argument. *)
Theorem emitParam_dynamic_self_metatype
    (PD : VarDecl) (selfType : CanType) (this : ArgumentInitHelper.t)
    (s : SILGenFunction) (this' : ArgumentInitHelper.t) (s' : SILGenFunction) :
  hasName PD = true ->
  isInOut PD = false ->
  getType PD = MetatypeType (DynamicSelfType selfType) ->
  ArgumentInitHelper.emitParam SGM PD this s = Ok (this', s') ->
  let loweredTy := getLoweredType SGM (getType PD) in
  let ArgNo := S (ArgumentInitHelper.getNumArgs this) in
  exists argrv ps1 s1 v,
    ArgumentInitHelper.makeArgument SGM (getType PD) (Some (SourceDecl PD))
      (ArgumentInitHelper.parameters this) s = Ok (argrv, ps1, s1)
    /\ this' = ArgumentInitHelper.mk ps1 ArgNo
    /\ VarLocs s' !! declID PD = Some (VarLoc_get v None)
    /\ getValueType v = loweredTy
    /\ VarLocs s' = <[declID PD := VarLoc_get v None]> (VarLocs s1)
    /\ F_arguments s' = F_arguments s1
    /\ Cleanups s' = Cleanups s1
    /\ if SILType_eqb loweredTy (getValueType (getValue argrv))
       then v = getValue argrv
            /\ B s' = B s1 ++ [debugValueOf PD (forUnmanaged v) ArgNo]
       else v = mkSILValue (InstructionResult (length (B s1))) loweredTy
            /\ B s' = B s1 ++ [UncheckedBitCastInst (getValue argrv) loweredTy;
                               debugValueOf PD (forUnmanaged v) ArgNo].
Proof.
  intros Hn Hio Hty Hrun loweredTy ArgNo. subst loweredTy ArgNo.
  unfold ArgumentInitHelper.emitParam in Hrun. rewrite Hn in Hrun.
  unfold ArgumentInitHelper.makeArgumentIntoBinding in Hrun.
  apply bind_Ok in Hrun as ([argrv ps1] & s1 & Hmake & Hrun).
  cbn [ArgumentInitHelper.parameters ArgumentInitHelper.getNumArgs] in *.
  exists argrv, ps1, s1. cbv zeta in Hrun. rewrite Hio in Hrun.
  rewrite Hty in Hrun |- *. cbn [isDynamicSelfType] in Hrun. rewrite <- Hty in *.
  unfold debugValueOf. cbn [getValue forUnmanaged].
  destruct (SILType_eqb _ _) eqn:Heq; cbn [negb] in Hrun.
  - apply SILType_eqb_eq in Heq. exists (getValue argrv).
    destruct (isAddress (getValueType (getValue argrv))); run_inv Hrun; cbn;
      by rewrite lookup_insert_eq.
  - apply bind_Ok in Hrun as (cast & s2 & Hcast & Hrun).
    unfold createUncheckedBitCast, createValue in Hcast. simplify_eq.
    cbn in Hrun.
    exists (mkSILValue (InstructionResult (length (B s1)))
                       (getLoweredType SGM (getType PD))).
    destruct (isAddress (getLoweredType SGM (getType PD))) eqn:Ha; run_inv Hrun; cbn;
      rewrite lookup_insert_eq, ?Ha, <- ?app_assoc; done.
Qed.

(** X10.  A throwing prologue is the prologue of the same function without
    [throws], followed by the marker of the error slot: one more
    instruction, numbered one more than the last parameter, and nothing
    else differs. *)
Theorem emitProlog_throws_adds_marker
    (paramLists : list (list VarDecl)) (resultType : CanType)
    (s : SILGenFunction) (n : nat) (s1 : SILGenFunction) :
  emitProlog SGM paramLists resultType false s = Ok (n, s1) ->
  n = length (concat (rev paramLists))
  /\ emitProlog SGM paramLists resultType true s
     = Ok (S n, with_B (B s1 ++ [errorMarker SGM (S n)]) s1).
Proof.
  intros Hrun. split.
  { apply emitProlog_spec in Hrun as (-> & _). lia. }
  apply emitProlog_loop in Hrun as (this' & s2 & Hloop & -> & ->).
  unfold emitProlog. unfold bind at 1. rewrite emitIndirectResultParameters_spec.
  unfold bind at 1. rewrite <- forEach_concat in Hloop.
  rewrite (bind_Ok_intro _ _ _ _ _ Hloop). rewrite Nat.add_0_r. reflexivity.
Qed.

(** X11.  The parameter lists are emitted last list first, each in its
    order: the prologue of several lists is the prologue of the one list
    made of the last list, then the one before it, and so on. *)
Theorem emitProlog_lists_in_reverse
    (paramLists : list (list VarDecl)) (resultType : CanType) (throws : bool)
    (s : SILGenFunction) :
  emitProlog SGM paramLists resultType throws s
  = emitProlog SGM [concat (rev paramLists)] resultType throws s.
Proof.
  unfold emitProlog, bind. rewrite emitIndirectResultParameters_spec.
  rewrite !forEach_concat. cbn [rev app concat]. by rewrite app_nil_r.
Qed.

End Binding.

(** ** Argument numbers, frame and calling convention *)

Lemma strictlyIncreasing_nil : strictlyIncreasing [].
Proof. intros i j a b Hi. by rewrite lookup_nil in Hi. Qed.

Lemma strictlyIncreasing_app l1 l2 :
  strictlyIncreasing l1 -> strictlyIncreasing l2 ->
  (forall a b, a ∈ l1 -> b ∈ l2 -> a < b) ->
  strictlyIncreasing (l1 ++ l2).
Proof.
  intros H1 H2 H12 i j a b Hi Hj Hij.
  apply lookup_app_Some in Hi as [Hi|[Hi1 Hi]];
    apply lookup_app_Some in Hj as [Hj|[Hj1 Hj]].
  - by eapply H1.
  - eapply H12; by eapply list_elem_of_lookup_2.
  - apply lookup_lt_Some in Hj. lia.
  - eapply H2; [done|done|lia].
Qed.

Lemma strictlyIncreasing_optional (b : bool) n : strictlyIncreasing (if b then [n] else []).
Proof.
  destruct b; [|apply strictlyIncreasing_nil].
  intros i j x y Hi Hj Hij. apply lookup_lt_Some in Hj. cbn in Hj. lia.
Qed.

Section Ordinals.
Variable SGM : SILGenModule.

Lemma paramOrdinals_bounds params : forall n,
  Forall (fun k => n < k <= n + length params) (paramOrdinals SGM params n).
Proof.
  induction params as [|PD params IH]; intros n; [constructor|].
  cbn [paramOrdinals length]. apply Forall_app. split.
  - destruct (showsDebugValue SGM PD); [apply Forall_singleton; lia|constructor].
  - eapply Forall_impl; [apply IH|]. cbn. lia.
Qed.

Lemma paramOrdinals_increasing params : forall n,
  strictlyIncreasing (paramOrdinals SGM params n).
Proof.
  induction params as [|PD params IH]; intros n; [apply strictlyIncreasing_nil|].
  cbn [paramOrdinals]. apply strictlyIncreasing_app; [|apply IH|].
  - apply strictlyIncreasing_optional.
  - intros a b Ha Hb.
    pose proof (paramOrdinals_bounds params (S n)) as Hall.
    rewrite Forall_forall in Hall. specialize (Hall b Hb).
    destruct (showsDebugValue SGM PD); [|by apply elem_of_nil in Ha].
    apply list_elem_of_singleton in Ha as ->. lia.
Qed.

Lemma captureOrdinals_bounds captures : forall n,
  Forall (fun k => n < k <= n + length captures) (captureOrdinals SGM captures n).
Proof.
  induction captures as [|c captures IH]; intros n; [constructor|].
  cbn [captureOrdinals length]. destruct (isDynamicSelfMetadata c); [constructor|].
  apply Forall_app. split.
  - destruct (materializesArgument SGM c); [apply Forall_singleton; lia|constructor].
  - eapply Forall_impl; [apply IH|]. cbn. lia.
Qed.

Lemma captureOrdinals_increasing captures : forall n,
  strictlyIncreasing (captureOrdinals SGM captures n).
Proof.
  induction captures as [|c captures IH]; intros n; [apply strictlyIncreasing_nil|].
  cbn [captureOrdinals]. destruct (isDynamicSelfMetadata c); [apply strictlyIncreasing_nil|].
  apply strictlyIncreasing_app; [|apply IH|].
  - apply strictlyIncreasing_optional.
  - intros a b Ha Hb.
    pose proof (captureOrdinals_bounds captures (S n)) as Hall.
    rewrite Forall_forall in Hall. specialize (Hall b Hb).
    destruct (materializesArgument SGM c); [|by apply elem_of_nil in Ha].
    apply list_elem_of_singleton in Ha as ->. lia.
Qed.

Lemma prologOrdinals_increasing params throws captures :
  strictlyIncreasing (prologOrdinals SGM params throws captures)
  /\ Forall (fun k => 1 <= k <= length params + (if throws then 1 else 0) + length captures)
            (prologOrdinals SGM params throws captures).
Proof.
  unfold prologOrdinals.
  pose proof (paramOrdinals_bounds params 0) as Hp.
  pose proof (captureOrdinals_bounds captures
                (length params + if throws then 1 else 0)) as Hc.
  split.
  - apply strictlyIncreasing_app; [apply paramOrdinals_increasing| |].
    + apply strictlyIncreasing_app;
        [apply strictlyIncreasing_optional|apply captureOrdinals_increasing|].
      intros a b Ha Hb. rewrite Forall_forall in Hc. specialize (Hc b Hb).
      destruct throws; [|by apply elem_of_nil in Ha].
      apply list_elem_of_singleton in Ha as ->. lia.
    + intros a b Ha Hb. rewrite Forall_forall in Hp, Hc. specialize (Hp a Ha).
      apply elem_of_app in Hb as [Hb|Hb].
      * destruct throws; [|by apply elem_of_nil in Hb].
        apply list_elem_of_singleton in Hb as ->. lia.
      * specialize (Hc b Hb). lia.
  - apply Forall_app. split; [eapply Forall_impl; [exact Hp|]; cbn; lia|].
    apply Forall_app. split.
    + destruct throws; [apply Forall_singleton; lia|constructor].
    + eapply Forall_impl; [exact Hc|]. cbn. lia.
Qed.

Lemma emitPrologOfClosure_spec TheClosure paramPatterns resultType throws s s' :
  emitPrologOfClosure SGM TheClosure paramPatterns resultType throws s = Ok (tt, s') ->
  let params := concat (rev paramPatterns) in
  let captures := getCaptures (getLoweredLocalCaptures SGM TheClosure) in
  F_parameters s' = F_parameters s
  /\ (exists newA, F_arguments s' = F_arguments s ++ newA)
  /\ (exists newB,
        B s' = B s ++ newB
        /\ debugOrdinals newB = prologOrdinals SGM params throws captures)
  /\ exists newC, Cleanups s' = Cleanups s ++ newC.
Proof.
  intros Hrun params captures. unfold emitPrologOfClosure in Hrun.
  apply bind_Ok in Hrun as (n & s1 & Hprolog & Hcaptures).
  apply emitProlog_spec in Hprolog
    as (Hn & Hp1 & Ha1 & _ & (paramInsts & HB1 & Hd1) & (newC1 & HC1 & _)).
  fold params in Hn, Ha1, HB1, Hd1.
  destruct (emitCaptures_spec SGM TheClosure (getLoweredLocalCaptures SGM TheClosure)
              captures n s1)
    as (s2 & Hrun2 & Hp2 & (captured & Ha2 & _) & (captureInsts & HB2 & Hd2)
        & (newC2 & HC2 & _)).
  fold captures in Hcaptures. rewrite Hrun2 in Hcaptures. simplify_eq.
  split; [congruence|]. split; [|split].
  - eexists. by rewrite Ha2, Ha1, <- !app_assoc.
  - eexists. rewrite HB2, HB1, <- !app_assoc. split; [done|].
    unfold prologOrdinals. rewrite !debugOrdinals_app, Hd1, Hd2.
    by destruct throws.
  - eexists. by rewrite HC2, HC1, <- app_assoc.
Qed.

(** X12.  The argument numbers that the prologue of a closure shows to the
    debugger, in the order of the instructions that carry them, are
    strictly increasing: no two parameters, captures or the error marker
    share a number.  They lie between 1 and the number of parameters plus
    the number of capture records, plus one when the function throws. *)
Theorem emitProlog_ordinals_increase
    (TheClosure : nat) (paramPatterns : list (list VarDecl)) (resultType : CanType)
    (throws : bool) (s s' : SILGenFunction) :
  emitPrologOfClosure SGM TheClosure paramPatterns resultType throws s = Ok (tt, s') ->
  let M := length (concat (rev paramPatterns)) in
  let K := length (getCaptures (getLoweredLocalCaptures SGM TheClosure)) in
  exists newB,
    B s' = B s ++ newB
    /\ strictlyIncreasing (debugOrdinals newB)
    /\ Forall (fun k => 1 <= k <= M + (if throws then 1 else 0) + K) (debugOrdinals newB).
Proof.
  intros Hrun M K.
  apply emitPrologOfClosure_spec in Hrun as (_ & _ & (newB & HB & Hd) & _).
  exists newB. split; [done|]. rewrite Hd. apply prologOrdinals_increasing.
Qed.

(** X13.  The prologue of a closure only adds: the parameter infos of the
    function are not touched, and the entry-block arguments, the
    instructions and the cleanups that were there before are still there,
    in place, in front of what the prologue has added. *)
Theorem emitProlog_only_appends
    (TheClosure : nat) (paramPatterns : list (list VarDecl)) (resultType : CanType)
    (throws : bool) (s s' : SILGenFunction) :
  emitPrologOfClosure SGM TheClosure paramPatterns resultType throws s = Ok (tt, s') ->
  F_parameters s' = F_parameters s
  /\ F_arguments s `prefix_of` F_arguments s'
  /\ B s `prefix_of` B s'
  /\ Cleanups s `prefix_of` Cleanups s'.
Proof.
  intros Hrun.
  apply emitPrologOfClosure_spec in Hrun
    as (Hp & (newA & Ha) & (newB & HB & _) & (newC & HC)).
  split; [done|]. split; [by exists newA|]. split; [by exists newB|by exists newC].
Qed.

Lemma compatible_types lvs consumed :
  Forall2 (compatible SGM) lvs consumed ->
  map (getLoweredType SGM) lvs = map (parameterType SGM) consumed.
Proof.
  induction 1 as [|leaf p lvs consumed [Hty _] _ IH]; [done|].
  cbn. f_equal; [|done]. by apply SILType_eqb_eq.
Qed.

(** X14.  The explicit parameters agree with the calling convention: the
    entry-block arguments that the prologue creates after the indirect
    results are as many as the parameter infos it takes from the front of
    the lowered function type, and the k-th of them has the type that the
    k-th info names. *)
Theorem emitProlog_arguments_match_parameter_infos
    (paramLists : list (list VarDecl)) (resultType : CanType) (throws : bool)
    (s : SILGenFunction) (n : nat) (s' : SILGenFunction) :
  emitProlog SGM paramLists resultType throws s = Ok (n, s') ->
  let results :=
    indirectResultArguments SGM (getCanonicalTypeInSignature SGM resultType) in
  exists consumed rest explicit,
    F_parameters s = consumed ++ rest
    /\ F_arguments s' = F_arguments s ++ results ++ explicit
    /\ map getArgumentType explicit = map (parameterType SGM) consumed.
Proof.
  intros Hrun results.
  apply emitProlog_spec in Hrun as (_ & _ & Ha & (consumed & rest & Hps & Hc) & _).
  exists consumed, rest, (flat_map (paramArguments SGM) (concat (rev paramLists))).
  split; [done|]. split; [done|].
  rewrite <- (compatible_types _ _ Hc).
  generalize (concat (rev paramLists)). intros params.
  induction params as [|PD params IH]; [done|].
  cbn [flat_map]. rewrite !map_app, IH. f_equal.
  unfold paramArguments. rewrite map_map. done.
Qed.

End Ordinals.

(** ** Other captures, results, forwarding and self *)

Section OtherCaptures.
Variable SGM : SILGenModule.

(** X15.  A capture in a box arrives as one entry-block argument of the
    box type.  The address of the captured variable is projected out of the
    box; the variable is bound to this address, and its entry remembers the
    box; the address gets a [debug_value_addr] with the argument number,
    not constant.  A release of the box (not of the address) is registered,
    pending, unless the module is in guaranteed-context mode; then nothing
    is registered. *)
Theorem emitCaptureArguments_box
    (closure : nat) (capture : CapturedValue) (ArgNo : nat) (s : SILGenFunction) :
  getDeclCaptureKind SGM capture = CaptureKind.Box ->
  let VD := getCapturedDecl capture in
  let ty := getLoweredType SGM (mapTypeIntoContext SGM (getInterfaceType VD)) in
  let boxTy :=
    getPrimitiveObjectType
      (getContextBoxTypeForCapture SGM VD (getSwiftRValueType ty)) in
  let box := mkSILValue (FunctionArgument (length (F_arguments s))) boxTy in
  let addr := mkSILValue (InstructionResult (length (B s))) (getAddressType ty) in
  exists s',
    emitCaptureArguments SGM closure capture ArgNo s = Ok (tt, s')
    /\ F_arguments s' = F_arguments s ++ [mkSILArgument boxTy (Some (SourceDecl VD))]
    /\ VarLocs s' = <[declID VD := VarLoc_get addr (Some box)]> (VarLocs s)
    /\ B s' = B s ++ [ProjectBoxInst box 0;
                      DebugValueAddrInst addr (debugVariable false ArgNo)]
    /\ Cleanups s' = Cleanups s
                     ++ (if EnableGuaranteedClosureContexts SGM then []
                         else [mkCleanup (StrongReleaseCleanup box) Active])
    /\ F_parameters s' = F_parameters s.
Proof.
  intros Hkind VD ty boxTy box addr. unfold emitCaptureArguments. rewrite Hkind.
  destruct (EnableGuaranteedClosureContexts SGM); run_capture; by rewrite ?app_nil_r.
Qed.

(** X16.  A capture by storage address arrives as one entry-block argument
    of the address type of the captured variable; the variable is bound to
    it, with no box; it gets a [debug_value_addr] with the argument number,
    constant.  No cleanup is registered for it, in either mode and
    whatever its type. *)
Theorem emitCaptureArguments_storage_address
    (closure : nat) (capture : CapturedValue) (ArgNo : nat) (s : SILGenFunction) :
  getDeclCaptureKind SGM capture = CaptureKind.StorageAddress ->
  let VD := getCapturedDecl capture in
  let ty := getAddressType
              (getLoweredType SGM (mapTypeIntoContext SGM (getInterfaceType VD))) in
  let addr := mkSILValue (FunctionArgument (length (F_arguments s))) ty in
  exists s',
    emitCaptureArguments SGM closure capture ArgNo s = Ok (tt, s')
    /\ F_arguments s' = F_arguments s ++ [mkSILArgument ty (Some (SourceDecl VD))]
    /\ VarLocs s' = <[declID VD := VarLoc_get addr None]> (VarLocs s)
    /\ B s' = B s ++ [DebugValueAddrInst addr (debugVariable true ArgNo)]
    /\ Cleanups s' = Cleanups s
    /\ F_parameters s' = F_parameters s.
Proof.
  intros Hkind VD ty addr. unfold emitCaptureArguments. rewrite Hkind.
  run_capture. done.
Qed.

Lemma captureOrdinals_by_position captures : forall n,
  Forall (fun c => isDynamicSelfMetadata c = false) captures ->
  captureOrdinals SGM captures n = positionOrdinals SGM captures n.
Proof.
  unfold positionOrdinals.
  induction captures as [|c captures IH]; intros n Hflags; [done|].
  apply Forall_cons in Hflags as [Hflag Hflags].
  cbn [captureOrdinals imap]. rewrite Hflag, (IH (S n) Hflags).
  assert (imap ((fun i capture =>
                   if materializesArgument SGM capture then Some (n + S i) else None)
                ∘ S) captures
          = imap (fun i capture =>
                    if materializesArgument SGM capture then Some (S n + S i) else None)
                 captures) as ->.
  { apply imap_ext. intros i x _. cbn. destruct (materializesArgument SGM x); [|done].
    f_equal. lia. }
  destruct (materializesArgument SGM c); cbn; [|done]. by rewrite Nat.add_1_r.
Qed.

(** X17.  The loop over capture records, none of them the dynamic-self
    metadata, always returns, and numbers the records by position: the
    record at position [i] carries the argument number [ArgNo + i + 1],
    whether or not the records before it have materialized an argument (a
    record of kind [None] takes its number and shows nothing). *)
Theorem emitCaptures_numbers_by_position
    (TheClosure : nat) (captureInfo : CaptureInfo) (captures : list CapturedValue)
    (ArgNo : nat) (s : SILGenFunction) :
  Forall (fun c => isDynamicSelfMetadata c = false) captures ->
  exists s' newB,
    emitCaptures SGM TheClosure captureInfo captures ArgNo s = Ok (tt, s')
    /\ B s' = B s ++ newB
    /\ debugOrdinals newB = positionOrdinals SGM captures ArgNo.
Proof.
  intros Hflags.
  destruct (emitCaptures_spec SGM TheClosure captureInfo captures ArgNo s)
    as (s' & Hrun & _ & _ & (newB & HB & Hd) & _).
  exists s', newB. split; [done|]. split; [done|].
  by rewrite Hd, captureOrdinals_by_position.
Qed.

End OtherCaptures.

Section Results.
Variable SGM : SILGenModule.

(** X18.  The indirect results depend on the scalar leaves of the result
    type only, not on how the tuples are nested: two result types with the
    same leaves get the same entry-block arguments. *)
Theorem emitIndirectResultParameters_flattens
    (resultType resultType' : CanType) (s : SILGenFunction) :
  leaves resultType = leaves resultType' ->
  emitIndirectResultParameters SGM resultType tt s
  = emitIndirectResultParameters SGM resultType' tt s.
Proof.
  intros Hl. rewrite !emitIndirectResultParameters_spec.
  unfold indirectResultArguments. by rewrite Hl.
Qed.

(** X19.  When no scalar leaf of the result type is returned indirectly
    (and so for a result type without leaves, as the empty tuple), no
    argument is created for the result: the state is as before. *)
Theorem emitIndirectResultParameters_direct
    (resultType : CanType) (s : SILGenFunction) :
  Forall (fun leaf => returnedIndirectly SGM leaf = false) (leaves resultType) ->
  emitIndirectResultParameters SGM resultType tt s = Ok (tt, s).
Proof.
  intros Hd. rewrite emitIndirectResultParameters_spec.
  unfold indirectResultArguments.
  assert (List.filter (returnedIndirectly SGM) (leaves resultType) = []) as ->.
  { induction Hd as [|leaf lvs Hleaf _ IH]; [done|]. cbn. by rewrite Hleaf. }
  cbn. by rewrite with_arguments_id.
Qed.

(** X20.  A thunk that forwards a named parameter gets the entry-block
    arguments that the prologue creates when it binds the parameter: for a
    named parameter that has a type, which is canonical once its dynamic
    Self types are erased, [bindParametersForForwarding] appends to the
    entry block what [emitParam] appends to it, and hands on their values. *)
Theorem bindParametersForForwarding_matches_emitParam
    (PD : VarDecl) (this : ArgumentInitHelper.t) (s : SILGenFunction)
    (this' : ArgumentInitHelper.t) (s1 : SILGenFunction) :
  hasName PD = true ->
  hasType PD = true ->
  getCanonicalType SGM (eraseDynamicSelfType SGM (getType PD))
  = eraseDynamicSelfType SGM (getType PD) ->
  ArgumentInitHelper.emitParam SGM PD this s = Ok (this', s1) ->
  exists values s2,
    bindParametersForForwarding SGM [PD] [] s = Ok (values, s2)
    /\ F_arguments s2 = F_arguments s1
    /\ values = argumentValues (length (F_arguments s))
                  (drop (length (F_arguments s)) (F_arguments s1)).
Proof.
  intros Hn Ht Hcanon Hrun.
  apply emitParam_spec in Hrun as [_ _ Ha _ _ _].
  unfold paramArguments, paramLeaves, argumentType in Ha.
  rewrite Hn, Hcanon in Ha.
  unfold bindParametersForForwarding. rewrite forEach_singleton, Ht, makeArgument_spec.
  eexists _, _. split; [reflexivity|]. cbn. split; [done|].
  by rewrite Ha, drop_app_length.
Qed.

End Results.

Section Self.
Variable getLoweredLoadableType : CanType -> SILType.

(** X21.  [emitSelfDecl] creates one entry-block argument for the self
    declaration, of the loadable lowered type of its type, and returns it;
    the declaration is bound to it, with no box, and no other entry of
    [VarLocs] changes; it gets a [debug_value] whose argument number is 1,
    however many arguments the entry block has already.  No parameter info
    is consumed or checked, and no cleanup is registered. *)
Theorem emitSelfDecl_binds_self (selfDecl : VarDecl) (s : SILGenFunction) :
  let selfType := getLoweredLoadableType (getType selfDecl) in
  let selfValue := mkSILValue (FunctionArgument (length (F_arguments s))) selfType in
  exists s',
    emitSelfDecl getLoweredLoadableType selfDecl s = Ok (selfValue, s')
    /\ F_arguments s'
       = F_arguments s ++ [mkSILArgument selfType (Some (SourceDecl selfDecl))]
    /\ VarLocs s' !! declID selfDecl = Some (VarLoc_get selfValue None)
    /\ (forall k, k <> declID selfDecl -> VarLocs s' !! k = VarLocs s !! k)
    /\ B s' = B s ++ [DebugValueInst selfValue (debugVariable (isLet selfDecl) 1)]
    /\ debugOrdinals (drop (length (B s)) (B s')) = [1]
    /\ Cleanups s' = Cleanups s
    /\ F_parameters s' = F_parameters s.
Proof.
  intros selfType selfValue. unfold emitSelfDecl.
  unfold bind, createFunctionArgument, setVarLoc, createDebugValue, createInst, ret.
  eexists. split; [reflexivity|]. cbn. repeat split.
  - apply lookup_insert_eq.
  - intros k Hk. by apply lookup_insert_ne.
  - by rewrite drop_app_length.
Qed.

End Self.

(** ** Further worked examples *)

(** A pair whose first element is the empty tuple: the first leaf is found
    after it. *)
Lemma visit_empty_queue_witness :
  visit Sample.default None true (TupleType [TupleType []; Sample.Int]) []
        (Sample.start [])
  = Abort NoParameterInfo.
Proof.
  apply (visit_empty_queue Sample.default None true
           (TupleType [TupleType []; Sample.Int]) (Sample.start [])).
  discriminate.
Defined.

(** Tuples of empty tuples, on a queue that is left as it is. *)
Lemma visit_leafless_witness :
  exists mv s',
    visit Sample.default None true (TupleType [TupleType []; TupleType []])
          [mkSILParameterInfo Sample.Int Direct_Owned] (Sample.start [])
    = Ok (mv, [mkSILParameterInfo Sample.Int Direct_Owned], s')
    /\ F_arguments s' = [].
Proof.
  destruct (visit_leafless Sample.default None true
              (TupleType [TupleType []; TupleType []])
              [mkSILParameterInfo Sample.Int Direct_Owned] (Sample.start []))
    as (mv & s' & Hrun & Ha & _).
  - reflexivity.
  - exists mv, s'. split; [exact Hrun|exact Ha].
Defined.

(** [(Int, (Int, Reference))] whose last leaf is owned. *)
Lemma visit_owned_leaf_owns_aggregate_witness :
  exists mv s' h,
    visit Sample.default None true
      (TupleType [Sample.Int; TupleType [Sample.Int; Sample.Reference]])
      [mkSILParameterInfo Sample.Int Direct_Guaranteed;
       mkSILParameterInfo Sample.Int Direct_Guaranteed;
       mkSILParameterInfo Sample.Reference Direct_Owned]
      (Sample.start []) = Ok (mv, [], s')
    /\ getCleanup mv = Some h
    /\ Cleanups s' !! h = Some (releaseOf (getValue mv)).
Proof.
  edestruct (visit_owned_leaf_owns_aggregate Sample.default None true
               (TupleType [Sample.Int; TupleType [Sample.Int; Sample.Reference]])
               [mkSILParameterInfo Sample.Int Direct_Guaranteed;
                mkSILParameterInfo Sample.Int Direct_Guaranteed;
                mkSILParameterInfo Sample.Reference Direct_Owned]
               (Sample.start []))
    as (h & Hh & _ & Hl).
  - vm_compute. reflexivity.
  - cbn. apply Exists_cons_tl, Exists_cons_tl, Exists_cons_hd. reflexivity.
  - eexists _, _, h. split; [vm_compute; reflexivity|]. split; [exact Hh|exact Hl].
Defined.

(** [(Int, (Reference, Reference))], all guaranteed. *)
Lemma visit_borrowed_leaves_borrow_aggregate_witness :
  exists mv s',
    visit Sample.default None true
      (TupleType [Sample.Int; TupleType [Sample.Reference; Sample.Reference]])
      [mkSILParameterInfo Sample.Int Direct_Guaranteed;
       mkSILParameterInfo Sample.Reference Direct_Guaranteed;
       mkSILParameterInfo Sample.Reference Direct_Guaranteed]
      (Sample.start []) = Ok (mv, [], s')
    /\ getCleanup mv = None
    /\ Cleanups s' = [].
Proof.
  edestruct (visit_borrowed_leaves_borrow_aggregate Sample.default None true
               (TupleType [Sample.Int; TupleType [Sample.Reference; Sample.Reference]])
               [mkSILParameterInfo Sample.Int Direct_Guaranteed;
                mkSILParameterInfo Sample.Reference Direct_Guaranteed;
                mkSILParameterInfo Sample.Reference Direct_Guaranteed]
               (Sample.start []))
    as (Hnone & HC & _).
  - vm_compute. reflexivity.
  - reflexivity.
  - repeat constructor.
  - repeat constructor.
  - eexists _, _. split; [vm_compute; reflexivity|]. split; [exact Hnone|exact HC].
Defined.

(** An owned block: the argument is the operand of the [copy_block]. *)
Lemma visitType_copies_block_witness :
  exists mv s',
    visitType Sample.default None true (FunctionType Block 0)
      [mkSILParameterInfo (FunctionType Block 0) Direct_Owned] (Sample.start [])
    = Ok (mv, [], s')
    /\ B s' = [CopyBlockInst
                 (mkSILValue (FunctionArgument 0)
                             (mkSILType (FunctionType Block 0) Object))]
    /\ length (Cleanups s') = 2
    /\ getCleanup mv = Some 1.
Proof.
  edestruct (visitType_copies_block Sample.default None (FunctionType Block 0)
               (mkSILParameterInfo (FunctionType Block 0) Direct_Owned) []
               (Sample.start []))
    as (_ & _ & HB & Hmv & HC & _).
  - vm_compute. reflexivity.
  - reflexivity.
  - eexists _, _. split; [vm_compute; reflexivity|].
    rewrite Hmv, HC, HB. repeat split; reflexivity.
Defined.

(** A named and an unnamed parameter. *)
Lemma emitProlog_binds_named_parameters_witness :
  exists n s' v,
    emitProlog Sample.default
      [[Sample.param 1 Sample.Int; Sample.anonymous 2 Sample.Reference]]
      Sample.Int false
      (Sample.start [mkSILParameterInfo Sample.Int Direct_Guaranteed;
                     mkSILParameterInfo Sample.Reference Direct_Owned])
    = Ok (n, s')
    /\ VarLocs s' !! 1 = Some (VarLoc_get v None)
    /\ VarLocs s' !! 2 = None.
Proof.
  edestruct (emitProlog_binds_named_parameters Sample.default
               [[Sample.param 1 Sample.Int; Sample.anonymous 2 Sample.Reference]]
               Sample.Int false
               (Sample.start [mkSILParameterInfo Sample.Int Direct_Guaranteed;
                              mkSILParameterInfo Sample.Reference Direct_Owned]))
    as (Hbound & Hframe).
  - vm_compute. reflexivity.
  - destruct (Hbound (Sample.param 1 Sample.Int)) as (v & Hv).
    + apply list_elem_of_here.
    + reflexivity.
    + eexists _, _, v. split; [vm_compute; reflexivity|]. split; [exact Hv|].
      apply (Hframe 2). intros Hin. apply list_elem_of_singleton in Hin.
      discriminate Hin.
Defined.

(** A parameter of type [Self.Type]: it arrives as the metatype of the
    class, and is cast. *)
Lemma emitParam_dynamic_self_metatype_witness :
  exists this' s' v,
    ArgumentInitHelper.emitParam Sample.default
      (Sample.param 1 (MetatypeType (DynamicSelfType Sample.Reference)))
      (ArgumentInitHelper.mk
         [mkSILParameterInfo (MetatypeType Sample.Reference) Direct_Guaranteed] 0)
      (Sample.start []) = Ok (this', s')
    /\ VarLocs s' !! 1 = Some (VarLoc_get v None)
    /\ getValueType v
       = mkSILType (MetatypeType (DynamicSelfType Sample.Reference)) Object.
Proof.
  edestruct (emitParam_dynamic_self_metatype Sample.default
               (Sample.param 1 (MetatypeType (DynamicSelfType Sample.Reference)))
               Sample.Reference
               (ArgumentInitHelper.mk
                  [mkSILParameterInfo (MetatypeType Sample.Reference) Direct_Guaranteed]
                  0)
               (Sample.start []))
    as (argrv & ps1 & s1 & v & _ & _ & Hv & Hty & _).
  - reflexivity.
  - reflexivity.
  - reflexivity.
  - vm_compute. reflexivity.
  - eexists _, _, v. split; [vm_compute; reflexivity|]. split; [exact Hv|exact Hty].
Defined.

(** A function of one parameter, without and with [throws]. *)
Lemma emitProlog_throws_adds_marker_witness :
  exists s1,
    emitProlog Sample.default [[Sample.param 1 Sample.Int]] Sample.Int false
      (Sample.start [mkSILParameterInfo Sample.Int Direct_Guaranteed]) = Ok (1, s1)
    /\ emitProlog Sample.default [[Sample.param 1 Sample.Int]] Sample.Int true
         (Sample.start [mkSILParameterInfo Sample.Int Direct_Guaranteed])
       = Ok (2, with_B (B s1 ++ [errorMarker Sample.default 2]) s1).
Proof.
  eexists. split; [vm_compute; reflexivity|].
  eapply (emitProlog_throws_adds_marker Sample.default [[Sample.param 1 Sample.Int]]
            Sample.Int
            (Sample.start [mkSILParameterInfo Sample.Int Direct_Guaranteed]) 1).
  vm_compute. reflexivity.
Defined.

(** A throwing closure with a parameter, a capture of kind [None] and a
    by-value capture. *)
Lemma emitProlog_ordinals_increase_witness :
  exists s' newB,
    emitPrologOfClosure
      (Sample.SGM false true
         (fun c => if Nat.eqb (declID (getCapturedDecl c)) 7
                   then CaptureKind.None else CaptureKind.Constant)
         (mkCaptureInfo [Sample.captured 7 Sample.Reference false;
                         Sample.captured 8 Sample.Reference false] Sample.Reference))
      0 [[Sample.param 1 Sample.Int]] Sample.Int true
      (Sample.start [mkSILParameterInfo Sample.Int Direct_Guaranteed]) = Ok (tt, s')
    /\ B s' = [] ++ newB
    /\ strictlyIncreasing (debugOrdinals newB).
Proof.
  edestruct (emitProlog_ordinals_increase
               (Sample.SGM false true
                  (fun c => if Nat.eqb (declID (getCapturedDecl c)) 7
                            then CaptureKind.None else CaptureKind.Constant)
                  (mkCaptureInfo [Sample.captured 7 Sample.Reference false;
                                  Sample.captured 8 Sample.Reference false]
                                 Sample.Reference))
               0 [[Sample.param 1 Sample.Int]] Sample.Int true
               (Sample.start [mkSILParameterInfo Sample.Int Direct_Guaranteed]))
    as (newB & HB & Hinc & _).
  - vm_compute. reflexivity.
  - eexists _, newB. split; [vm_compute; reflexivity|]. split; [exact HB|exact Hinc].
Defined.

(** A closure with one parameter and one capture, from a state that has an
    argument already. *)
Lemma emitProlog_only_appends_witness :
  exists s',
    emitPrologOfClosure (Sample.closure [Sample.captured 7 Sample.Reference false]) 0
      [[Sample.param 1 Sample.Int]] Sample.Int false
      (mkSGF [mkSILParameterInfo Sample.Int Direct_Guaranteed]
             [mkSILArgument (mkSILType Sample.Int Object) None] [] [] ∅)
    = Ok (tt, s')
    /\ [mkSILArgument (mkSILType Sample.Int Object) None] `prefix_of` F_arguments s'.
Proof.
  edestruct (emitProlog_only_appends
               (Sample.closure [Sample.captured 7 Sample.Reference false]) 0
               [[Sample.param 1 Sample.Int]] Sample.Int false
               (mkSGF [mkSILParameterInfo Sample.Int Direct_Guaranteed]
                      [mkSILArgument (mkSILType Sample.Int Object) None] [] [] ∅))
    as (_ & Ha & _).
  - vm_compute. reflexivity.
  - eexists. split; [vm_compute; reflexivity|exact Ha].
Defined.

(** A function [(x : (Int, Reference)) -> Existential]. *)
Lemma emitProlog_arguments_match_parameter_infos_witness :
  exists n s' consumed rest explicit,
    emitProlog Sample.default [[Sample.param 1 (TupleType [Sample.Int; Sample.Reference])]]
      Sample.Existential false
      (Sample.start [mkSILParameterInfo Sample.Int Direct_Guaranteed;
                     mkSILParameterInfo Sample.Reference Direct_Owned])
    = Ok (n, s')
    /\ [mkSILParameterInfo Sample.Int Direct_Guaranteed;
        mkSILParameterInfo Sample.Reference Direct_Owned] = consumed ++ rest
    /\ F_arguments s' = [resultArgument Sample.default Sample.Existential] ++ explicit
    /\ map getArgumentType explicit = map (parameterType Sample.default) consumed.
Proof.
  edestruct (emitProlog_arguments_match_parameter_infos Sample.default
               [[Sample.param 1 (TupleType [Sample.Int; Sample.Reference])]]
               Sample.Existential false
               (Sample.start [mkSILParameterInfo Sample.Int Direct_Guaranteed;
                              mkSILParameterInfo Sample.Reference Direct_Owned]))
    as (consumed & rest & explicit & Hps & Ha & Hty).
  - vm_compute. reflexivity.
  - eexists _, _, consumed, rest, explicit. split; [vm_compute; reflexivity|].
    split; [exact Hps|]. split; [exact Ha|exact Hty].
Defined.

(** A boxed capture, outside guaranteed-context mode. *)
Lemma emitCaptureArguments_box_witness :
  exists s',
    emitCaptureArguments
      (Sample.SGM false true (fun _ => CaptureKind.Box) Sample.noCaptures) 0
      (Sample.captured 7 Sample.Reference true) 1 (Sample.start []) = Ok (tt, s')
    /\ length (F_arguments s') = 1
    /\ length (B s') = 2
    /\ length (Cleanups s') = 1.
Proof.
  destruct (emitCaptureArguments_box
              (Sample.SGM false true (fun _ => CaptureKind.Box) Sample.noCaptures) 0
              (Sample.captured 7 Sample.Reference true) 1 (Sample.start []))
    as (s' & Hrun & Ha & _ & HB & HC & _).
  - reflexivity.
  - exists s'. split; [exact Hrun|]. rewrite Ha, HB, HC. repeat split; reflexivity.
Defined.

(** A capture of an existential by its address. *)
Lemma emitCaptureArguments_storage_address_witness :
  exists s',
    emitCaptureArguments
      (Sample.SGM false true (fun _ => CaptureKind.StorageAddress) Sample.noCaptures) 0
      (Sample.captured 7 Sample.Existential false) 1 (Sample.start []) = Ok (tt, s')
    /\ length (F_arguments s') = 1
    /\ Cleanups s' = [].
Proof.
  destruct (emitCaptureArguments_storage_address
              (Sample.SGM false true (fun _ => CaptureKind.StorageAddress)
                          Sample.noCaptures) 0
              (Sample.captured 7 Sample.Existential false) 1 (Sample.start []))
    as (s' & Hrun & Ha & _ & _ & HC & _).
  - reflexivity.
  - exists s'. split; [exact Hrun|]. rewrite Ha, HC. split; reflexivity.
Defined.

(** A capture of kind [None] before a by-value capture: the second one has
    the number 2 after [ArgNo], here 5. *)
Lemma emitCaptures_numbers_by_position_witness :
  exists s' newB,
    emitCaptures
      (Sample.SGM false true
         (fun c => if Nat.eqb (declID (getCapturedDecl c)) 7
                   then CaptureKind.None else CaptureKind.Constant)
         Sample.noCaptures)
      0 Sample.noCaptures
      [Sample.captured 7 Sample.Reference false; Sample.captured 8 Sample.Reference false]
      3 (Sample.start []) = Ok (tt, s')
    /\ B s' = [] ++ newB
    /\ debugOrdinals newB = [5].
Proof.
  apply (emitCaptures_numbers_by_position
           (Sample.SGM false true
              (fun c => if Nat.eqb (declID (getCapturedDecl c)) 7
                        then CaptureKind.None else CaptureKind.Constant)
              Sample.noCaptures)
           0 Sample.noCaptures
           [Sample.captured 7 Sample.Reference false;
            Sample.captured 8 Sample.Reference false]
           3 (Sample.start [])).
  repeat constructor.
Defined.

(** [((Int, Existential), Int)] and [(Int, Existential, Int)]. *)
Lemma emitIndirectResultParameters_flattens_witness :
  emitIndirectResultParameters Sample.default
    (TupleType [TupleType [Sample.Int; Sample.Existential]; Sample.Int]) tt
    (Sample.start [])
  = emitIndirectResultParameters Sample.default
      (TupleType [Sample.Int; Sample.Existential; Sample.Int]) tt (Sample.start []).
Proof.
  apply (emitIndirectResultParameters_flattens Sample.default
           (TupleType [TupleType [Sample.Int; Sample.Existential]; Sample.Int])
           (TupleType [Sample.Int; Sample.Existential; Sample.Int]) (Sample.start [])).
  reflexivity.
Defined.

(** A result [(Int, Reference)]: both are returned directly. *)
Lemma emitIndirectResultParameters_direct_witness :
  emitIndirectResultParameters Sample.default
    (TupleType [Sample.Int; Sample.Reference]) tt (Sample.start [])
  = Ok (tt, Sample.start []).
Proof.
  apply (emitIndirectResultParameters_direct Sample.default
           (TupleType [Sample.Int; Sample.Reference]) (Sample.start [])).
  repeat constructor.
Defined.

(** A named parameter of type [(Int, Reference)]. *)
Lemma bindParametersForForwarding_matches_emitParam_witness :
  exists this' s1 values s2,
    ArgumentInitHelper.emitParam Sample.default
      (Sample.param 1 (TupleType [Sample.Int; Sample.Reference]))
      (ArgumentInitHelper.mk
         [mkSILParameterInfo Sample.Int Direct_Guaranteed;
          mkSILParameterInfo Sample.Reference Direct_Owned] 0)
      (Sample.start []) = Ok (this', s1)
    /\ bindParametersForForwarding Sample.default
         [Sample.param 1 (TupleType [Sample.Int; Sample.Reference])] []
         (Sample.start []) = Ok (values, s2)
    /\ F_arguments s2 = F_arguments s1
    /\ length values = 2.
Proof.
  edestruct (bindParametersForForwarding_matches_emitParam Sample.default
               (Sample.param 1 (TupleType [Sample.Int; Sample.Reference]))
               (ArgumentInitHelper.mk
                  [mkSILParameterInfo Sample.Int Direct_Guaranteed;
                   mkSILParameterInfo Sample.Reference Direct_Owned] 0)
               (Sample.start []))
    as (values & s2 & Hrun & Ha & Hvals).
  - reflexivity.
  - reflexivity.
  - reflexivity.
  - vm_compute. reflexivity.
  - eexists _, _, values, s2. split; [vm_compute; reflexivity|].
    split; [exact Hrun|]. split; [exact Ha|]. rewrite Hvals. reflexivity.
Defined.
